(** * Moving-object detection and motion prediction: a shallow embedding

    This development embeds the parts of [moving_detection.py] and
    [moving_prediction.py] that the specification makes promises about,
    and settles those promises against the embedded code.  The first half
    of the file holds the embedding, module by module; the second half
    holds the facts, in modules of the same names with [Facts] appended.

    Numbers.  Python's [float] is an IEEE-754 binary64.
    - [Prediction], [Movement] (moving_prediction.py) and [RGB_MoG]
      (moving_detection.py) work on Rocq's primitive binary64 floats, so
      in-place float updates round exactly as the program's do and the
      square root of a negative number is NaN.
    - [RegionGrowing], [FrameDifference], [ViBE], [DEVB], [RGBD_MoG] and
      [Fast_RGBD_MoG] (moving_detection.py) only add, multiply, divide
      and compare; they are embedded over the rationals [Q], the exact
      reading of that arithmetic, which keeps every definition
      executable.  Where the program's rounding decides which branch is
      taken, as in the depth test of [region_growing], the rounding is
      written out ([Numeric.round64]).

    Exceptions.  A function that can raise returns an [option]; [None] is
    the raised exception.  Loops that the code does not bound ([while])
    take a budget of iterations and return [None] when it runs out.

    Library calls (np.polyfit, np.exp, scipy's normal CDF, np.arange, the
    random generators) are not part of the repository: they enter as
    section variables or as an explicit tape of random draws.  So does
    [sum_of_the_squares_of_the_residuals], which the program imports from
    a file that is not among the sources. *)

From Stdlib Require Import String Ascii Bool Arith ZArith Lia.
From Stdlib Require Import DecimalString DecimalNat.
From Stdlib Require Import Floats.
From Stdlib Require Import QArith Qabs Lqa.
From Stdlib Require Import List.
Import ListNotations.

Close Scope Q_scope.
Close Scope string_scope.

Set Warnings "-inexact-float".

(* ================================================================== *)
(** * Shared list helpers *)

(** Element-wise combination of two arrays of one shape. *)
Fixpoint map2 {A B C : Type} (f : A -> B -> C) (xs : list A) (ys : list B)
  : list C :=
  match xs, ys with
  | x :: xs', y :: ys' => f x y :: map2 f xs' ys'
  | _, _ => []
  end.

(** [a[i] = v] on a list; out of range the list is returned unchanged
    (the callers check the range first and signal the IndexError). *)
Fixpoint set_nth {A : Type} (i : nat) (v : A) (l : list A) {struct l}
  : list A :=
  match l, i with
  | [], _ => []
  | _ :: t, O => v :: t
  | h :: t, S i' => h :: set_nth i' v t
  end.

(* ================================================================== *)
(** * moving_prediction.py *)

Module Prediction.

Local Open Scope float_scope.

(** ** numpy helpers, on binary64 *)

(** [np.sum] of a 1-D float array, in the order numpy's add reduction
    takes.  Fewer than 8 entries are added one after the other.  Up to 128
    entries are added into eight running sums, entry [i] into sum
    [i mod 8]; the eight are then added pairwise and the entries left over
    when the length is no multiple of 8 are added last.  A longer array is
    split in two, the first half cut down to a multiple of 8, and the two
    sums are added.  The reduction starts from the identity 0. *)
Definition add_all (acc : float) (xs : list float) : float :=
  fold_left PrimFloat.add xs acc.

Fixpoint add_lanes (blocks : nat) (r xs : list float)
  : list float * list float :=
  match blocks with
  | O => (r, xs)
  | S blocks' =>
      add_lanes blocks' (map2 PrimFloat.add r (firstn 8 xs)) (skipn 8 xs)
  end.

Definition block_sum (xs : list float) : float :=
  let '(r, rest) :=
    add_lanes (length xs / 8 - 1) (firstn 8 xs) (skipn 8 xs) in
  match r with
  | [r0; r1; r2; r3; r4; r5; r6; r7] =>
      add_all (((r0 + r1) + (r2 + r3)) + ((r4 + r5) + (r6 + r7))) rest
  | _ => add_all 0 xs
  end.

Fixpoint pairwise_sum (depth : nat) (xs : list float) : float :=
  let n := length xs in
  if (n <? 8)%nat then add_all 0 xs
  else if (n <=? 128)%nat then block_sum xs
  else
    match depth with
    | O => block_sum xs
    | S depth' =>
        let n2 := (n / 2 - (n / 2) mod 8)%nat in
        pairwise_sum depth' (firstn n2 xs) + pairwise_sum depth' (skipn n2 xs)
    end.

Definition np_sum (xs : list float) : float :=
  0 + pairwise_sum (length xs) xs.

(** [np.polyval(p, x)] at one abscissa: Horner's rule, highest power first. *)
Definition polyval1 (p : list float) (x : float) : float :=
  fold_left (fun y pv => y * x + pv) p 0.

Definition polyval (p : list float) (xs : list float) : list float :=
  map (polyval1 p) xs.

(** [np.diag] of a square matrix given by rows: entry [i] of row [i]. *)
Fixpoint diag_from (i : nat) (m : list (list float)) : list float :=
  match m with
  | [] => []
  | r :: rs => nth i r 0 :: diag_from (S i) rs
  end.

Definition diag (m : list (list float)) : list float := diag_from 0 m.

(** [np.maximum]: a NaN on either side wins. *)
Definition np_maximum (a b : float) : float :=
  if (PrimFloat.leb b a || is_nan a)%bool then a else b.

Definition np_minimum (a b : float) : float :=
  if (PrimFloat.leb a b || is_nan a)%bool then a else b.

(** [np.max] / [np.min] over a flattened array; empty input raises. *)
Definition np_max (xs : list float) : option float :=
  match xs with
  | [] => None
  | x :: r => Some (fold_left np_maximum r x)
  end.

Definition np_min (xs : list float) : option float :=
  match xs with
  | [] => None
  | x :: r => Some (fold_left np_minimum r x)
  end.

(** [str(i)] for a non-negative integer. *)
Definition str (i : nat) : string := NilEmpty.string_of_uint (Nat.to_uint i).

(** ** Candidate fit functions and the dictionary holding them *)

(** One entry of [found_functions].  [function] is called as
    [function x params]. *)
Record candidate := mkCandidate {
  function : list float -> list float -> list float;
  function_params : list float;
  error : float;
  standard_deviation : list float;
  covariance_matrix : list (list float)
}.

(** A Python [dict] with string keys: insertion ordered, [d[k] = v]
    overwrites in place or appends. *)
Definition dict := list (string * candidate).

Fixpoint dict_set (d : dict) (k : string) (v : candidate) : dict :=
  match d with
  | [] => [(k, v)]
  | (k', v') :: r =>
      if String.eqb k k' then (k, v) :: r else (k', v') :: dict_set r k v
  end.

Fixpoint dict_get (d : dict) (k : string) : option candidate :=
  match d with
  | [] => None
  | (k', v') :: r => if String.eqb k k' then Some v' else dict_get r k
  end.

(** ** Trajectory generation and fitting *)

(** [generate_poly_trajectory(x, trajectory_param)], called with [x] given. *)
Definition generate_poly_trajectory (x : list float)
    (trajectory_param : list float) : list float :=
  polyval trajectory_param x.

(** [generate_func_trajectory(trajectory_fun, trajectory_param, x)]. *)
Definition generate_func_trajectory
    (trajectory_fun : list float -> list float -> list float)
    (trajectory_param : list float) (x : list float) : list float :=
  trajectory_fun x trajectory_param.

Section Fitting.

(** [np.polyfit(t, points, deg, cov=True)]: the coefficients (highest
    power first) and their covariance matrix.  [None] when numpy raises:
    [LinAlgError] when the normal matrix it inverts for the covariance is
    singular (a series with fewer distinct times than coefficients),
    [ValueError] or [TypeError] on a series it takes to be too short or
    ill-shaped. *)
Variable polyfit :
  list float -> list float -> nat -> option (list float * list (list float)).

(** [sum_of_the_squares_of_the_residuals(a0, a1)] is imported from
    [set_of_math_functions.py], which is not among the sources; it is taken
    as a parameter. *)
Variable sum_of_the_squares_of_the_residuals :
  list float -> list float -> float.

Definition trajectory_poly_fitting (trajectory_time trajectory_points
    : list float) (poly_number : nat)
  : option (list float * list float * list (list float)) :=
  match polyfit trajectory_time trajectory_points poly_number with
  | None => None
  | Some (popt, pcov) =>
      let perr := map PrimFloat.sqrt (diag pcov) in
      Some (popt, perr, pcov)
  end.

(** [max_poly = points.shape[0] - 1 if points.shape[0] - 1 <= 15 else 15] *)
Definition max_poly (points : list float) : Z :=
  let n1 := (Z.of_nat (length points) - 1)%Z in
  if (n1 <=? 15)%Z then n1 else 15%Z.

(** [range(max_poly)] *)
Definition degrees (points : list float) : list nat :=
  seq 0 (Z.to_nat (max_poly points)).

Definition model_name (i : nat) : string :=
  String.append "polyfit_model" (str i).

(** One pass of the body of the [for i in range(max_poly)] loop; [None]
    when the fit raises, which nothing in [find_functions] catches. *)
Definition find_functions_step (t points : list float)
    (threshold_accuracy : float) (found_functions : dict) (i : nat)
  : option dict :=
  match trajectory_poly_fitting t points i with
  | None => None
  | Some (poly_params, poly_sd, poly_cov) =>
      let y_ := generate_poly_trajectory t poly_params in
      if existsb is_nan y_ then Some found_functions
      else
        let mean_error := sum_of_the_squares_of_the_residuals points y_ in
        if PrimFloat.ltb mean_error threshold_accuracy then
          Some (dict_set found_functions (model_name i)
                  {| function := generate_poly_trajectory;
                     function_params := poly_params;
                     error := mean_error;
                     standard_deviation := poly_sd;
                     covariance_matrix := poly_cov |})
        else Some found_functions
  end.

Fixpoint find_functions_loop (t points : list float)
    (threshold_accuracy : float) (ds : list nat) (found_functions : dict)
  : option dict :=
  match ds with
  | [] => Some found_functions
  | i :: ds' =>
      match find_functions_step t points threshold_accuracy
              found_functions i with
      | None => None
      | Some found_functions' =>
          find_functions_loop t points threshold_accuracy ds' found_functions'
      end
  end.

(** [find_functions(t, points, threshold_accuracy)]: the dictionary returned
    and the lines printed, or [None] when a fit has raised. *)
Definition find_functions (t points : list float) (threshold_accuracy : float)
  : option (dict * list string) :=
  match find_functions_loop t points threshold_accuracy (degrees points) []
  with
  | None => None
  | Some [] => Some ([], ["function wasn't found"%string])
  | Some found_functions => Some (found_functions, [])
  end.

(** The entry [find_functions] stores for a fit [(popt, pcov)]. *)
Definition fit_candidate (t points : list float)
    (fit : list float * list (list float)) : candidate :=
  {| function := generate_poly_trajectory;
     function_params := fst fit;
     error := sum_of_the_squares_of_the_residuals points (polyval (fst fit) t);
     standard_deviation := map PrimFloat.sqrt (diag (snd fit));
     covariance_matrix := snd fit |}.

(** A fit qualifies when its curve has no NaN and its error is below the
    threshold. *)
Definition qualifies (t points : list float) (thr : float)
    (fit : list float * list (list float)) : bool :=
  (negb (existsb is_nan (polyval (fst fit) t))
   && PrimFloat.ltb
        (sum_of_the_squares_of_the_residuals points (polyval (fst fit) t))
        thr)%bool.

End Fitting.

Definition threshold_accuracy_default : float := 0.1.

(** ** get_future_points and the plotting helper

    [found_functions[func]['function_params']] is a numpy array; [f_p]
    aliases it, so [f_p += ...] and [f_p -= ...] update the array stored in
    the dictionary.  The dictionary is therefore threaded through as state. *)

(** ["polyfit_model" in func] *)
Definition contains (needle hay : string) : bool :=
  match String.index 0 needle hay with
  | Some _ => true
  | None => false
  end.

Definition set_function_params (c : candidate) (p : list float) : candidate :=
  {| function := function c;
     function_params := p;
     error := error c;
     standard_deviation := standard_deviation c;
     covariance_matrix := covariance_matrix c |}.

(** The [if deviation == 'up': ... elif deviation == 'down': ...] update of
    the stored coefficient array. *)
Definition apply_deviation (deviation : string) (c : candidate) : candidate :=
  if String.eqb deviation "up" then
    set_function_params c
      (map2 PrimFloat.add (function_params c) (standard_deviation c))
  else if String.eqb deviation "down" then
    set_function_params c
      (map2 PrimFloat.sub (function_params c) (standard_deviation c))
  else c.

(** One pass of the loop body: the row written to [y[f_]] and the entry as
    it is left in the dictionary. *)
Definition get_future_points_row (tt : list float) (deviation : string)
    (entry : string * candidate) : list float * (string * candidate) :=
  let '(func, c) := entry in
  let f := function c in
  let c' := apply_deviation deviation c in
  let f_p := function_params c' in
  let y_row :=
    if contains "polyfit_model" func then f tt f_p
    else generate_func_trajectory f f_p tt in
  (y_row, (func, c')).

(** [get_future_points(found_functions, tt, deviation)]: the array [y] and
    the dictionary after the call. *)
Definition get_future_points (found_functions : dict) (tt : list float)
    (deviation : string) : list (list float) * dict :=
  let rows := map (get_future_points_row tt deviation) found_functions in
  (map fst rows, map snd rows).

(** Calls made on the plotting backend. *)
Inductive plot_call :=
| Plot (x y : list float) (fmt : string)
| FillBetween (x y1 y2 : list float)
| Legend (names : list string)
| Show.

Fixpoint zip4 {A B C D : Type} (a : list A) (b : list B) (c : list C)
    (d : list D) : list (A * B * C * D) :=
  match a, b, c, d with
  | x :: a', y :: b', z :: c', w :: d' => (x, y, z, w) :: zip4 a' b' c' d'
  | _, _, _, _ => []
  end.

(** [show_found_functions_with_deviation]: the dictionary after the call
    and the plotting calls issued. *)
Definition show_found_functions_with_deviation (found_functions : dict)
    (t points tt real_y : list float) : dict * list plot_call :=
  let '(trajectory, ff1) := get_future_points found_functions tt "" in
  let '(trajectory_up, ff2) := get_future_points ff1 tt "up" in
  let '(trajectory_down, ff3) := get_future_points ff2 tt "down" in
  let legend := ["given points"; "ground truth"]%string in
  let first := [Plot t points "o"; Plot tt real_y "-"] in
  let body :=
    flat_map (fun '(func, y_, y_up, y_down) =>
                [Plot tt y_ "--"; FillBetween tt y_up y_down])
             (zip4 (map fst ff3) trajectory trajectory_up trajectory_down) in
  let legend := (legend ++ map fst ff3)%list in
  (ff3, first ++ body ++ [Legend legend; Show])%list.

(** ** The probability layer *)

Definition sub2 (a b : list (list float)) : list (list float) :=
  map2 (map2 PrimFloat.sub) a b.

Definition abs2 (a : list (list float)) : list (list float) :=
  map (map abs) a.

(** [np.where(x > threshold, x, threshold)] on one entry. *)
Definition floor_at (threshold x : float) : float :=
  if PrimFloat.ltb threshold x then x else threshold.

Definition threshold_sd_default : float := 0.2.

(** [get_gaussian_params(found_functions, t, threshold_sd)]: mean, standard
    deviation (both of shape candidates x 1), weights, and the dictionary
    after the three [get_future_points] calls. *)
Definition get_gaussian_params (found_functions : dict) (t : float)
    (threshold_sd : float)
  : list (list float) * list (list float) * list float * dict :=
  let '(mean, ff1) := get_future_points found_functions [t] "" in
  let '(up, ff2) := get_future_points ff1 [t] "up" in
  let standard_deviation_up := abs2 (sub2 up mean) in
  let '(down, ff3) := get_future_points ff2 [t] "down" in
  let standard_deviation_down := abs2 (sub2 down mean) in
  let standard_deviation :=
    map2 (map2 np_maximum) standard_deviation_up standard_deviation_down in
  let standard_deviation := map (map (floor_at threshold_sd)) standard_deviation in
  let ones := repeat 1 (length ff3) in
  let weights := map (fun w => w / np_sum ones) ones in
  (mean, standard_deviation, weights, ff3).

Section Probability.

(** Python's [round(x)] (None when it raises, on NaN or an infinity). *)
Variable py_round : float -> option float.
(** [np.arange(start, stop, step)] (None when it raises). *)
Variable np_arange : float -> float -> float -> option (list float).
(** [stats.norm(mean, sd).cdf(x)] *)
Variable norm_cdf : float -> float -> float -> float.

Fixpoint zip3 {A B C : Type} (a : list A) (b : list B) (c : list C)
  : list (A * B * C) :=
  match a, b, c with
  | x :: a', y :: b', z :: c' => (x, y, z) :: zip3 a' b' c'
  | _, _, _ => []
  end.

(** Everything [probability_of_being_in_point] does after it has obtained
    [mean, standard_deviation, weights]; None stands for an exception. *)
Definition probability_from_gaussians
    (mean standard_deviation : list (list float)) (weights : list float)
    (step : float) (align_to_maximum : bool)
  : option (list float * list float) :=
  match np_min (concat mean), np_max (concat mean),
        np_max (concat standard_deviation) with
  | Some p_min, Some p_max, Some sd_max =>
      let s_max := 4 * sd_max in
      match py_round ((p_min - s_max) / step) with
      | None => None
      | Some r =>
          let p_min := r * step - step / 2 in
          let grid :=
            match np_arange p_min (p_max + s_max) step with
            | Some points => Some (points, step)
            | None =>
                let step := step * 10 in
                match np_arange (p_min - s_max) (p_max + s_max) step with
                | Some points => Some (points, step)
                | None => None
                end
            end in
          match grid with
          | None => None
          | Some (points, step) =>
              let points :=
                if (length points <? 3)%nat then
                  [p_min - s_max - step; p_min - s_max;
                   p_max + s_max; p_max + s_max + step]
                else points in
              let all_c :=
                fold_left
                  (fun all_c '(m, s, w) =>
                     map2 PrimFloat.add all_c
                       (map (fun x => norm_cdf (hd 0 m) (hd 0 s) x * w) points))
                  (zip3 mean standard_deviation weights)
                  (repeat 0 (length points)) in
              let probabilities :=
                map2 PrimFloat.sub (tl all_c) (removelast all_c) in
              let points_between := map (fun p => p - step / 2) (tl points) in
              if align_to_maximum then
                match np_max probabilities with
                | None => None
                | Some m =>
                    Some (map (fun p => p / m) probabilities, points_between)
                end
              else Some (probabilities, points_between)
          end
      end
  | _, _, _ => None
  end.

(** [probability_of_being_in_point(found_functions, t, step,
    align_to_maximum)]: its first statement is
    [get_gaussian_params(found_functions, t, step)]. *)
Definition probability_of_being_in_point (found_functions : dict)
    (t step : float) (align_to_maximum : bool)
  : option (list float * list float) * dict :=
  let '(mean, standard_deviation, weights, ff) :=
    get_gaussian_params found_functions t step in
  (probability_from_gaussians mean standard_deviation weights step
     align_to_maximum, ff).

End Probability.

(** Stand-ins for the three library calls, to run the layer on a
    sample: a [round] for values that are whole already, an [arange]
    that returns a grid of four points, and the CDF of a point mass. *)
Definition sample_round (x : float) : option float := Some x.

Definition sample_arange (start stop step : float) : option (list float) :=
  Some [start; start + step; start + step + step;
        start + step + step + step].

Definition sample_cdf (mean sd x : float) : float :=
  if PrimFloat.ltb x mean then 0 else 1.

(** ** Radius queries *)

(** [np.linalg.norm] of one row. *)
Definition norm (v : list float) : float :=
  PrimFloat.sqrt (np_sum (map (fun x => x * x) v)).

(** [np.where(flags)[0]]: the positions of the true entries. *)
Fixpoint where_true (start : nat) (flags : list bool) : list nat :=
  match flags with
  | [] => []
  | b :: r => if b then start :: where_true (S start) r
              else where_true (S start) r
  end.

(** [a[flags]]: the rows of [a] at the true entries. *)
Fixpoint select {A : Type} (flags : list bool) (a : list A) : list A :=
  match flags, a with
  | b :: r, x :: a' => if b then x :: select r a' else select r a'
  | _, _ => []
  end.

(** [find_points_in_radius(points, center, radius)]; [points] holds one
    row per point, each of the length of [center]. *)
Definition find_points_in_radius (points : list (list float))
    (center : list float) (radius : float) : list nat * list (list float) :=
  let radii := map (fun p => map abs (map2 PrimFloat.sub p center)) points in
  let distances := map norm radii in
  let inside := map (fun d => PrimFloat.ltb d radius) distances in
  (where_true 0 inside, select inside radii).

(** The Euclidean distance between a point and the centre, as the claim
    words it: the root of the summed squared coordinate differences. *)
Definition euclidean_distance (p center : list float) : float :=
  PrimFloat.sqrt
    (np_sum (map (fun d => d * d) (map2 PrimFloat.sub p center))).

(** ** Sample inputs *)

(** Modelled from the spec: [sum_of_the_squares_of_the_residuals] is
    defined in [set_of_math_functions.py], which is not among the sources;
    the spec calls the error of a fit its sum of squared residuals.  The
    general facts take the function as a parameter; this stand-in runs
    [find_functions] on the samples below. *)
Definition residual_sum (a0 a1 : list float) : float :=
  np_sum (map2 (fun a b => (a - b) * (a - b)) a0 a1).

(** Seventeen observation times and seventeen observations that are all
    zero; the least-squares polynomial of any degree for them is the zero
    polynomial, with zero covariance. *)
Definition times17 : list float :=
  [0; 1; 2; 3; 4; 5; 6; 7; 8; 9; 10; 11; 12; 13; 14; 15; 16].

Definition zero_points : list float := repeat 0 17.

Definition zero_fit (t points : list float) (deg : nat)
  : option (list float * list (list float)) :=
  Some (repeat 0 (S deg), repeat (repeat 0 (S deg)) (S deg)).

(** The observations [0, 1, 4] at times [0, 1, 2] and their least-squares
    fits of degree 0 (the mean) and degree 1 (the line 2t - 1/3), with the
    covariance matrices of those fits. *)
Definition parabola_times : list float := [0; 1; 2].
Definition parabola_points : list float := [0; 1; 4].

Definition parabola_fit (t points : list float) (deg : nat)
  : option (list float * list (list float)) :=
  match deg with
  | O => Some ([5 / 3], [[13 / 9]])
  | S O => Some ([2; - (1 / 3)], [[1 / 3; - (1 / 3)]; [- (1 / 3); 5 / 9]])
  | _ => None
  end.

(** The observations [0, 1, 0, 1] at the times [0, 0, 1, 1].  The fits of
    degree 0 and 1 are, to rounding, the constant 1/2; for degree 2 the
    three columns of the design matrix, [t^2], [t] and [1], hold two equal
    ones, the normal matrix is singular and [np.polyfit] raises
    [LinAlgError]. *)
Definition repeated_times : list float := [0; 0; 1; 1].
Definition repeated_points : list float := [0; 1; 0; 1].

Definition repeated_fit (t points : list float) (deg : nat)
  : option (list float * list (list float)) :=
  match deg with
  | O => Some ([0.5], [[1 / 12]])
  | S O => Some ([0; 0.5], [[0.5; - 0.25]; [- 0.25; 0.25]])
  | _ => None
  end.

(** A dictionary holding one constant candidate with coefficient 0.3 and
    standard deviation 0.1. *)
Definition sample_functions : dict :=
  [("polyfit_model0"%string,
    {| function := generate_poly_trajectory;
       function_params := [0.3];
       error := 0.02;
       standard_deviation := [0.1];
       covariance_matrix := [[0.01]] |})].

(** A dictionary holding one constant candidate that was fitted exactly:
    coefficient 1, standard deviation 0. *)
Definition exact_functions : dict :=
  [("polyfit_model0"%string,
    {| function := generate_poly_trajectory;
       function_params := [1];
       error := 0;
       standard_deviation := [0];
       covariance_matrix := [[0]] |})].

End Prediction.

(* ================================================================== *)
(** * moving_detection.py: numeric helpers on the rationals *)

Module Numeric.

Local Open Scope Q_scope.

Definition Qlt_bool (x y : Q) : bool := negb (Qle_bool y x).

(** [np.sum] of a flattened array. *)
Definition Qsum (xs : list Q) : Q := fold_right Qplus 0 xs.

(** Writing a float into an integer array truncates it towards zero. *)
Definition Qtrunc (x : Q) : Z := Z.quot (Qnum x) (Z.pos (Qden x)).

(** [m * 2^e] *)
Definition scale2 (m e : Z) : Q :=
  if (0 <=? e)%Z then inject_Z (m * 2 ^ e)
  else Qmake m (Z.to_pos (2 ^ (- e))).

(** The greatest [l] with [2^l <= n / d], for positive [n] and [d]. *)
Definition floor_log2 (n d : Z) : Z :=
  let l := (Z.log2 n - Z.log2 d)%Z in
  let below :=
    if (0 <=? l)%Z then (n <? d * 2 ^ l)%Z else (n * 2 ^ (- l) <? d)%Z in
  if below then (l - 1)%Z else l.

(** The result of a binary64 operation whose exact result is [x]: the
    nearest number with 53 significant bits and an exponent of at least
    -1074, ties going to the even one; [None] when that number lies beyond
    the largest finite binary64, where the program holds an infinity. *)
Definition round64 (x : Q) : option Q :=
  let n := Z.abs (Qnum x) in
  let d := Z.pos (Qden x) in
  if (n =? 0)%Z then Some 0
  else
    let e := Z.max (floor_log2 n d - 52) (-1074) in
    let a := if (0 <=? e)%Z then n else (n * 2 ^ (- e))%Z in
    let b := if (0 <=? e)%Z then (d * 2 ^ e)%Z else d in
    let q := (a / b)%Z in
    let r := (a mod b)%Z in
    let m :=
      if (2 * r <? b)%Z then q
      else if (b <? 2 * r)%Z then (q + 1)%Z
      else if Z.even q then q else (q + 1)%Z in
    if (2 ^ 1024 <=? m * 2 ^ e)%Z then None
    else Some (scale2 (Z.sgn (Qnum x) * m) e).

End Numeric.

(* ================================================================== *)
(** * moving_detection.py: region_growing *)

Module RegionGrowing.
Import Numeric.
Local Open Scope Q_scope.

(** A 2-D numpy array is a row-major buffer with its shape; [H] and [W]
    below are [current_depth.shape[0]] and [current_depth.shape[1]], shared
    by the mask, the seeds, [done] and every region mask. *)
Definition flat (W : Z) (i j : Z) : nat := Z.to_nat (i * W + j).

Definition get2 (W : Z) (a : list Q) (i j : Z) : Q := nth (flat W i j) a 0.

Definition set2 (W : Z) (a : list Q) (i j : Z) (v : Q) : list Q :=
  set_nth (flat W i j) v a.

(** [np.argmax] on the buffer: the first position of the greatest entry. *)
Fixpoint argmax_from (best_i : nat) (best : Q) (i : nat) (l : list Q) : nat :=
  match l with
  | [] => best_i
  | x :: r =>
      if Qlt_bool best x then argmax_from i x (S i) r
      else argmax_from best_i best (S i) r
  end.

Definition argmax (l : list Q) : nat :=
  match l with
  | [] => O
  | x :: r => argmax_from 0 x 1 r
  end.

(** [math.fabs(a - b) < depth_threshold]: the difference is rounded to
    binary64 before it is compared; an infinite difference is below no
    threshold. *)
Definition depth_close (a b depth_threshold : Q) : bool :=
  match round64 (a - b) with
  | Some d => Qlt_bool (Qabs d) depth_threshold
  | None => false
  end.

(** The three arrays the loops update together. *)
Record grow_state := mkGrow {
  seeds : list Q;
  done : list Q;
  mask : list Q
}.

Section Grow.

Variables H W : Z.
Variable current_depth : list Q.
Variable depth_threshold : Q.
Variable significant_number_of_points : Q.

(** The body of the two [for] loops for one candidate [(i, j)] around the
    dequeued pixel [ind]. *)
Definition visit (ind : Z * Z) (acc : list (Z * Z) * grow_state)
    (ij : Z * Z) : list (Z * Z) * grow_state :=
  let '(i, j) := ij in
  let '(q, st) := acc in
  if ((-1 <? i)%Z && (i <? H)%Z && ((-1 <? j)%Z && (j <? W)%Z))%bool then
    if (negb (Qeq_bool (get2 W (done st) i j) 1)
        && negb (Qle_bool 1 (get2 W current_depth i j)))%bool then
      if depth_close (get2 W current_depth i j)
           (get2 W current_depth (fst ind) (snd ind)) depth_threshold
      then (q ++ [(i, j)],
            {| seeds := set2 W (seeds st) i j 0;
               done := set2 W (done st) i j 1;
               mask := set2 W (mask st) i j 1 |})
      else acc
    else acc
  else acc.

(** [for i in range(ind[0]-1, ind[0]+2): for j in range(ind[1]-1, ind[1]+2)] *)
Definition window (ind : Z * Z) : list (Z * Z) :=
  let '(a, b) := ind in
  [(a - 1, b - 1); (a - 1, b); (a - 1, b + 1);
   (a, b - 1);     (a, b);     (a, b + 1);
   (a + 1, b - 1); (a + 1, b); (a + 1, b + 1)]%Z.

(** [while q: ind = q.popleft(); ...]; [fuel] bounds the number of
    iterations, None means it was used up. *)
Fixpoint grow (fuel : nat) (q : list (Z * Z)) (st : grow_state)
  : option grow_state :=
  match fuel with
  | O => None
  | S fuel' =>
      match q with
      | [] => Some st
      | ind :: q' =>
          let '(q'', st') := fold_left (visit ind) (window ind) (q', st) in
          grow fuel' q'' st'
      end
  end.

(** [while not np.sum(seeds) == 0: ...]; [fuel] bounds the iterations of
    this loop and [inner] those of each inner loop. *)
Fixpoint regions (inner fuel : nat) (seeds0 done0 : list Q)
    (masks : list (list Q)) : option (list (list Q)) :=
  match fuel with
  | O => None
  | S fuel' =>
      if Qeq_bool (Qsum seeds0) 0 then Some masks
      else
        let ind_i := (Z.of_nat (argmax seeds0) / W)%Z in
        let ind_j := (Z.of_nat (argmax seeds0) - ind_i * W)%Z in
        let mask0 := map (fun _ => 0) current_depth in
        let st :=
          {| seeds := set2 W seeds0 ind_i ind_j 0;
             done := set2 W done0 ind_i ind_j 1;
             mask := set2 W mask0 ind_i ind_j 1 |} in
        match grow inner [(ind_i, ind_j)] st with
        | None => None
        | Some st' =>
            let masks' :=
              if Qlt_bool significant_number_of_points (Qsum (mask st'))
              then (masks ++ [mask st'])%list else masks in
            regions inner fuel' (seeds st') (done st') masks'
        end
  end.

(** [region_growing(movement_mask, current_depth, depth_threshold,
    significant_number_of_points)] *)
Definition region_growing (fuel : nat) (movement_mask : list Q)
  : option (list (list Q)) :=
  let seeds0 := map2 Qmult movement_mask current_depth in
  let done0 := map (fun _ => 0) seeds0 in
  regions fuel fuel seeds0 done0 [].

End Grow.

(** The default [depth_threshold=0.05], as the binary64 that the literal
    denotes: 3602879701896397 / 2^56. *)
Definition depth_threshold_default : Q :=
  3602879701896397 # 72057594037927936.
Definition significant_default : Q := 100.

(** ** Notions the properties are stated with *)

(** A pixel of the frame. *)
Definition in_frame (H W : Z) (p : Z * Z) : Prop :=
  (0 <= fst p < H /\ 0 <= snd p < W)%Z.

Definition at_px (W : Z) (a : list Q) (p : Z * Z) : Q :=
  get2 W a (fst p) (snd p).

(** [n] lies in the 3 x 3 window around [p]. *)
Definition adjacent (p n : Z * Z) : Prop :=
  (Z.abs (fst n - fst p) <= 1 /\ Z.abs (snd n - snd p) <= 1)%Z.

(** Two pixels of [B] joined by a chain of adjacent pixels of [B]. *)
Inductive connected (B : list (Z * Z)) (p : Z * Z) : Z * Z -> Prop :=
| connected_here : In p B -> connected B p p
| connected_step (n r : Z * Z) :
    connected B p n -> In r B -> adjacent n r -> connected B p r.

(** The number of entries of an array that differ from [c]. *)
Definition count_ne (c : Q) (a : list Q) : nat :=
  length (filter (fun x => negb (Qeq_bool x c)) a).

(** The state after pixel [n] has been admitted to the region. *)
Definition push (W : Z) (st : grow_state) (n : Z * Z) : grow_state :=
  {| seeds := set2 W (seeds st) (fst n) (snd n) 0;
     done := set2 W (done st) (fst n) (snd n) 1;
     mask := set2 W (mask st) (fst n) (snd n) 1 |}.

(** The three tests a candidate [n] around [ind] has to pass. *)
Definition admits (H W : Z) (depth : list Q) (thr : Q) (st : grow_state)
    (ind n : Z * Z) : Prop :=
  in_frame H W n /\
  Qeq_bool (at_px W (done st) n) 1 = false /\
  Qle_bool 1 (at_px W depth n) = false /\
  depth_close (at_px W depth n) (at_px W depth ind) thr = true.

(** Around a region pixel [p], every candidate in [S] that passes the depth
    tests belongs to the region. *)
Definition closed_at (H W : Z) (depth : list Q) (thr : Q) (m : list Q)
    (p : Z * Z) (S : Z * Z -> Prop) : Prop :=
  forall n, S n -> in_frame H W n ->
    Qle_bool 1 (at_px W depth n) = false ->
    depth_close (at_px W depth n) (at_px W depth p) thr = true ->
    at_px W m n = 1.

(** The number of pixels of a blob, as a rational. *)
Definition size (B : list (Z * Z)) : Q := inject_Z (Z.of_nat (length B)).

(** A mask buffer that holds nothing but 0 and 1. *)
Definition binary_mask (m : list Q) : Prop :=
  forall k, nth k m 0 = 0 \/ nth k m 0 = 1.

(** No pixel is set in both masks. *)
Definition disjoint_masks (a b : list Q) : Prop :=
  forall k, nth k a 0 = 1 -> nth k b 0 = 0.

(** A 1 x 3 frame: two flagged pixels with a wall between them. *)
Definition wall_depth : list Q := [1 # 2; 1; 1 # 2].
Definition wall_mask : list Q := [1; 0; 1].

(** ** Sample inputs *)

(** A 1 x 101 strip: one pixel of depth 0.05 and a hundred pixels of depth
    2^-80 behind it. *)
Definition strip_depth : list Q :=
  depth_threshold_default :: repeat (Qmake 1 (2 ^ 80)) 100.

(** A frame of uniform depth 1/2. *)
Definition uniform_depth (n : nat) : list Q := repeat (1 # 2) n.

(** Every pixel flagged. *)
Definition all_flagged (n : nat) : list Q := repeat 1 n.

(** An 11 x 11 mask whose first five pixels of the top row are flagged. *)
Definition five_flagged : list Q := (repeat 1 5 ++ repeat 0 116)%list.

(** A 3 x 3 frame whose centre is flagged; every other pixel is out of
    range. *)
Definition lonely_mask : list Q := [0; 0; 0; 0; 1; 0; 0; 0; 0].
Definition lonely_depth : list Q :=
  [1; 1; 1; 1; 1 # 2; 1; 1; 1; 1].

End RegionGrowing.

(* ================================================================== *)
(** * moving_detection.py: images, the random tape, shared helpers *)

Module Image.
Import Numeric.
Local Open Scope Q_scope.

(** A 2-D numpy array (of numbers, of pixels, of sample banks) as its
    list of rows.  [None] stands for a raised exception throughout. *)
Definition image (A : Type) := list (list A).

Definition shape0 {A} (im : image A) : nat := length im.
Definition shape1 {A} (im : image A) : nat := length (hd [] im).

(** [im[i, j]] *)
Definition get_px {A} (im : image A) (i j : nat) : option A :=
  match nth_error im i with
  | Some row => nth_error row j
  | None => None
  end.

(** [im[i, j] = v] *)
Definition set_px {A} (im : image A) (i j : nat) (v : A) : option (image A) :=
  match nth_error im i with
  | Some row =>
      if (j <? length row)%nat then Some (set_nth i (set_nth j v row) im)
      else None
  | None => None
  end.

(** The pixels in the order of [for i in range(h): for j in range(w)]. *)
Definition pixels (h w : nat) : list (nat * nat) :=
  list_prod (seq 0 h) (seq 0 w).

(** A loop whose body may raise. *)
Fixpoint foldM {S X : Type} (f : S -> X -> option S) (xs : list X) (s : S)
  : option S :=
  match xs with
  | [] => Some s
  | x :: r =>
      match f s x with
      | Some s' => foldM f r s'
      | None => None
      end
  end.

(** [color_distance(current_pixel, sample_pixel)], for two pixels with
    the same number of channels, as a frame and the sample bank allocated
    for it have; what numpy's broadcasting makes of two pixels of
    different lengths is not modelled. *)
Definition color_distance (current_pixel sample_pixel : list Q) : Q :=
  fold_left (fun dist d => dist + d * d)
    (map2 Qminus current_pixel sample_pixel) 0.

(** ** Random draws

    The generators are read off a tape of raw draws; a function that
    draws returns the rest of the tape, and [None] when the tape runs
    out before it has returned. *)
Definition tape := list nat.

(** [time_factor_chance(chance_factor)]: true once in [chance_factor]. *)
Definition time_factor_chance (chance_factor : nat) (t : tape)
  : option (bool * tape) :=
  match t with
  | [] => None
  | d :: r =>
      if (chance_factor =? 0)%nat then None
      else Some ((d mod chance_factor =? 0)%nat, r)
  end.

(** [random.randrange(n)] *)
Definition randrange (n : nat) (t : tape) : option (nat * tape) :=
  match t with
  | [] => None
  | d :: r => if (n =? 0)%nat then None else Some ((d mod n)%nat, r)
  end.

(** [np.random.choice(area)] for one raw draw. *)
Definition choice (area : list Z) (d : nat) : Z :=
  nth (d mod length area) area 0%Z.

(** [get_random_neighbour(index, resolution, area)]: draw until the
    neighbour lies inside the picture. *)
Fixpoint get_random_neighbour (index resolution : Z) (area : list Z)
    (t : tape) : option (Z * tape) :=
  match t with
  | [] => None
  | d :: r =>
      match area with
      | [] => None
      | _ =>
          let neighbour_index := (index + choice area d)%Z in
          if ((neighbour_index <? 0) || (resolution <=? neighbour_index))%Z%bool
          then get_random_neighbour index resolution area r
          else Some (neighbour_index, r)
      end
  end.

(** [np.arange(-a, a + 1)] without 0. *)
Definition potential_neighbours_of (neighbourhood_area : nat) : list Z :=
  (map (fun k => (- Z.of_nat k)%Z) (rev (seq 1 neighbourhood_area))
   ++ map Z.of_nat (seq 1 neighbourhood_area))%list.

(** ** Notions the properties are stated with *)

(** A mask of the shape of an [h] x [w] frame. *)
Definition has_shape {A} (h w : nat) (m : image A) : Prop :=
  length m = h /\ Forall (fun row => length row = w) m.

(** Every entry of a mask satisfies [V]. *)
Definition all_entries {A} (V : A -> Prop) (m : image A) : Prop :=
  forall i j v, get_px m i j = Some v -> V v.

End Image.

(* ================================================================== *)
(** * moving_detection.py: ViBE *)

Module ViBE.
Import Numeric Image.
Local Open Scope Q_scope.

Record state := mkState {
  current_rgb : image (list Q);
  previous_rgb : image (list Q);
  background : image (list (list Q));
  mask : image Q;
  potential_neighbours : list Z;
  number_of_samples : nat;
  threshold_r : Q;
  threshold_lambda : Z;
  time_factor : nat
}.

Definition with_background (st : state) (bg : image (list (list Q))) : state :=
  mkState (current_rgb st) (previous_rgb st) bg (mask st)
    (potential_neighbours st) (number_of_samples st) (threshold_r st)
    (threshold_lambda st) (time_factor st).

Definition with_mask (st : state) (m : image Q) : state :=
  mkState (current_rgb st) (previous_rgb st) (background st) m
    (potential_neighbours st) (number_of_samples st) (threshold_r st)
    (threshold_lambda st) (time_factor st).

(** The [for k in range(number_of_samples)] loop of [in_background]. *)
Fixpoint in_background_loop (cur : list Q) (samples : list (list Q))
    (r : Q) (lambda : Z) (ks : list nat) (close_pixels : Z) : option bool :=
  match ks with
  | [] => Some false
  | k :: ks' =>
      match nth_error samples k with
      | None => None
      | Some sample =>
          let close_pixels :=
            if Qlt_bool (color_distance cur sample) r
            then (close_pixels + 1)%Z else close_pixels in
          if (lambda <=? close_pixels)%Z then Some true
          else in_background_loop cur samples r lambda ks' close_pixels
      end
  end.

Definition in_background (st : state) (i j : nat) : option bool :=
  match get_px (current_rgb st) i j, get_px (background st) i j with
  | Some cur, Some samples =>
      in_background_loop cur samples (threshold_r st) (threshold_lambda st)
        (seq 0 (number_of_samples st)) 0%Z
  | _, _ => None
  end.

(** [update_sample(goal_i, goal_j, set_i, set_j)] *)
Definition update_sample (st : state) (goal_i goal_j set_i set_j : nat)
    (t : tape) : option (state * tape) :=
  match randrange (number_of_samples st) t with
  | None => None
  | Some (k, t') =>
      match get_px (current_rgb st) set_i set_j,
            get_px (background st) goal_i goal_j with
      | Some c, Some samples =>
          if (k <? length samples)%nat then
            match set_px (background st) goal_i goal_j (set_nth k c samples) with
            | Some bg => Some (with_background st bg, t')
            | None => None
            end
          else None
      | _, _ => None
      end
  end.

(** The two stochastic updates that follow a background classification. *)
Definition refresh (st : state) (i j : nat) (t : tape)
  : option (state * tape) :=
  match time_factor_chance (time_factor st) t with
  | None => None
  | Some (own, t1) =>
      match (if own then update_sample st i j i j t1 else Some (st, t1)) with
      | None => None
      | Some (st1, t2) =>
          match time_factor_chance (time_factor st1) t2 with
          | None => None
          | Some (false, t3) => Some (st1, t3)
          | Some (true, t3) =>
              match get_random_neighbour (Z.of_nat i)
                      (Z.of_nat (shape0 (current_rgb st1)))
                      (potential_neighbours st1) t3 with
              | None => None
              | Some (neighbour_i, t4) =>
                  match get_random_neighbour (Z.of_nat j)
                          (Z.of_nat (shape1 (current_rgb st1)))
                          (potential_neighbours st1) t4 with
                  | None => None
                  | Some (neighbour_j, t5) =>
                      update_sample st1 (Z.to_nat neighbour_i)
                        (Z.to_nat neighbour_j) i j t5
                  end
              end
          end
      end
  end.

(** [set_pixel(i, j)] *)
Definition set_pixel (acc : state * tape) (ij : nat * nat)
  : option (state * tape) :=
  let '(st, t) := acc in
  let '(i, j) := ij in
  match in_background st i j with
  | None => None
  | Some true =>
      match set_px (mask st) i j 0 with
      | None => None
      | Some m => refresh (with_mask st m) i j t
      end
  | Some false =>
      match set_px (mask st) i j 1 with
      | None => None
      | Some m => Some (with_mask st m, t)
      end
  end.

(** [set_mask()] *)
Definition set_mask (st : state) (t : tape) : option (state * tape) :=
  foldM set_pixel
    (pixels (shape0 (current_rgb st)) (shape1 (current_rgb st))) (st, t).

(** ** Sample input: a 2 x 2 frame, two samples per pixel, and a mask
    still holding what [np.empty] left in it. *)
Definition sample_state : state :=
  {| current_rgb := [[[0; 0; 0]; [1; 1; 1]]; [[0; 0; 0]; [1; 1; 1]]];
     previous_rgb := [[[0; 0; 0]; [1; 1; 1]]; [[0; 0; 0]; [1; 1; 1]]];
     background :=
       [[[[0; 0; 0]; [0; 0; 0]]; [[0; 0; 0]; [0; 0; 0]]];
        [[[0; 0; 0]; [0; 0; 0]]; [[0; 0; 0]; [0; 0; 0]]]];
     mask := [[7; -3]; [1 # 2; 255]];
     potential_neighbours := potential_neighbours_of 4;
     number_of_samples := 2;
     threshold_r := 20 # 255;
     threshold_lambda := 2;
     time_factor := 16 |}.

Definition sample_tape : tape := [1; 0; 4; 4; 1; 0; 0; 5]%nat.

(** ** Construction

    [ViBE(rgb_im, ...)]: [np.empty] leaves the sample bank, the mask and
    the previous frame with whatever the allocator returns; those contents
    are arguments here.  The bank is allocated with three channels, so the
    frames are taken to have three as well. *)
Definition with_previous (st : state) (prev : image (list Q)) : state :=
  mkState (current_rgb st) prev (background st) (mask st)
    (potential_neighbours st) (number_of_samples st) (threshold_r st)
    (threshold_lambda st) (time_factor st).

(** [background[i, j, k] = current_rgb[rand_i, rand_j]] for one [k] of
    [range(1, number_of_samples)]. *)
Definition fill_sample (i j : nat) (acc : state * tape) (k : nat)
  : option (state * tape) :=
  let '(st, t) := acc in
  match get_random_neighbour (Z.of_nat i)
          (Z.of_nat (shape0 (current_rgb st))) (potential_neighbours st) t with
  | None => None
  | Some (rand_i, t1) =>
      match get_random_neighbour (Z.of_nat j)
              (Z.of_nat (shape1 (current_rgb st)))
              (potential_neighbours st) t1 with
      | None => None
      | Some (rand_j, t2) =>
          match get_px (current_rgb st) (Z.to_nat rand_i) (Z.to_nat rand_j),
                get_px (background st) i j with
          | Some c, Some samples =>
              if (k <? length samples)%nat then
                match set_px (background st) i j (set_nth k c samples) with
                | Some bg => Some (with_background st bg, t2)
                | None => None
                end
              else None
          | _, _ => None
          end
      end
  end.

(** The body of the two [for] loops of [initial_background]. *)
Definition fill_pixel (acc : state * tape) (ij : nat * nat)
  : option (state * tape) :=
  let '(st, t) := acc in
  let '(i, j) := ij in
  match get_px (current_rgb st) i j, get_px (background st) i j with
  | Some c, Some samples =>
      if (0 <? length samples)%nat then
        match set_px (background st) i j (set_nth 0 c samples) with
        | Some bg =>
            foldM (fill_sample i j) (seq 1 (number_of_samples st - 1))
              (with_background st bg, t)
        | None => None
        end
      else None
  | _, _ => None
  end.

(** [initial_background()] *)
Definition initial_background (st : state) (t : tape)
  : option (state * tape) :=
  let st := with_previous st (current_rgb st) in
  foldM fill_pixel
    (pixels (shape0 (current_rgb st)) (shape1 (previous_rgb st))) (st, t).

(** [ViBE(rgb_im, number_of_samples, threshold_lambda, threshold_r,
    time_factor, neighbourhood_area)] *)
Definition init (rgb_im : image (list Q)) (number_of_samples : nat)
    (threshold_lambda : Z) (threshold_r : Q) (time_factor : nat)
    (neighbourhood_area : nat)
    (empty_previous : image (list Q))
    (empty_background : image (list (list Q))) (empty_mask : image Q)
    (t : tape) : option (state * tape) :=
  initial_background
    {| current_rgb := rgb_im;
       previous_rgb := empty_previous;
       background := empty_background;
       mask := empty_mask;
       potential_neighbours := potential_neighbours_of neighbourhood_area;
       number_of_samples := number_of_samples;
       threshold_r := threshold_r;
       threshold_lambda := threshold_lambda;
       time_factor := time_factor |} t.

(** [current_rgb.setter] *)
Definition set_current_rgb (st : state) (rgb : image (list Q)) : state :=
  mkState rgb (current_rgb st) (background st) (mask st)
    (potential_neighbours st) (number_of_samples st) (threshold_r st)
    (threshold_lambda st) (time_factor st).

(** ** Notions the properties are stated with *)

(** The number of the first [n] samples of a bank that lie within
    [r] of the colour [cur]. *)
Definition close_samples (cur : list Q) (samples : list (list Q)) (r : Q)
    (n : nat) : nat :=
  length (filter (fun s => Qlt_bool (color_distance cur s) r)
            (firstn n samples)).

(** A sample bank of the shape [np.empty([h, w, n, 3])] gives it, as far
    as the loops look: [n] samples at every pixel. *)
Definition bank_shape (h w n : nat) (bg : image (list (list Q))) : Prop :=
  forall i j, (i < h)%nat -> (j < w)%nat ->
    exists samples, get_px bg i j = Some samples /\ length samples = n.

(** [s] is the colour of a pixel of the frame that lies in the
    neighbourhood of [(i, j)]. *)
Definition neighbour_colour (st : state) (i j : nat) (s : list Q) : Prop :=
  exists i' j',
    In (Z.of_nat i' - Z.of_nat i)%Z (potential_neighbours st) /\
    In (Z.of_nat j' - Z.of_nat j)%Z (potential_neighbours st) /\
    get_px (current_rgb st) i' j' = Some s.

(** A 3 x 3 frame, an allocated bank of two samples per pixel, and
    draws that pick a neighbour inside the frame for every pixel. *)
Definition small_frame : image (list Q) :=
  [[[0; 0; 0]; [1; 1; 1]; [2; 2; 2]];
   [[3; 3; 3]; [4; 4; 4]; [5; 5; 5]];
   [[6; 6; 6]; [7; 7; 7]; [8; 8; 8]]].

Definition small_bank : image (list (list Q)) :=
  repeat (repeat [[9; 9; 9]; [9; 9; 9]] 3) 3.

Definition small_state : state :=
  {| current_rgb := small_frame;
     previous_rgb := [];
     background := small_bank;
     mask := repeat (repeat 0 3) 3;
     potential_neighbours := potential_neighbours_of 1;
     number_of_samples := 2;
     threshold_r := 20 # 255;
     threshold_lambda := 2;
     time_factor := 16 |}.

Definition small_tape : tape :=
  [1; 1; 1; 0; 1; 0; 0; 1; 0; 0; 0; 0; 0; 1; 0; 0; 0; 0]%nat.

End ViBE.

(* ================================================================== *)
(** * moving_detection.py: DEVB *)

Module DEVB.
Import Numeric Image.
Local Open Scope Q_scope.

(** [depth_background] starts as the first depth frame itself; the model
    keeps it as an array of its own. *)
Record state := mkState {
  current_rgb : image (list Q);
  current_depth : image Q;
  previous_rgb : image (list Q);
  number_of_samples : nat;
  threshold_theta : Q;
  threshold_r : Q;
  threshold_lambda : Z;
  time_factor : nat;
  background : image (list (list Q));
  depth_background : image Q;
  mask : image Q;
  potential_neighbours : list Z
}.

Definition with_background (st : state) (bg : image (list (list Q))) : state :=
  mkState (current_rgb st) (current_depth st) (previous_rgb st)
    (number_of_samples st) (threshold_theta st) (threshold_r st)
    (threshold_lambda st) (time_factor st) bg (depth_background st)
    (mask st) (potential_neighbours st).

Definition with_depth_background (st : state) (d : image Q) : state :=
  mkState (current_rgb st) (current_depth st) (previous_rgb st)
    (number_of_samples st) (threshold_theta st) (threshold_r st)
    (threshold_lambda st) (time_factor st) (background st) d
    (mask st) (potential_neighbours st).

Definition with_mask (st : state) (m : image Q) : state :=
  mkState (current_rgb st) (current_depth st) (previous_rgb st)
    (number_of_samples st) (threshold_theta st) (threshold_r st)
    (threshold_lambda st) (time_factor st) (background st)
    (depth_background st) m (potential_neighbours st).

Definition in_background (st : state) (i j : nat) : option bool :=
  match get_px (current_rgb st) i j, get_px (background st) i j with
  | Some cur, Some samples =>
      ViBE.in_background_loop cur samples (threshold_r st)
        (threshold_lambda st) (seq 0 (number_of_samples st)) 0%Z
  | _, _ => None
  end.

Definition update_sample (st : state) (goal_i goal_j set_i set_j : nat)
    (t : tape) : option (state * tape) :=
  match randrange (number_of_samples st) t with
  | None => None
  | Some (k, t') =>
      match get_px (current_rgb st) set_i set_j,
            get_px (background st) goal_i goal_j with
      | Some c, Some samples =>
          if (k <? length samples)%nat then
            match set_px (background st) goal_i goal_j (set_nth k c samples) with
            | Some bg => Some (with_background st bg, t')
            | None => None
            end
          else None
      | _, _ => None
      end
  end.

(** [self.__depth_background[i, j] = self.__current_depth[i, j]] *)
Definition snap_depth (st : state) (i j : nat) : option state :=
  match get_px (current_depth st) i j with
  | None => None
  | Some d =>
      match set_px (depth_background st) i j d with
      | None => None
      | Some db => Some (with_depth_background st db)
      end
  end.

(** [if time_factor_chance(...): update_sample(i, j, i, j)] *)
Definition refresh_own (st : state) (i j : nat) (t : tape)
  : option (state * tape) :=
  match time_factor_chance (time_factor st) t with
  | None => None
  | Some (true, t1) => update_sample st i j i j t1
  | Some (false, t1) => Some (st, t1)
  end.

(** [if time_factor_chance(...): neighbour_i = ...; neighbour_j = ...;
    update_sample(neighbour_i, neighbour_j, i, j)], and whether the
    branch was taken. *)
Definition refresh_neighbour (st : state) (i j : nat) (t : tape)
  : option (state * tape * bool) :=
  match time_factor_chance (time_factor st) t with
  | None => None
  | Some (false, t1) => Some (st, t1, false)
  | Some (true, t1) =>
      match get_random_neighbour (Z.of_nat i)
              (Z.of_nat (shape0 (current_rgb st)))
              (potential_neighbours st) t1 with
      | None => None
      | Some (neighbour_i, t2) =>
          match get_random_neighbour (Z.of_nat j)
                  (Z.of_nat (shape1 (current_rgb st)))
                  (potential_neighbours st) t2 with
          | None => None
          | Some (neighbour_j, t3) =>
              match update_sample st (Z.to_nat neighbour_i)
                      (Z.to_nat neighbour_j) i j t3 with
              | None => None
              | Some (st', t4) => Some (st', t4, true)
              end
          end
      end
  end.

(** [set_pixel(i, j)] *)
Definition set_pixel (acc : state * tape) (ij : nat * nat)
  : option (state * tape) :=
  let '(st, t) := acc in
  let '(i, j) := ij in
  match in_background st i j with
  | None => None
  | Some true =>
      match set_px (mask st) i j 0 with
      | None => None
      | Some m =>
          match refresh_own (with_mask st m) i j t with
          | None => None
          | Some (st1, t1) =>
              match refresh_neighbour st1 i j t1 with
              | None => None
              | Some (st2, t2, true) =>
                  match snap_depth st2 i j with
                  | None => None
                  | Some st3 => Some (st3, t2)
                  end
              | Some (st2, t2, false) => Some (st2, t2)
              end
          end
      end
  | Some false =>
      match get_px (depth_background st) i j, get_px (current_depth st) i j with
      | Some db, Some d =>
          if Qlt_bool (threshold_theta st) (db - d) then
            match set_px (mask st) i j 1 with
            | None => None
            | Some m =>
                match refresh_own (with_mask st m) i j t with
                | None => None
                | Some (st1, t1) =>
                    match refresh_neighbour st1 i j t1 with
                    | None => None
                    | Some (st2, t2, _) =>
                        match snap_depth st2 i j with
                        | None => None
                        | Some st3 => Some (st3, t2)
                        end
                    end
                end
            end
          else
            match set_px (mask st) i j 0 with
            | None => None
            | Some m => Some (with_mask st m, t)
            end
      | _, _ => None
      end
  end.

(** [set_mask()] *)
Definition set_mask (st : state) (t : tape) : option (state * tape) :=
  foldM set_pixel
    (pixels (shape0 (current_rgb st)) (shape1 (current_rgb st))) (st, t).

(** [set_images(current_rgb, current_depth)] *)
Definition set_images (st : state) (rgb : image (list Q)) (depth : image Q)
  : state :=
  mkState rgb depth (current_rgb st)
    (number_of_samples st) (threshold_theta st) (threshold_r st)
    (threshold_lambda st) (time_factor st) (background st)
    (depth_background st) (mask st) (potential_neighbours st).

(** ** Sample input: the 2 x 2 frame of the ViBE sample, with depths. *)
Definition sample_state : state :=
  {| current_rgb := [[[0; 0; 0]; [1; 1; 1]]; [[0; 0; 0]; [1; 1; 1]]];
     current_depth := [[1 # 2; 1 # 4]; [1 # 2; 1 # 2]];
     previous_rgb := [[[0; 0; 0]; [1; 1; 1]]; [[0; 0; 0]; [1; 1; 1]]];
     number_of_samples := 2;
     threshold_theta := 3 # 255;
     threshold_r := 20 # 255;
     threshold_lambda := 2;
     time_factor := 16;
     background :=
       [[[[0; 0; 0]; [0; 0; 0]]; [[0; 0; 0]; [0; 0; 0]]];
        [[[0; 0; 0]; [0; 0; 0]]; [[0; 0; 0]; [0; 0; 0]]]];
     depth_background := [[1 # 2; 1 # 2]; [1 # 2; 1 # 2]];
     mask := [[7; -3]; [1 # 2; 255]];
     potential_neighbours := potential_neighbours_of 4 |}.

Definition sample_tape : tape := [1; 0; 4; 4; 1; 3; 5; 0; 0; 5]%nat.

(** The same detector as its constructor leaves it: [depth_background]
    is the first depth frame. *)
Definition first_state : state :=
  with_depth_background sample_state (current_depth sample_state).

End DEVB.

(* ================================================================== *)
(** * moving_detection.py: RGB_to_YUV and argsort *)

Module Colour.
Import Numeric Image.
Local Open Scope Q_scope.

(** [np.dot(rgb, m)] on one pixel, then [+= 128] on the two chroma
    channels, in exact arithmetic: the binary64 values the program holds
    can differ from these in the last place. *)
Definition yuv_of_pixel (rgb : list Q) : option (list Q) :=
  match rgb with
  | [r; g; b] =>
      Some [r * (299 # 1000) + g * (587 # 1000) + b * (114 # 1000);
            r * (-16874 # 100000) + g * (-33126 # 100000) + b * (5 # 10)
            + 128;
            r * (5 # 10) + g * (-41869 # 100000) + b * (-8131 # 100000)
            + 128]
  | _ => None
  end.

Fixpoint all_some {A} (l : list (option A)) : option (list A) :=
  match l with
  | [] => Some []
  | None :: _ => None
  | Some x :: r =>
      match all_some r with
      | Some r' => Some (x :: r')
      | None => None
      end
  end.

(** [RGB_to_YUV(rgb)] *)
Definition RGB_to_YUV (rgb : image (list Q)) : option (image (list Q)) :=
  all_some (map (fun row => all_some (map yuv_of_pixel row)) rgb).

(** [np.argsort(keys)] on a short array: insertion sort, stable. *)
Fixpoint insert_by (key : nat -> Q) (i : nat) (l : list nat) : list nat :=
  match l with
  | [] => [i]
  | j :: r =>
      if Qlt_bool (key i) (key j) then i :: j :: r
      else j :: insert_by key i r
  end.

Definition argsort (keys : list Q) : list nat :=
  fold_left (fun acc i => insert_by (fun k => nth k keys 0) i acc)
    (seq 0 (length keys)) [].

Fixpoint map3 {A B C D : Type} (f : A -> B -> C -> D) (a : list A)
    (b : list B) (c : list C) : list D :=
  match a, b, c with
  | x :: a', y :: b', z :: c' => f x y z :: map3 f a' b' c'
  | _, _, _ => []
  end.

(** [where(flag, new, old)] on one entry. *)
Definition pick {A} (flag : bool) (new old : A) : A :=
  if flag then new else old.

(** [np.bitwise_or.reduce] of a boolean array. *)
Definition any (flags : list bool) : bool := existsb (fun b => b) flags.

End Colour.

(* ================================================================== *)
(** * moving_detection.py: RGBD_MoG *)

Module RGBD_MoG.
Import Numeric Image Colour.
Local Open Scope Q_scope.

(** The per-pixel record.  [depth_observations] is an integer array:
    [np.where] builds it from integer rows. *)
Record Gaussian := mkGaussian {
  index : nat * nat;
  luminance_mean : list Q;
  color_mean : list (list Q);
  depth_mean : list Q;
  luminance_variance : list Q;
  color_variance : list Q;
  depth_variance : list Q;
  weight : list Q;
  ranking : list nat;
  depth_observations : list (Z * Z)
}.

Record state := mkState {
  number_of_gaussians : nat;
  learning_rate_alfa : Q;
  depth_reliability_ro : Q;
  matching_rate_beta : Q;
  luminance_min : Q;
  depth_threshold : Q;
  reliability_threshold : Q;
  height : nat;
  width : nat;
  current_yuv : image (list Q);
  current_depth : image Q;
  gaussians : list Gaussian;
  mask : image Q
}.

Definition with_frame (st : state) (yuv : image (list Q)) (depth : image Q)
  : state :=
  mkState (number_of_gaussians st) (learning_rate_alfa st)
    (depth_reliability_ro st) (matching_rate_beta st) (luminance_min st)
    (depth_threshold st) (reliability_threshold st) (height st) (width st)
    yuv depth (gaussians st) (mask st).

Definition with_gaussians_mask (st : state) (gs : list Gaussian)
    (m : image Q) : state :=
  mkState (number_of_gaussians st) (learning_rate_alfa st)
    (depth_reliability_ro st) (matching_rate_beta st) (luminance_min st)
    (depth_threshold st) (reliability_threshold st) (height st) (width st)
    (current_yuv st) (current_depth st) gs m.

(** [1] when the depth is a reading, [0] when it is the sentinel or more. *)
Definition valid_depth (depth_pixel : Q) : Q :=
  if Qlt_bool depth_pixel 255 then 1 else 0.

(** The Gaussian of pixel [(h, w)] as [initialization] builds it. *)
Definition initial_gaussian (n : nat) (h w : nat) (yuv : list Q) (d : Q)
  : Gaussian :=
  {| index := (h, w);
     luminance_mean := repeat (nth 0 yuv 0) n;
     color_mean := repeat (tl yuv) n;
     depth_mean := repeat d n;
     luminance_variance := repeat 1 n;
     color_variance := repeat 1 n;
     depth_variance := repeat 1 n;
     weight := repeat (1 / inject_Z (Z.of_nat n)) n;
     ranking := seq 0 n;
     depth_observations :=
       if Qeq_bool d 255 then repeat (0, 1)%Z 3 else repeat (1, 1)%Z 3 |}.

Definition initialization (n h w : nat) (yuv : image (list Q))
    (depth : image Q) : option (list Gaussian) :=
  all_some
    (map (fun '(i, j) =>
            match get_px yuv i j, get_px depth i j with
            | Some p, Some d => Some (initial_gaussian n i j p d)
            | _, _ => None
            end)
         (pixels h w)).

(** [RGBD_MoG(rgb_im, depth_im)] with the default parameters. *)
Definition init (rgb_im : image (list Q)) (depth_im : image Q) : option state :=
  match RGB_to_YUV rgb_im with
  | None => None
  | Some yuv =>
      let h := shape0 rgb_im in
      let w := shape1 rgb_im in
      match initialization 3 h w yuv depth_im with
      | None => None
      | Some gs =>
          Some {| number_of_gaussians := 3;
                  learning_rate_alfa := 25 # 1000;
                  depth_reliability_ro := 2 # 10;
                  matching_rate_beta := 25 # 10;
                  luminance_min := 16;
                  depth_threshold := 1 # 100;
                  reliability_threshold := 4 # 10;
                  height := h;
                  width := w;
                  current_yuv := yuv;
                  current_depth := depth_im;
                  gaussians := gs;
                  mask := map (map (fun _ => 0)) depth_im |}
      end
  end.

(** [set_ranking(gauss)] *)
Definition set_ranking (g : Gaussian) : Gaussian :=
  mkGaussian (index g) (luminance_mean g) (color_mean g) (depth_mean g)
    (luminance_variance g) (color_variance g) (depth_variance g) (weight g)
    (argsort (map2 (fun w v => - w / v) (weight g) (luminance_variance g)))
    (depth_observations g).

Definition ratio (o : Z * Z) : Q := inject_Z (fst o) / inject_Z (snd o).

Definition sq (x : Q) : Q := x * x.

(** [matching(gauss)] *)
Definition matching (st : state) (g : Gaussian) : option (list bool) :=
  match get_px (current_yuv st) (fst (index g)) (snd (index g)),
        get_px (current_depth st) (fst (index g)) (snd (index g)) with
  | Some (y :: uv), Some depth_pixel =>
      let beta := sq (matching_rate_beta st) in
      let depth_matching :=
        map3 (fun dm dv o =>
                (Qlt_bool (sq (depth_pixel - dm)) (beta * dv)
                 || (Qeq_bool depth_pixel 255
                     || Qlt_bool (ratio o) (depth_reliability_ro st)))%bool)
          (depth_mean g) (depth_variance g) (depth_observations g) in
      let color_condition_1 :=
        map (fun lm => (Qlt_bool (luminance_min st) lm
                        && Qlt_bool (luminance_min st) y)%bool)
          (luminance_mean g) in
      let color_condition_2 :=
        map2 (fun lm lv => Qlt_bool (sq (y - lm)) (beta * lv))
          (luminance_mean g) (luminance_variance g) in
      let color_condition_3 :=
        map2 (fun cm cv => Qlt_bool (sq (Qsum (map2 Qminus uv cm))) (beta * cv))
          (color_mean g) (color_variance g) in
      let color_matching :=
        map3 (fun c1 c2 c3 : bool => if c1 then (c2 || c3)%bool else c2)
          color_condition_1 color_condition_2 color_condition_3 in
      Some (map2 andb depth_matching color_matching)
  | _, _ => None
  end.

(** The branch of [update] taken when some component matches. *)
Definition update_matched (alfa : Q) (g : Gaussian) (mc : list bool)
    (y : Q) (uv : list Q) (depth_pixel : Q) (number_of_observations : Z)
  : Gaussian :=
  {| index := index g;
     luminance_mean :=
       map2 (fun m lm => pick m ((1 - alfa) * lm + alfa * y) lm)
         mc (luminance_mean g);
     color_mean :=
       map2 (fun m cm =>
               pick m (map2 (fun c x => (1 - alfa) * c + alfa * x) cm uv) cm)
         mc (color_mean g);
     depth_mean :=
       map2 (fun m dm => pick m ((1 - alfa) * dm + alfa * depth_pixel) dm)
         mc (depth_mean g);
     luminance_variance :=
       map3 (fun m lv lm => pick m ((1 - alfa) * lv + alfa * sq (y - lm)) lv)
         mc (luminance_variance g) (luminance_mean g);
     color_variance :=
       map3 (fun m cv cm =>
               pick m ((1 - alfa) * cv
                       + alfa * Qsum (map sq (map2 Qminus uv cm))) cv)
         mc (color_variance g) (color_mean g);
     depth_variance :=
       map3 (fun m dv dm =>
               pick m ((1 - alfa) * dv + alfa * sq (depth_pixel - dm)) dv)
         mc (depth_variance g) (depth_mean g);
     weight :=
       map2 (fun m w => pick m ((1 - alfa) * w + alfa * 1) w) mc (weight g);
     ranking := ranking g;
     depth_observations :=
       map2 (fun m o =>
               pick m
                 (Qtrunc ((1 - alfa) * inject_Z (fst o)
                          + alfa * valid_depth depth_pixel),
                  number_of_observations) o)
         mc (depth_observations g) |}.

(** The branch taken when none matches: the last-ranked component is
    replaced.  None when [ranking] is empty. *)
Definition update_replaced (alfa : Q) (g : Gaussian)
    (y : Q) (uv : list Q) (depth_pixel : Q) (number_of_observations : Z)
  : option Gaussian :=
  match rev (ranking g) with
  | [] => None
  | i :: _ =>
      Some
        {| index := index g;
           luminance_mean := set_nth i y (luminance_mean g);
           color_mean := set_nth i uv (color_mean g);
           depth_mean := set_nth i depth_pixel (depth_mean g);
           luminance_variance := set_nth i 1 (luminance_variance g);
           color_variance := set_nth i 1 (color_variance g);
           depth_variance := set_nth i 1 (depth_variance g);
           weight := set_nth i alfa (weight g);
           ranking := ranking g;
           depth_observations :=
             set_nth i (Qtrunc (alfa * valid_depth depth_pixel),
                        number_of_observations)
               (depth_observations g) |}
  end.

(** [update(gauss, matching_criterion, number_of_observations)] *)
Definition update (st : state) (g : Gaussian) (mc : list bool)
    (number_of_observations : Z) : option Gaussian :=
  match get_px (current_yuv st) (fst (index g)) (snd (index g)),
        get_px (current_depth st) (fst (index g)) (snd (index g)) with
  | Some (y :: uv), Some depth_pixel =>
      if any mc then
        Some (update_matched (learning_rate_alfa st) g mc y uv depth_pixel
                number_of_observations)
      else
        update_replaced (learning_rate_alfa st) g y uv depth_pixel
          number_of_observations
  | _, _ => None
  end.

(** The first loop of [pixel_mask]: components by descending depth mean. *)
Definition depth_reliability (st : state) (g : Gaussian) : list bool :=
  snd
    (fold_left
       (fun '(max_depth, rel) i =>
          if (Qlt_bool (depth_reliability_ro st)
                (ratio (nth i (depth_observations g) (0, 0)%Z))
              && (Qlt_bool (depth_threshold st) (nth i (weight g) 0)
                  && Qlt_bool (depth_threshold st) 255))%bool
          then
            if Qle_bool max_depth (nth i (depth_mean g) 0)
            then (nth i (depth_mean g) 0, set_nth i true rel)
            else (max_depth, rel)
          else (max_depth, rel))
       (argsort (map Qopp (depth_mean g)))
       (0, repeat false (number_of_gaussians st))).

(** [while threshold < reliability_threshold: threshold += w; mark]:
    the sum reached and whether the body ran; None when [fuel] passes
    were not enough. *)
Fixpoint accumulate (fuel : nat) (w limit threshold : Q) (ran : bool)
  : option (Q * bool) :=
  match fuel with
  | O => None
  | S fuel' =>
      if Qlt_bool threshold limit
      then accumulate fuel' w limit (threshold + w) true
      else Some (threshold, ran)
  end.

(** The second loop of [pixel_mask]. *)
Definition color_reliability (fuel : nat) (st : state) (g : Gaussian)
  : option (list bool) :=
  match
    foldM
      (fun '(threshold, rel) i =>
         match accumulate fuel (nth i (weight g) 0)
                 (reliability_threshold st) threshold false with
         | None => None
         | Some (threshold', ran) =>
             Some (threshold', if ran then set_nth i true rel else rel)
         end)
      (ranking g) (0, repeat false (number_of_gaussians st))
  with
  | None => None
  | Some (_, rel) => Some rel
  end.

(** [pixel_mask(gauss, matching_criterion)]: the value written to the
    mask at the pixel of [gauss]. *)
Definition pixel_value (fuel : nat) (st : state) (g : Gaussian)
    (mc : list bool) : option Q :=
  match color_reliability fuel st g,
        get_px (current_depth st) (fst (index g)) (snd (index g)),
        get_px (current_yuv st) (fst (index g)) (snd (index g)) with
  | Some color_rel, Some depth_pixel, Some (y :: _) =>
      let pixel_reliability :=
        (Qeq_bool depth_pixel 255 && Qle_bool y (luminance_min st))%bool in
      let background :=
        ((any (map2 andb mc color_rel)
          || any (map2 andb mc (depth_reliability st g)))
         || pixel_reliability)%bool in
      Some (if background then 0 else 255)
  | _, _, _ => None
  end.

(** One pass of the loop of [set_mask], for the Gaussian at position [k]
    of the list. *)
Definition classify (fuel : nat) (number_of_observations : Z) (st : state)
    (k : nat) : option state :=
  match nth_error (gaussians st) k with
  | None => None
  | Some g0 =>
      let g1 := set_ranking g0 in
      match matching st g1 with
      | None => None
      | Some mc =>
          match update st g1 mc number_of_observations with
          | None => None
          | Some g2 =>
              match pixel_value fuel st g2 mc with
              | None => None
              | Some v =>
                  match set_px (mask st) (fst (index g2)) (snd (index g2)) v with
                  | None => None
                  | Some m =>
                      Some (with_gaussians_mask st
                              (set_nth k g2 (gaussians st)) m)
                  end
              end
          end
      end
  end.

(** [set_mask(rgb_im, depth_im)]; [fuel] bounds the passes of the
    [while] loop of [pixel_mask]. *)
Definition set_mask (fuel : nat) (st : state) (rgb_im : image (list Q))
    (depth_im : image Q) : option state :=
  match RGB_to_YUV rgb_im with
  | None => None
  | Some yuv =>
      let st := with_frame st yuv depth_im in
      match gaussians st with
      | [] => None
      | g :: _ =>
          match depth_observations g with
          | [] => None
          | o :: _ =>
              let number_of_observations := (snd o + 1)%Z in
              foldM (classify fuel number_of_observations)
                (seq 0 (length (gaussians st))) st
          end
      end
  end.

(** ** Notions the properties are stated with *)

(** A mixture that [set_ranking] and [matching] can divide by: its
    variances are positive, and its weights lie between [wmin] and 1. *)
Definition healthy (wmin : Q) (g : Gaussian) : Prop :=
  Forall (fun v => 0 < v) (luminance_variance g) /\
  Forall (fun v => 0 < v) (color_variance g) /\
  Forall (fun v => 0 < v) (depth_variance g) /\
  Forall (fun w => wmin <= w <= 1) (weight g).

(** The arrays of a pixel's mixture all have [n] entries. *)
Definition sized (n : nat) (g : Gaussian) : Prop :=
  length (luminance_mean g) = n /\ length (color_mean g) = n /\
  length (depth_mean g) = n /\ length (luminance_variance g) = n /\
  length (color_variance g) = n /\ length (depth_variance g) = n /\
  length (weight g) = n /\ length (depth_observations g) = n.

(** The two frames and the mask have an entry at the pixel of every
    mixture. *)
Definition covers (st : state) (rgb_im : image (list Q))
    (depth_im : image Q) : Prop :=
  forall g, In g (gaussians st) ->
    (exists p, get_px rgb_im (fst (index g)) (snd (index g)) = Some p) /\
    (exists d, get_px depth_im (fst (index g)) (snd (index g)) = Some d) /\
    (exists v, get_px (mask st) (fst (index g)) (snd (index g)) = Some v).

(** ** Sample input: the detector for one dark pixel, as its constructor
    leaves it. *)
Definition sample_gaussian : Gaussian :=
  initial_gaussian 3 0 0 [0; 128; 128] (1 # 2).

Definition sample_state : state :=
  {| number_of_gaussians := 3;
     learning_rate_alfa := 25 # 1000;
     depth_reliability_ro := 2 # 10;
     matching_rate_beta := 25 # 10;
     luminance_min := 16;
     depth_threshold := 1 # 100;
     reliability_threshold := 4 # 10;
     height := 1;
     width := 1;
     current_yuv := [[[0; 128; 128]]];
     current_depth := [[1 # 2]];
     gaussians := [sample_gaussian];
     mask := [[0]] |}.

End RGBD_MoG.

(* ================================================================== *)
(** * moving_detection.py: Fast_RGBD_MoG *)

Module Fast_RGBD_MoG.
Import Numeric Image Colour.
Local Open Scope Q_scope.

(** The model arrays are indexed [pixel][channel][component]; the four
    channels are luminance, the two chroma channels and depth.
    [depth_observations] is indexed [pixel][0 or 1][component] and holds
    floats. *)
Record state := mkState {
  number_of_gaussians : nat;
  learning_rate_alfa : Q;
  depth_reliability_ro : Q;
  matching_rate_beta : Q;
  luminance_min : Q;
  depth_threshold : Q;
  reliability_threshold : Q;
  default_variance : Q;
  height : nat;
  width : nat;
  current_yuv : list (list Q);
  current_depth : list Q;
  mean : list (list (list Q));
  variance : list (list (list Q));
  weight : list (list (list Q));
  depth_observations : list (list (list Q))
}.

(** [np.argmin] along the component axis: the first least entry. *)
Definition argmin (l : list Q) : nat := RegionGrowing.argmax (map Qopp l).

Definition amax (l : list Q) : Q := nth (RegionGrowing.argmax l) l 0.

(** The assignment [a[:, 3, :] = values[:, np.newaxis]] into an array of
    [n] rows: [values] has [n] entries, or a single one that is given to
    every row; any other length raises [ValueError]. *)
Definition spread {A} (n : nat) (values : list A) : option (list A) :=
  if (length values =? n)%nat then Some values
  else
    match values with
    | [v] => Some (repeat v n)
    | _ => None
    end.

(** [Fast_RGBD_MoG(rgb_im, depth_im)] with the default parameters.  The
    model arrays have one row per pixel of [rgb_im]; the depth frame has
    to fit them. *)
Definition init (rgb_im : image (list Q)) (depth_im : image Q) : option state :=
  match RGB_to_YUV rgb_im with
  | None => None
  | Some yuv =>
      let n := 3%nat in
      let yuv_flat := concat yuv in
      match spread (length yuv_flat) (concat depth_im) with
      | None => None
      | Some depth_flat =>
      Some {| number_of_gaussians := n;
              learning_rate_alfa := 25 # 1000;
              depth_reliability_ro := 2 # 10;
              matching_rate_beta := 25 # 10;
              luminance_min := 16;
              depth_threshold := 1 # 100;
              reliability_threshold := 4 # 10;
              default_variance := 1;
              height := shape0 rgb_im;
              width := shape1 rgb_im;
              current_yuv := yuv_flat;
              current_depth := concat depth_im;
              mean :=
                map2 (fun p d => (map (fun c => repeat c n) p
                                  ++ [repeat d n])%list)
                  yuv_flat depth_flat;
              variance := map (fun _ => repeat (repeat 1 n) 4) depth_flat;
              weight :=
                map (fun _ => repeat (repeat (1 / inject_Z (Z.of_nat n)) n) 4)
                  depth_flat;
              depth_observations :=
                map (fun d => [repeat (if Qeq_bool d 255 then 0 else 1) n;
                               repeat 1 n])
                  depth_flat |}
      end
  end.

(** [sort()]: per pixel and channel, the component of least
    weight / variance. *)
Definition sort (st : state) : list (list nat) :=
  map2 (fun wp vp => map2 (fun w v => argmin (map2 Qdiv w v)) wp vp)
    (weight st) (variance st).

(** [np.c_[self.__current_yuv, self.__current_depth]] *)
Definition new_data (st : state) : list (list Q) :=
  map2 (fun p d => (p ++ [d])%list) (current_yuv st) (current_depth st).

(** Channel [c] of one pixel of a model array. *)
Definition channel (c : nat) (a : list (list Q)) : list Q := nth c a [].

(** [get_matching_criterion()] for one pixel. *)
Definition matching_pixel (st : state) (yuv : list Q) (d : Q)
    (m v o : list (list Q)) : list bool :=
  let beta := matching_rate_beta st * matching_rate_beta st in
  let y := nth 0 yuv 0 in
  let d_c_1 :=
    map2 (fun dm dv => Qlt_bool ((d - dm) * (d - dm)) (beta * dv))
      (channel 3 m) (channel 3 v) in
  let d_c_2 := Qeq_bool d 255 in
  let d_c_3 :=
    map2 (fun a b => Qlt_bool (a / b) (depth_reliability_ro st))
      (channel 0 o) (channel 1 o) in
  let depth_matching :=
    map2 (fun c1 c3 => (c1 || (d_c_2 || c3))%bool) d_c_1 d_c_3 in
  let c_c_1 :=
    map (fun lm => (Qlt_bool (luminance_min st) lm
                    && Qlt_bool (luminance_min st) y)%bool)
      (channel 0 m) in
  let c_c_2 :=
    map2 (fun lm lv => Qlt_bool (y - lm * lm) (beta * lv))
      (channel 0 m) (channel 0 v) in
  let c_c_3 :=
    map3 (fun um vm cv =>
            let s := (nth 1 yuv 0 - um) + (nth 2 yuv 0 - vm) in
            Qlt_bool (s * s) (beta * cv))
      (channel 1 m) (channel 2 m) (channel 1 v) in
  let color_matching :=
    map3 (fun c1 c2 c3 : bool => if c1 then (c2 || c3)%bool else c2)
      c_c_1 c_c_2 c_c_3 in
  map2 andb depth_matching color_matching.

Fixpoint map4 {A B C D E : Type} (f : A -> B -> C -> D -> E) (a : list A)
    (b : list B) (c : list C) (d : list D) : list E :=
  match a, b, c, d with
  | x :: a', y :: b', z :: c', w :: d' => f x y z w :: map4 f a' b' c' d'
  | _, _, _, _ => []
  end.

Fixpoint map5 {A B C D E F : Type} (f : A -> B -> C -> D -> E -> F)
    (a : list A) (b : list B) (c : list C) (d : list D) (e : list E)
  : list F :=
  match a, b, c, d, e with
  | x :: a', y :: b', z :: c', w :: d', u :: e' =>
      f x y z w u :: map5 f a' b' c' d' e'
  | _, _, _, _, _ => []
  end.

Definition get_matching_criterion (st : state) : list (list bool) :=
  map5 (matching_pixel st) (current_yuv st) (current_depth st)
    (mean st) (variance st) (depth_observations st).

(** [update_mean] / [new_mean], for one pixel. *)
Definition update_mean_pixel (alfa : Q) (mc : list bool) (data : list Q)
    (m : list (list Q)) : list (list Q) :=
  map2 (fun row x =>
          map2 (fun c old => pick c ((1 - alfa) * old + alfa * x) old) mc row)
    m data.

Definition new_mean_pixel (rank : list nat) (data : list Q)
    (m : list (list Q)) : list (list Q) :=
  map3 (fun row r x => set_nth r x row) m rank data.

(** [update_variance] / [new_variance]; [m] is the mean array as
    [update] has just left it. *)
Definition update_variance_pixel (alfa : Q) (mc : list bool) (data : list Q)
    (m v : list (list Q)) : list (list Q) :=
  map3 (fun vrow mrow x =>
          map3 (fun c old mu =>
                  pick c ((1 - alfa) * old + alfa * ((x - mu) * (x - mu))) old)
            mc vrow mrow)
    v m data.

Definition new_variance_pixel (dv : Q) (rank : list nat)
    (v : list (list Q)) : list (list Q) :=
  map2 (fun row r => set_nth r dv row) v rank.

Definition update_weight_pixel (alfa : Q) (mc : list bool)
    (w : list (list Q)) : list (list Q) :=
  map (fun row =>
         map2 (fun c old => pick c ((1 - alfa) * old + alfa) old) mc row) w.

Definition new_weight_pixel (alfa : Q) (rank : list nat)
    (w : list (list Q)) : list (list Q) :=
  map2 (fun row r => set_nth r alfa row) w rank.

(** [update_depth_observations]: every component, matching or not. *)
Definition update_depth_observations_pixel (alfa : Q) (d : Q)
    (o : list (list Q)) : list (list Q) :=
  [map (fun a => (1 - alfa) * a + alfa * RGBD_MoG.valid_depth d) (channel 0 o);
   map (fun b => b + 1) (channel 1 o)].

(** [new_depth_observations]: [new_r] pairs each pixel with column 1 of
    its first [ranking] row, the channel number 0; component 0 is the
    one rewritten. *)
Definition new_depth_observations_pixel (alfa : Q) (d : Q)
    (o : list (list Q)) : list (list Q) :=
  [set_nth 0 (alfa * RGBD_MoG.valid_depth d) (channel 0 o);
   set_nth 0 (nth 0 (channel 1 o) 0 + 1) (channel 1 o)].

Definition with_model (st : state) (m v w o : list (list (list Q))) : state :=
  mkState (number_of_gaussians st) (learning_rate_alfa st)
    (depth_reliability_ro st) (matching_rate_beta st) (luminance_min st)
    (depth_threshold st) (reliability_threshold st) (default_variance st)
    (height st) (width st) (current_yuv st) (current_depth st) m v w o.

(** [update(matching_criterion, ranking)] *)
Definition update (st : state) (mcs : list (list bool))
    (ranking : list (list nat)) : state :=
  let alfa := learning_rate_alfa st in
  let mean' :=
    map4 (fun mc rank data m =>
            pick (any mc) (update_mean_pixel alfa mc data m)
              (new_mean_pixel rank data m))
      mcs ranking (new_data st) (mean st) in
  let variance' :=
    map5 (fun mc rank data m v =>
            pick (any mc) (update_variance_pixel alfa mc data m v)
              (new_variance_pixel (default_variance st) rank v))
      mcs ranking (new_data st) mean' (variance st) in
  let weight' :=
    map3 (fun mc rank w =>
            pick (any mc) (update_weight_pixel alfa mc w)
              (new_weight_pixel alfa rank w))
      mcs ranking (weight st) in
  let depth_observations' :=
    map3 (fun mc d o =>
            pick (any mc) (update_depth_observations_pixel alfa d o)
              (new_depth_observations_pixel alfa d o))
      mcs (current_depth st) (depth_observations st) in
  with_model st mean' variance' weight' depth_observations'.

(** The [for g in range(number_of_gaussians)] loop of [set_mask]:
    greatest remaining weights are struck out (set to -1) while the sum
    has not passed the threshold. *)
Definition strike (limit : Q) (acc : list (list Q) * list Q)
  : list (list Q) * list Q :=
  let '(temp_weights, weights_sum) := acc in
  (map2 (fun tw s =>
           if Qle_bool s limit
           then set_nth (RegionGrowing.argmax tw) (-1) tw else tw)
     temp_weights weights_sum,
   map2 (fun tw s => if Qle_bool s limit then s + amax tw else s)
     temp_weights weights_sum).

Fixpoint strike_loop (passes : nat) (limit : Q)
    (acc : list (list Q) * list Q) : list (list Q) * list Q :=
  match passes with
  | O => acc
  | S passes' =>
      let acc' := strike limit acc in
      if forallb (fun s => Qlt_bool limit s) (snd acc') then acc'
      else strike_loop passes' limit acc'
  end.

(** [np.max(temp_depth, axis=1)] for one pixel. *)
Definition row_max (l : list Q) : Q := amax l.

(** [mask.reshape(height, width)]: the buffer cut into [h] rows of [w]
    entries; [ValueError] when it does not hold [h * w] entries. *)
Fixpoint rows_of {A} (h w : nat) (l : list A) : list (list A) :=
  match h with
  | O => []
  | S h' => firstn w l :: rows_of h' w (skipn w l)
  end.

Definition reshape {A} (h w : nat) (l : list A) : option (list (list A)) :=
  if (length l =? h * w)%nat then Some (rows_of h w l) else None.

(** [set_mask(matching_criterion)] *)
Definition set_mask (st : state) (mcs : list (list bool))
  : option (image Q) :=
  let depth_reliability :=
    map3 (fun o w m =>
            let condition :=
              map4 (fun a b wg dm =>
                      (Qlt_bool (depth_reliability_ro st) (a / b)
                       && (Qlt_bool (depth_threshold st) wg
                           && Qlt_bool dm 255))%bool)
                (channel 0 o) (channel 1 o) (channel 3 w) (channel 3 m) in
            let temp_depth :=
              map2 (fun (c : bool) dm => if c then dm else 0)
                condition (channel 3 m) in
            let max_temp_depth := row_max temp_depth in
            map2 (fun (c : bool) td => (c && Qeq_bool td max_temp_depth)%bool)
              condition temp_depth)
      (depth_observations st) (weight st) (mean st) in
  let temp_weights := map (channel 0) (weight st) in
  let weights_sum := map (fun _ => 0) temp_weights in
  let '(temp_weights, _) :=
    strike_loop (number_of_gaussians st) (reliability_threshold st)
      (temp_weights, weights_sum) in
  let color_reliability :=
    map (map (fun x => Qeq_bool x (-1))) temp_weights in
  let background :=
    map3 (fun mc cr dr =>
            (any (map2 andb mc cr) || any (map2 andb mc dr))%bool)
      mcs color_reliability depth_reliability in
  reshape (height st) (width st)
    (map (fun b : bool => if b then 0 else 255) background).

(** The frame handed to [get_mask] fits the model: it has as many
    colour pixels and as many depth readings as the model arrays have
    rows.  With any other frame the call raises [ValueError]: [np.c_]
    refuses a colour and a depth frame of different sizes, and [new_mean]
    assigns the four values of every pixel of the frame to the four
    channels of every pixel of the model. *)
Definition fits (st : state) (yuv : list (list Q)) (depth : list Q) : bool :=
  ((length yuv =? length (mean st))%nat
   && (length depth =? length (mean st))%nat)%bool.

(** [get_mask(rgb_im, depth_im)]: the mask returned and the state left.
    [np.argmin] over no component raises as well. *)
Definition get_mask (st : state) (rgb_im : image (list Q))
    (depth_im : image Q) : option (image Q * state) :=
  match RGB_to_YUV rgb_im with
  | None => None
  | Some yuv =>
      if (fits st (concat yuv) (concat depth_im)
          && negb (number_of_gaussians st =? 0)%nat)%bool then
        let st :=
          mkState (number_of_gaussians st) (learning_rate_alfa st)
            (depth_reliability_ro st) (matching_rate_beta st)
            (luminance_min st)
            (depth_threshold st) (reliability_threshold st)
            (default_variance st) (height st) (width st)
            (concat yuv) (concat depth_im)
            (mean st) (variance st) (weight st) (depth_observations st) in
        let ranking := sort st in
        let matching_criterion := get_matching_criterion st in
        let st' := update st matching_criterion ranking in
        match set_mask st' matching_criterion with
        | Some mask => Some (mask, st')
        | None => None
        end
      else None
  end.

(** ** Sample input: one dark pixel with a depth reading, then the same
    pixel a little brighter with no depth reading. *)
Definition first_rgb : image (list Q) := [[[0; 0; 0]]].
Definition first_depth : image Q := [[1 # 2]].
Definition second_rgb : image (list Q) := [[[10; 10; 10]]].
Definition second_depth : image Q := [[255]].

(** ** The two detectors run side by side: built from one first frame,
    then asked to classify one second frame. *)
Definition reference_mask (fuel : nat) (rgb0 : image (list Q))
    (depth0 : image Q) (rgb1 : image (list Q)) (depth1 : image Q)
  : option (image Q) :=
  match RGBD_MoG.init rgb0 depth0 with
  | None => None
  | Some st =>
      match RGBD_MoG.set_mask fuel st rgb1 depth1 with
      | None => None
      | Some st' => Some (RGBD_MoG.mask st')
      end
  end.

Definition fast_mask (rgb0 : image (list Q)) (depth0 : image Q)
    (rgb1 : image (list Q)) (depth1 : image Q) : option (image Q) :=
  match init rgb0 depth0 with
  | None => None
  | Some st =>
      match get_mask st rgb1 depth1 with
      | None => None
      | Some (m, _) => Some m
      end
  end.

End Fast_RGBD_MoG.

(* ================================================================== *)
(** * moving_detection.py: RGB_MoG *)

Module RGB_MoG.
Import Image Colour.
Local Open Scope float_scope.

(** [np.pi] *)
Definition pi : float := 3.141592653589793.

(** An integer taken into a float computation. *)
Definition float_of_nat (n : nat) : float :=
  of_uint63 (Uint63.of_Z (Z.of_nat n)).

Definition sq (x : float) : float := x * x.

(** [np.argsort] on a short array of floats: insertion sort, stable; a
    NaN key sorts behind every number. *)
Definition key_lt (a b : float) : bool :=
  (PrimFloat.ltb a b || (is_nan b && negb (is_nan a)))%bool.

Fixpoint insert_by (key : nat -> float) (i : nat) (l : list nat)
  : list nat :=
  match l with
  | [] => [i]
  | j :: r =>
      if key_lt (key i) (key j) then i :: j :: r else j :: insert_by key i r
  end.

Definition argsort (keys : list float) : list nat :=
  fold_left (fun acc i => insert_by (fun k => nth k keys 0) i acc)
    (seq 0 (length keys)) [].

Record Gaussian := mkGaussian {
  index : nat * nat;
  color_mean : list (list float);
  color_variance : list float;
  weight : list float;
  ranking : list nat
}.

Record state := mkState {
  number_of_gaussians : nat;
  learning_rate_alfa : float;
  height : nat;
  width : nat;
  current_rgb : image (list float);
  gaussians : list Gaussian;
  mask : image float
}.

(** The Gaussian of pixel [(h, w)] as [initialization] builds it. *)
Definition initial_gaussian (n h w : nat) (rgb : list float) : Gaussian :=
  {| index := (h, w);
     color_mean := repeat (map (fun c => 0 + c) rgb) n;
     color_variance := repeat 1 n;
     weight := repeat (1 / float_of_nat n) n;
     ranking := seq 0 n |}.

(** [RGB_MoG(rgb_im)] with the default parameters. *)
Definition init (rgb_im : image (list float)) : option state :=
  let h := shape0 rgb_im in
  let w := shape1 rgb_im in
  match
    all_some
      (map (fun '(i, j) =>
              match get_px rgb_im i j with
              | Some p => Some (initial_gaussian 2 i j p)
              | None => None
              end)
           (pixels h w))
  with
  | None => None
  | Some gs =>
      Some {| number_of_gaussians := 2;
              learning_rate_alfa := 0.025;
              height := h;
              width := w;
              current_rgb := rgb_im;
              gaussians := gs;
              mask := repeat (repeat 0 w) h |}
  end.

(** [set_raking(gauss)] *)
Definition set_raking (g : Gaussian) : Gaussian :=
  mkGaussian (index g) (color_mean g) (color_variance g) (weight g)
    (argsort (map2 (fun w v => - w / v) (weight g) (color_variance g))).

(** The current colour [cur] of a pixel is taken to have as many channels
    as the means of the pixel's mixture, which were built from a pixel of
    the first frame; what numpy's broadcasting makes of a frame with
    another number of channels is not modelled. *)

(** The squared error of [update]: [np.sum] over every component and
    channel. *)
Definition squared_error (cur : list float) (g : Gaussian) : float :=
  Prediction.np_sum
    (concat (map (fun mean_i => map sq (map2 PrimFloat.sub cur mean_i))
               (color_mean g))).

(** [update(gauss, matching_criterion, probability)].  [np.sqrt] of a
    negative number is NaN, so a matching component whose [learning_rate_ro]
    has grown beyond 1 can be left with a NaN variance. *)
Definition update (alfa : float) (cur : list float) (g : Gaussian)
    (matching_criterion : list bool) (density : list float) : Gaussian :=
  let learning_rate_ro := map (PrimFloat.mul alfa) density in
  let update_status := any matching_criterion in
  let update_mask :=
    map (fun m : bool =>
           if update_status then (if m then 1 else 0) else (-1))%Z
      matching_criterion in
  {| index := index g;
     color_mean :=
       map3 (fun um ro mean_i =>
               if (um =? 1)%Z
               then map2 (fun x c => (1 - ro) * x + ro * c) mean_i cur
               else cur)
         update_mask learning_rate_ro (color_mean g);
     color_variance :=
       map3 (fun um ro var_i =>
               if (um =? 1)%Z
               then PrimFloat.sqrt ((1 - ro) * (var_i * var_i)
                                    + ro * squared_error cur g)
               else 3 + 1)
         update_mask learning_rate_ro (color_variance g);
     weight :=
       map2 (fun um w =>
               if (um =? 1)%Z then (1 - alfa) * w + alfa
               else (1 - alfa) * w)
         update_mask (weight g);
     ranking := ranking g |}.

(** [make_mask(matching_criterion)] *)
Definition make_mask (matching_criterion : list bool) : float :=
  if any matching_criterion then 0 else 255.

Section Density.

(** [np.exp], and the C library's [pow] that Python's [**] on two floats
    calls: library functions. *)
Variable np_exp : float -> float.
Variable pow : float -> float -> float.

(** [probability(gauss)] for the current colour [cur] of its pixel:
    the matching criterion and the densities. *)
Definition dist_square (cur : list float) (g : Gaussian) : list float :=
  map2 (fun mean_i var_i =>
          Prediction.np_sum (map sq (map2 PrimFloat.sub cur mean_i)) / var_i)
    (color_mean g) (color_variance g).

Definition probability (cur : list float) (g : Gaussian)
  : list bool * list float :=
  let ds := dist_square cur g in
  let dist := map PrimFloat.sqrt ds in
  let density :=
    map2 (fun d var_i =>
            np_exp (d / (-2)) / (PrimFloat.sqrt (pow (2 * pi) 3) * var_i))
      ds (color_variance g) in
  let matching_criterion :=
    map2 (fun d var_i => PrimFloat.ltb d (2.5 * var_i))
      dist (color_variance g) in
  (matching_criterion, density).

(** One pass of the loop of [set_mask], for the Gaussian at position [k]
    of the list. *)
Definition classify (st : state) (k : nat) : option state :=
  match nth_error (gaussians st) k with
  | None => None
  | Some g0 =>
      let g1 := set_raking g0 in
      match get_px (current_rgb st) (fst (index g1)) (snd (index g1)) with
      | None => None
      | Some cur =>
          let '(matching_criterion, density) := probability cur g1 in
          let g2 :=
            update (learning_rate_alfa st) cur g1 matching_criterion density in
          match set_px (mask st) (fst (index g2)) (snd (index g2))
                  (make_mask matching_criterion) with
          | None => None
          | Some m =>
              Some (mkState (number_of_gaussians st) (learning_rate_alfa st)
                      (height st) (width st) (current_rgb st)
                      (set_nth k g2 (gaussians st)) m)
          end
      end
  end.

(** [set_mask(rgb_im)] *)
Definition set_mask (st : state) (rgb_im : image (list float))
  : option state :=
  foldM classify (seq 0 (length (gaussians st)))
    (mkState (number_of_gaussians st) (learning_rate_alfa st)
       (height st) (width st) rgb_im (gaussians st) (mask st)).

End Density.

(** ** Sample input: a black pixel seen by one component centred on
    black and one centred on (10, 0, 0). *)
Definition sample_colour : list float := [0; 0; 0].

Definition sample_gaussian : Gaussian :=
  {| index := (0%nat, 0%nat);
     color_mean := [[0; 0; 0]; [10; 0; 0]];
     color_variance := [1; 1];
     weight := [0.5; 0.5];
     ranking := [0%nat; 1%nat] |}.

(** Stand-ins for the two library functions, to run the detector on the
    sample: [exp] at the two arguments the sample asks for, 0 and -50,
    and the cube, the only power the detector takes. *)
Definition sample_exp (x : float) : float :=
  if PrimFloat.eqb x 0 then 1 else 1.9287498479639178e-22.

Definition sample_pow (x y : float) : float := x * x * x.

(** The sample pixel after [update]. *)
Definition sample_updated : Gaussian :=
  update 0.025 sample_colour sample_gaussian
    (fst (probability sample_exp sample_pow sample_colour sample_gaussian))
    (snd (probability sample_exp sample_pow sample_colour sample_gaussian)).

(** Two components centred on the current colour, one of which has seen
    its pixel unchanged for long: its variance has shrunk to 0.001, and
    its density at the mean has grown to about 63.5, so that
    [learning_rate_ro] is about 1.59. *)
Definition static_gaussian : Gaussian :=
  {| index := (0%nat, 0%nat);
     color_mean := [[0; 0; 0]; [0; 0; 0]];
     color_variance := [0.001; 4];
     weight := [0.9; 0.1];
     ranking := [0%nat; 1%nat] |}.

End RGB_MoG.

(* ================================================================== *)
(** * moving_prediction.py: MovementFunctions *)

Module Movement.
Import Prediction Colour.
Local Open Scope float_scope.

(** The arrays of a [MovementFunctions] object, one row per candidate;
    [number_of_gaussians] is left at its default, [len(functions)]. *)
Record MovementFunctions := mkMovement {
  functions_coefficients : list (list float);
  covariance_matrices : list (list (list float));
  standard_deviations : list (list float);
  weights : list float
}.

Definition zeros (n : nat) : list float := repeat 0 n.

(** [row[-len(v):] = v] on a row of [m] zeros: the values go to the
    right end.  None is numpy's broadcasting error: an empty [v] selects
    the whole row, and so does a [v] longer than the row. *)
Definition right_align (m : nat) (v : list float) : option (list float) :=
  let k := length v in
  if (k =? 0)%nat then (if (m =? 0)%nat then Some [] else None)
  else if (k <=? m)%nat then Some (zeros (m - k) ++ v)%list
  else if (k =? 1)%nat then Some (zeros m)
  else None.

(** [block[-n:, -n:] = covs] on an [m] x [m] block of zeros, for the
    square [n] x [n] matrices that [np.polyfit] returns, [1 <= n <= m]:
    the matrix goes to the lower right corner.  Other shapes are not
    modelled (None). *)
Definition corner (m : nat) (covs : list (list float))
  : option (list (list float)) :=
  let n := length covs in
  if ((1 <=? n)%nat && (n <=? m)%nat
      && forallb (fun r => (length r =? n)%nat) covs)%bool
  then Some (repeat (zeros m) (m - n)
             ++ map (fun r => zeros (m - n) ++ r) covs)%list
  else None.

(** [MovementFunctions(functions, max_number_of_params)]: the
    constructor and [extract_parameters]. *)
Definition extract_parameters (functions : dict)
    (max_number_of_params : nat) : option MovementFunctions :=
  match
    all_some (map (fun '(_, c) =>
                     right_align max_number_of_params (function_params c))
                functions),
    all_some (map (fun '(_, c) =>
                     corner max_number_of_params (covariance_matrix c))
                functions)
  with
  | Some coefficients, Some covs =>
      let ws := map (fun '(_, c) => 1 / error c) functions in
      Some {| functions_coefficients := coefficients;
              covariance_matrices := covs;
              standard_deviations :=
                map (fun m => map PrimFloat.sqrt (diag m)) covs;
              weights := map (fun w => w / np_sum ws) ws |}
  | _, _ => None
  end.

(** [get_solution(coefficients, sd, moment)] at one moment:
    [np.polyval] runs Horner's rule down the columns of [coefficients.T],
    that is along each candidate's row. *)
Definition get_solution (coefficients sd : list (list float))
    (moment : float) : list float * list float :=
  let means := map (fun c => polyval1 c moment) coefficients in
  let lower :=
    map2 (fun c s => polyval1 (map2 PrimFloat.sub c s) moment)
      coefficients sd in
  let upper :=
    map2 (fun c s => polyval1 (map2 PrimFloat.add c s) moment)
      coefficients sd in
  let min_deviation := map2 (fun m l => abs (m - l)) means lower in
  let max_deviation := map2 (fun m u => abs (m - u)) means upper in
  (means, map2 np_maximum min_deviation max_deviation).

(** [get_gaussians_parameters_at_time(moment)] *)
Definition get_gaussians_parameters_at_time (mf : MovementFunctions)
    (moment : float) : list float * list float * list float :=
  let '(means, standard_deviations) :=
    get_solution (functions_coefficients mf) (standard_deviations mf)
      moment in
  (means, standard_deviations, weights mf).

(** ** Sample input: the fits of degree 0 and 1 of the parabola
    observations, as [find_functions] stores them when its threshold
    lets both pass. *)
Definition parabola_functions : dict :=
  [("polyfit_model0"%string,
    {| function := generate_poly_trajectory;
       function_params := [5 / 3];
       error := 8.666666666666668;
       standard_deviation := [1.2018504251546631];
       covariance_matrix := [[13 / 9]] |});
   ("polyfit_model1"%string,
    {| function := generate_poly_trajectory;
       function_params := [2; - (1 / 3)];
       error := 0.6666666666666666;
       standard_deviation := [0.5773502691896257; 0.7453559924999299];
       covariance_matrix := [[1 / 3; - (1 / 3)]; [- (1 / 3); 5 / 9]] |})].

End Movement.

(* ================================================================== *)
(** * moving_detection.py: FrameDifference *)

Module FrameDifference.
Import Numeric Image.
Local Open Scope Q_scope.

(** [__mask] holds what [create_mask] last returned: the list of region
    masks, each a row-major buffer.  The previous frames start as
    [np.empty_like] leaves them. *)
Record state := mkState {
  current_depth : image Q;
  current_rgb : image (list Q);
  previous_depth : image Q;
  previous_rgb : image (list Q);
  mask : list (list Q);
  rgb_threshold : Q;
  depth_threshold : Q
}.

(** [FrameDifference(depth_im, rgb_im, rgb_threshold, depth_threshold)] *)
Definition init (depth_im : image Q) (rgb_im : image (list Q))
    (rgb_threshold depth_threshold : Q)
    (empty_depth : image Q) (empty_rgb : image (list Q)) : state :=
  {| current_depth := depth_im;
     current_rgb := rgb_im;
     previous_depth := empty_depth;
     previous_rgb := empty_rgb;
     mask := [];
     rgb_threshold := rgb_threshold;
     depth_threshold := depth_threshold |}.

Definition rgb_threshold_default : Q := 3 # 10.
Definition depth_threshold_default : Q := 5 # 100.

(** [current_depth.setter] *)
Definition set_current_depth (st : state) (d : image Q) : state :=
  mkState d (current_rgb st) (current_depth st) (previous_rgb st)
    (mask st) (rgb_threshold st) (depth_threshold st).

(** [current_rgb.setter] *)
Definition set_current_rgb (st : state) (rgb : image (list Q)) : state :=
  mkState (current_depth st) rgb (previous_depth st) (current_rgb st)
    (mask st) (rgb_threshold st) (depth_threshold st).

(** [rgb_subtraction[i, j, c]]; the two frames have one shape (numpy's
    broadcasting of frames of different shapes is not modelled). *)
Definition channel_difference (cur prev : list Q) (c : nat) : option Q :=
  match nth_error cur c, nth_error prev c with
  | Some x, Some y => Some (x - y)
  | _, _ => None
  end.

(** The test of [subtraction_mask] at pixel [(i, j)]; [and] looks at the
    depth only when the colour test has passed. *)
Definition moving (st : state) (i j : nat) : option bool :=
  match get_px (current_rgb st) i j, get_px (previous_rgb st) i j with
  | Some cur, Some prev =>
      match channel_difference cur prev 0, channel_difference cur prev 1,
            channel_difference cur prev 2 with
      | Some d0, Some d1, Some d2 =>
          if Qlt_bool (rgb_threshold st) (d0 * d0 + d1 * d1 + d2 * d2) then
            match get_px (previous_depth st) i j,
                  get_px (current_depth st) i j with
            | Some pd, Some cd => Some (Qlt_bool 0 (pd - cd))
            | _, _ => None
            end
          else Some false
      | _, _, _ => None
      end
  | _, _ => None
  end.

Definition subtraction_pixel (st : state) (m : image Q) (ij : nat * nat)
  : option (image Q) :=
  match moving st (fst ij) (snd ij) with
  | None => None
  | Some b => set_px m (fst ij) (snd ij) (if b then 1 else 0)
  end.

(** [subtraction_mask()] *)
Definition subtraction_mask (st : state) : option (image Q) :=
  foldM (subtraction_pixel st)
    (pixels (shape0 (current_rgb st)) (shape1 (current_rgb st)))
    (map (map (fun _ => 0)) (current_depth st)).

(** [create_mask(movement_mask)]: the regions returned and the state
    that keeps them; [fuel] bounds the loops of [region_growing]. *)
Definition create_mask (fuel : nat) (st : state) (movement_mask : image Q)
  : option (list (list Q) * state) :=
  match
    RegionGrowing.region_growing
      (Z.of_nat (shape0 (current_depth st)))
      (Z.of_nat (shape1 (current_depth st)))
      (concat (current_depth st)) (depth_threshold st)
      RegionGrowing.significant_default fuel (concat movement_mask)
  with
  | None => None
  | Some masks =>
      Some (masks,
            mkState (current_depth st) (current_rgb st) (previous_depth st)
              (previous_rgb st) masks (rgb_threshold st) (depth_threshold st))
  end.

(** ** Notions the properties are stated with *)

(** No pixel can be flagged: the depth frames are equal, or the colour
    frames are equal and the colour threshold is not negative. *)
Definition still (st : state) : Prop :=
  previous_depth st = current_depth st \/
  (previous_rgb st = current_rgb st /\ 0 <= rgb_threshold st).

(** ** Sample input: a 2 x 2 scene in which the pixel (0, 1) changes
    colour and comes closer, and (1, 0) changes colour and moves away. *)
Definition sample_state : state :=
  {| current_depth := [[1 # 2; 1 # 4]; [3 # 4; 1 # 2]];
     current_rgb := [[[0; 0; 0]; [1; 1; 1]]; [[1; 0; 0]; [0; 0; 0]]];
     previous_depth := [[1 # 2; 1 # 2]; [1 # 2; 1 # 2]];
     previous_rgb := [[[0; 0; 0]; [0; 0; 0]]; [[0; 0; 0]; [0; 0; 0]]];
     mask := [];
     rgb_threshold := rgb_threshold_default;
     depth_threshold := depth_threshold_default |}.

End FrameDifference.

(* ================================================================== *)
(** * Facts about the shared helpers *)

Lemma set_nth_length {A} (i : nat) (v : A) (l : list A) :
  length (set_nth i v l) = length l.
Proof.
  revert i; induction l as [|h t IH]; intros [|i]; simpl; auto.
Qed.

Lemma nth_error_set_nth_eq {A} (i : nat) (v : A) (l : list A) :
  (i < length l)%nat -> nth_error (set_nth i v l) i = Some v.
Proof.
  revert i; induction l as [|h t IH]; intros [|i] H; simpl in *;
    try lia; auto.
  apply IH; lia.
Qed.

Lemma nth_error_set_nth_neq {A} (i j : nat) (v : A) (l : list A) :
  i <> j -> nth_error (set_nth i v l) j = nth_error l j.
Proof.
  revert i j; induction l as [|h t IH]; intros [|i] [|j] H; simpl;
    try congruence; auto.
Qed.

(* ================================================================== *)
(** * Facts about moving_prediction.py *)

Module PredictionFacts.
Import Prediction.
Local Open Scope float_scope.

Lemma str_inj (i j : nat) : str i = str j -> i = j.
Proof.
  unfold str; intros H.
  assert (E : Some (Nat.to_uint i) = Some (Nat.to_uint j)).
  { rewrite <- !NilEmpty.usu. now rewrite H. }
  injection E as E.
  apply (f_equal Nat.of_uint) in E.
  now rewrite !DecimalNat.Unsigned.of_to in E.
Qed.

Lemma dict_get_set (d : dict) (k k' : string) (v : candidate) :
  dict_get (dict_set d k v) k' =
  if String.eqb k' k then Some v else dict_get d k'.
Proof.
  induction d as [|[k0 v0] r IH]; simpl.
  - reflexivity.
  - destruct (String.eqb k k0) eqn:E; simpl.
    + apply String.eqb_eq in E; subst k0.
      destruct (String.eqb k' k); reflexivity.
    + destruct (String.eqb k' k0) eqn:E0.
      * apply String.eqb_eq in E0; subst k0.
        destruct (String.eqb k' k) eqn:E1; [|reflexivity].
        apply String.eqb_eq in E1; subst k'.
        rewrite String.eqb_refl in E; discriminate.
      * exact IH.
Qed.

Lemma dict_set_length (d : dict) (k : string) (v : candidate) :
  (length (dict_set d k v) <= S (length d))%nat.
Proof.
  induction d as [|[k' v'] d IH]; simpl; [lia|].
  destruct (String.eqb k k'); simpl; lia.
Qed.

(** ** find_functions *)

Lemma model_name_inj (i j : nat) : model_name i = model_name j -> i = j.
Proof.
  unfold model_name; simpl; intros H.
  apply str_inj. congruence.
Qed.

Lemma in_degrees (points : list float) (i : nat) :
  In i (degrees points) <->
  (Z.of_nat i < Z.min (Z.of_nat (length points) - 1) 15)%Z.
Proof.
  unfold degrees, max_poly. rewrite in_seq.
  destruct (Z.leb_spec (Z.of_nat (length points) - 1) 15); lia.
Qed.

Section FittingFacts.

Variable polyfit :
  list float -> list float -> nat -> option (list float * list (list float)).
Variable ssr : list float -> list float -> float.
Variables t points : list float.
Variable thr : float.

Let step := find_functions_step polyfit ssr t points thr.
Let loop := find_functions_loop polyfit ssr t points thr.
Let ok := qualifies ssr t points thr.
Let cand := fit_candidate ssr t points.

(** One pass of the loop raises exactly when the fit does; otherwise it
    stores the candidate of a qualifying fit and nothing else. *)
Lemma find_functions_step_some (ff : dict) (i : nat)
    (fit : list float * list (list float)) :
  polyfit t points i = Some fit ->
  step ff i =
  Some (if ok fit then dict_set ff (model_name i) (cand fit) else ff).
Proof.
  intros E.
  unfold step, find_functions_step, trajectory_poly_fitting, ok, qualifies,
    cand, fit_candidate, generate_poly_trajectory.
  rewrite E. destruct fit as [popt pcov]. cbn [fst snd].
  destruct (existsb is_nan (polyval popt t)); cbn; [reflexivity|].
  destruct (PrimFloat.ltb _ thr); reflexivity.
Qed.

Lemma find_functions_step_none (ff : dict) (i : nat) :
  polyfit t points i = None -> step ff i = None.
Proof.
  intros E. unfold step, find_functions_step, trajectory_poly_fitting.
  now rewrite E.
Qed.

Lemma find_functions_loop_raises (ds : list nat) :
  forall ff : dict,
    loop ds ff = None <-> exists i, In i ds /\ polyfit t points i = None.
Proof.
  induction ds as [|d ds IH]; intros ff.
  - split; [discriminate|]. intros (i & [] & _).
  - cbn [loop find_functions_loop]. fold step. fold loop.
    destruct (polyfit t points d) as [fit|] eqn:E.
    + rewrite (find_functions_step_some ff d fit E), IH. split.
      * intros (i & Hi & Hn). exists i. split; [now right|exact Hn].
      * intros (i & [<-|Hi] & Hn); [congruence|]. exists i. auto.
    + rewrite (find_functions_step_none ff d E). split; [|reflexivity].
      intros _. exists d. split; [now left|exact E].
Qed.

Lemma overwritten_dec (ds : list nat) (key : string) :
  (exists j fit, In j ds /\ polyfit t points j = Some fit /\
                 ok fit = true /\ key = model_name j) \/
  (forall j fit, In j ds -> polyfit t points j = Some fit ->
                 ok fit = true -> key <> model_name j).
Proof.
  induction ds as [|d ds IH].
  - right; intros j fit [].
  - destruct IH as [(j & fit & Hj & Hf & Hq & Hk)|IH].
    + left; exists j, fit; simpl; auto.
    + destruct (polyfit t points d) as [fit|] eqn:E.
      * destruct (ok fit) eqn:Hd.
        -- destruct (String.eqb key (model_name d)) eqn:Ek.
           ++ apply String.eqb_eq in Ek. left; exists d, fit; simpl; auto.
           ++ apply String.eqb_neq in Ek.
              right; intros j fit' [<-|Hj] Hf Hq; eauto.
        -- right; intros j fit' [<-|Hj] Hf Hq; [congruence|eauto].
      * right; intros j fit' [<-|Hj] Hf Hq; [congruence|eauto].
Qed.

(** The loop invariant: an entry of the final dictionary was written by a
    qualifying fit of the loop, or was there before and never
    overwritten. *)
Lemma find_functions_loop_get (ds : list nat) (key : string)
    (c : candidate) :
  forall ff ff' : dict,
    loop ds ff = Some ff' ->
    (dict_get ff' key = Some c <->
     (exists i fit, In i ds /\ polyfit t points i = Some fit /\
                    key = model_name i /\ ok fit = true /\ c = cand fit) \/
     ((forall i fit, In i ds -> polyfit t points i = Some fit ->
                     ok fit = true -> key <> model_name i) /\
      dict_get ff key = Some c)).
Proof.
  induction ds as [|d ds IH]; intros ff ff' Hl.
  - injection Hl as <-. split.
    + intros H; right; split; [intros i fit []|exact H].
    + intros [(i & fit & [] & _)|[_ H]]; exact H.
  - cbn [loop find_functions_loop] in Hl. fold step in Hl. fold loop in Hl.
    destruct (polyfit t points d) as [fit|] eqn:E.
    2:{ rewrite (find_functions_step_none ff d E) in Hl. discriminate. }
    rewrite (find_functions_step_some ff d fit E) in Hl.
    rewrite (IH _ _ Hl).
    assert (G : dict_get (if ok fit then dict_set ff (model_name d) (cand fit)
                          else ff) key =
                if (ok fit && String.eqb key (model_name d))%bool
                then Some (cand fit) else dict_get ff key).
    { destruct (ok fit); [|reflexivity]. now rewrite dict_get_set. }
    rewrite G. split.
    + intros [(i & fit' & Hi & Hf & Hk & Hq & Hc)|[Hno Hget]].
      * left; exists i, fit'; simpl; auto.
      * destruct (ok fit) eqn:Hd; simpl in Hget.
        -- destruct (String.eqb key (model_name d)) eqn:Ek.
           ++ apply String.eqb_eq in Ek. injection Hget as <-.
              left; exists d, fit; simpl; auto.
           ++ apply String.eqb_neq in Ek.
              right; split; [|exact Hget].
              intros i fit' [<-|Hi] Hf Hq; eauto.
        -- right; split; [|exact Hget].
           intros i fit' [<-|Hi] Hf Hq; [congruence|eauto].
    + intros [(i & fit' & [<-|Hi] & Hf & Hk & Hq & Hc)|[Hno Hget]].
      * assert (fit' = fit) by congruence. subst fit'.
        destruct (overwritten_dec ds key)
          as [(j & fit' & Hj & Hfj & Hqj & Hkj)|Hno].
        -- left; exists j, fit'; repeat split; auto.
           assert (j = d) by (apply model_name_inj; congruence).
           subst j. congruence.
        -- right; split; [exact Hno|].
           rewrite Hq; simpl. subst key. rewrite String.eqb_refl.
           now subst c.
      * left; exists i, fit'; auto.
      * right; split; [intros i fit' Hi; apply Hno; now right|].
        destruct (ok fit) eqn:Hd; simpl; [|exact Hget].
        destruct (String.eqb key (model_name d)) eqn:Ek; [|exact Hget].
        apply String.eqb_eq in Ek.
        exfalso; apply (Hno d fit); simpl; auto.
Qed.

(** When no fit qualifies the dictionary is left as it was. *)
Lemma find_functions_loop_none (ds : list nat) :
  forall ff : dict,
    (forall i, In i ds ->
       exists fit, polyfit t points i = Some fit /\ ok fit = false) ->
    loop ds ff = Some ff.
Proof.
  induction ds as [|d ds IH]; intros ff H; [reflexivity|].
  cbn [loop find_functions_loop]. fold step. fold loop.
  destruct (H d (or_introl eq_refl)) as (fit & E & Hq).
  rewrite (find_functions_step_some ff d fit E), Hq.
  apply IH. intros i Hi. apply H. now right.
Qed.

(** A pass adds at most one entry. *)
Lemma find_functions_loop_length (ds : list nat) :
  forall ff ff' : dict,
    loop ds ff = Some ff' -> (length ff' <= length ds + length ff)%nat.
Proof.
  induction ds as [|d ds IH]; intros ff ff' Hl.
  - injection Hl as <-. simpl. lia.
  - cbn [loop find_functions_loop] in Hl. fold step in Hl. fold loop in Hl.
    destruct (polyfit t points d) as [fit|] eqn:E.
    2:{ rewrite (find_functions_step_none ff d E) in Hl. discriminate. }
    rewrite (find_functions_step_some ff d fit E) in Hl.
    apply IH in Hl. simpl.
    destruct (ok fit); [|lia].
    pose proof (dict_set_length ff (model_name d) (cand fit)). lia.
Qed.

Lemma find_functions_returns (found : dict) (printed : list string) :
  find_functions polyfit ssr t points thr = Some (found, printed) ->
  loop (degrees points) [] = Some found.
Proof.
  unfold find_functions. fold loop.
  destruct (loop (degrees points) []) as [[|e ff]|]; intros H;
    [| |discriminate]; now injection H as <- <-.
Qed.

End FittingFacts.






(** ** get_future_points and the plotting helper *)


(** C3 (the code breaks it): plotting the candidate with coefficient 0.3
    and standard deviation 0.1 leaves its stored coefficient at
    0.30000000000000004; the 'up' call adds the deviation to the stored
    array, the 'down' call subtracts it again, and the two roundings do
    not cancel. *)
Theorem show_found_functions_changes_params :
  map (fun e => function_params (snd e)) sample_functions = [[0.3]] /\
  map (fun e => function_params (snd e))
    (fst (show_found_functions_with_deviation sample_functions
            [0; 1] [0.2; 0.4] [0; 1; 2] [0.3; 0.3; 0.3]))
  = [[0.30000000000000004]] /\
  PrimFloat.eqb 0.30000000000000004 0.3 = false /\
  map (fun e => function_params (snd e))
    (snd (get_future_points sample_functions [0; 1; 2] "up"))
  = [[0.4]].
Proof.
  vm_compute. repeat split; reflexivity.
Qed.

(** ** The probability layer *)

Lemma floor_at_ge (thr x : float) :
  floor_at thr x = thr \/ PrimFloat.ltb thr (floor_at thr x) = true.
Proof.
  unfold floor_at. destruct (PrimFloat.ltb thr x) eqn:E; auto.
Qed.

Lemma get_gaussian_params_floor (ff : dict) (t thr : float) :
  Forall (Forall (fun s => s = thr \/ PrimFloat.ltb thr s = true))
    (snd (fst (fst (get_gaussian_params ff t thr)))).
Proof.
  unfold get_gaussian_params.
  destruct (get_future_points ff [t] "") as [mean ff1].
  destruct (get_future_points ff1 [t] "up") as [up ff2].
  destruct (get_future_points ff2 [t] "down") as [down ff3].
  simpl.
  apply Forall_forall. intros row Hrow.
  apply in_map_iff in Hrow. destruct Hrow as (r0 & <- & _).
  apply Forall_forall. intros s Hs.
  apply in_map_iff in Hs. destruct Hs as (s0 & <- & _).
  apply floor_at_ge.
Qed.

(** C7 (as the code has it): the floor under the standard deviations is
    the threshold handed to [get_gaussian_params], and
    [probability_of_being_in_point] hands it its grid step: every standard
    deviation it builds the grid from equals [step] or lies above it.  The
    floor is 0.2 only where [get_gaussian_params] runs with its default. *)
Theorem probability_sd_floor_is_step
    (py_round : float -> option float)
    (np_arange : float -> float -> float -> option (list float))
    (norm_cdf : float -> float -> float -> float)
    (ff : dict) (t step : float) (align_to_maximum : bool) :
  exists (mean sd : list (list float)) (weights : list float) (ff' : dict),
    get_gaussian_params ff t step = (mean, sd, weights, ff') /\
    probability_of_being_in_point py_round np_arange norm_cdf ff t step
      align_to_maximum
    = (probability_from_gaussians py_round np_arange norm_cdf mean sd weights
         step align_to_maximum, ff') /\
    Forall (Forall (fun s => s = step \/ PrimFloat.ltb step s = true)) sd /\
    Forall (Forall (fun s => s = threshold_sd_default \/
                             PrimFloat.ltb threshold_sd_default s = true))
      (snd (fst (fst (get_gaussian_params ff t threshold_sd_default)))).
Proof.
  pose proof (get_gaussian_params_floor ff t step) as H.
  unfold probability_of_being_in_point.
  destruct (get_gaussian_params ff t step) as [[[mean sd] weights] ff'].
  exists mean, sd, weights, ff'. simpl in H.
  repeat split; auto using get_gaussian_params_floor.
Qed.

(** C7 (the claim as worded fails): for the exactly fitted constant
    candidate and the default grid step 0.1, the standard deviation that
    [probability_of_being_in_point] obtains is 0.1, below 0.2. *)
Lemma probability_sd_below_fifth :
  exists (mean sd : list (list float)) (weights : list float) (ff' : dict),
    get_gaussian_params exact_functions 0 0.1 = (mean, sd, weights, ff') /\
    (forall py_round np_arange norm_cdf align_to_maximum,
       probability_of_being_in_point py_round np_arange norm_cdf
         exact_functions 0 0.1 align_to_maximum
       = (probability_from_gaussians py_round np_arange norm_cdf mean sd
            weights 0.1 align_to_maximum, ff')) /\
    sd = [[0.1]] /\
    PrimFloat.ltb 0.1 threshold_sd_default = true.
Proof.
  eexists _, _, _, _. split; [vm_compute; reflexivity|].
  split; [|split; reflexivity].
  intros; reflexivity.
Qed.

(** ** Radius queries *)

(** Squaring forgets the sign, on binary64 as on the reals. *)
Lemma abs_square (x : float) : abs x * abs x = x * x.
Proof.
  apply Prim2SF_inj. rewrite !mul_spec, abs_spec.
  destruct (Prim2SF x) as [sg|sg| |sg m e]; simpl; try reflexivity;
    unfold SF64mul, SFmul; destruct sg; reflexivity.
Qed.

Lemma norm_abs (v : list float) :
  norm (map abs v) = PrimFloat.sqrt (np_sum (map (fun d => d * d) v)).
Proof.
  unfold norm. rewrite map_map. do 2 f_equal.
  apply map_ext. intros x; apply abs_square.
Qed.

Lemma where_true_in (flags : list bool) (start i : nat) :
  In i (where_true start flags) <->
  exists j, i = (start + j)%nat /\ nth_error flags j = Some true.
Proof.
  revert start; induction flags as [|b r IH]; intros start; simpl.
  - split; [intros []|intros (j & _ & H); destruct j; discriminate].
  - assert (R : In i (where_true (S start) r) <->
                exists j, i = (start + S j)%nat /\ nth_error r j = Some true).
    { rewrite IH. split; intros (j & -> & H); exists j; split; auto; lia. }
    destruct b; simpl; rewrite R; split.
    + intros [<-|(j & -> & H)].
      * exists 0%nat; split; [lia|reflexivity].
      * exists (S j); auto.
    + intros ([|j] & -> & H); [left; lia|right; exists j; auto].
    + intros (j & -> & H); exists (S j); auto.
    + intros ([|j] & -> & H); [discriminate|exists j; auto].
Qed.

Lemma where_true_select {A} (flags : list bool) (a : list A)
    (start k i : nat) :
  length a = length flags ->
  nth_error (where_true start flags) k = Some i ->
  exists j, i = (start + j)%nat /\ nth_error flags j = Some true /\
            nth_error (select flags a) k = nth_error a j /\
            (j < length a)%nat.
Proof.
  revert a start k; induction flags as [|b r IH]; intros a start k Hlen Hk.
  - destruct k; discriminate.
  - destruct a as [|x a']; [discriminate|]. simpl in Hlen.
    injection Hlen as Hlen. simpl in Hk.
    destruct b.
    + destruct k as [|k]; simpl in Hk.
      * injection Hk as <-. exists 0%nat; simpl.
        repeat split; auto; lia.
      * destruct (IH a' (S start) k Hlen Hk) as (j & -> & Hf & Hs & Hj).
        exists (S j); simpl; repeat split; auto; lia.
    + destruct (IH a' (S start) k Hlen Hk) as (j & -> & Hf & Hs & Hj).
      exists (S j); simpl; repeat split; auto; lia.
Qed.

Lemma where_true_select_length {A} (flags : list bool) (a : list A)
    (start : nat) :
  length a = length flags ->
  length (where_true start flags) = length (select flags a).
Proof.
  revert a start; induction flags as [|b r IH]; intros a start Hlen.
  - reflexivity.
  - destruct a as [|x a']; [discriminate|]. injection Hlen as Hlen.
    simpl. destruct b; simpl; auto.
Qed.

(** What [find_points_in_radius] returns: the indices are exactly those
    of the points whose Euclidean distance to the centre is below the
    radius, and the vector returned with each is the component-wise
    absolute value of point - centre. *)
Lemma find_points_in_radius_spec (points : list (list float))
    (center : list float) (radius : float) :
  (forall i : nat,
     In i (fst (find_points_in_radius points center radius)) <->
     exists p, nth_error points i = Some p /\
               PrimFloat.ltb (euclidean_distance p center) radius = true) /\
  (forall k i : nat,
     nth_error (fst (find_points_in_radius points center radius)) k = Some i ->
     exists p, nth_error points i = Some p /\
               nth_error (snd (find_points_in_radius points center radius)) k
               = Some (map abs (map2 PrimFloat.sub p center))) /\
  length (fst (find_points_in_radius points center radius))
  = length (snd (find_points_in_radius points center radius)).
Proof.
  unfold find_points_in_radius; simpl.
  rewrite !map_map.
  set (flags := map _ points).
  assert (F : forall j, nth_error flags j =
     option_map (fun p => PrimFloat.ltb (euclidean_distance p center) radius)
       (nth_error points j)).
  { intros j. unfold flags. rewrite nth_error_map.
    destruct (nth_error points j) as [p|]; simpl; [|reflexivity].
    now rewrite norm_abs. }
  assert (L : length (map (fun p => map abs (map2 PrimFloat.sub p center))
                        points) = length flags).
  { unfold flags. now rewrite !length_map. }
  repeat split.
  - rewrite where_true_in. intros (j & -> & Hj). simpl.
    rewrite F in Hj. destruct (nth_error points j) as [p|]; [|discriminate].
    exists p. simpl in Hj. split; congruence.
  - intros (p & Hp & Hd). rewrite where_true_in. exists i. split; [lia|].
    rewrite F, Hp. simpl. now rewrite Hd.
  - intros k i Hk.
    destruct (where_true_select _ _ _ _ _ L Hk) as (j & -> & Hf & Hs & Hj).
    simpl. rewrite Hs, nth_error_map.
    rewrite F in Hf. destruct (nth_error points j) as [p|]; [|discriminate].
    exists p. split; reflexivity.
  - apply where_true_select_length. exact L.
Qed.

(** C5 (the code breaks it): for the point (0,0,0), centre (1,0,0) and
    radius 2 the index 0 is returned, as it should be, but the vector
    returned with it is (1,0,0), while point - centre is (-1,0,0): the
    absolute value taken before the norm is returned in place of the
    difference. *)
Theorem find_points_in_radius_unsigned :
  find_points_in_radius [[0; 0; 0]] [1; 0; 0] 2 = ([0%nat], [[1; 0; 0]]) /\
  map2 PrimFloat.sub [0; 0; 0] [1; 0; 0] = [-1; 0; 0] /\
  PrimFloat.eqb 1 (-1) = false.
Proof.
  vm_compute. repeat split; reflexivity.
Qed.

End PredictionFacts.

(* ================================================================== *)
(** * Facts about the numeric helpers *)

Module NumericFacts.
Import Numeric.
Import Lqa.
Local Open Scope Q_scope.

Lemma Qlt_bool_iff (x y : Q) : Qlt_bool x y = true <-> x < y.
Proof.
  unfold Qlt_bool. rewrite negb_true_iff.
  destruct (Qle_bool y x) eqn:E.
  - apply Qle_bool_iff in E. split; [discriminate|].
    intros L. exfalso. apply (Qlt_not_le _ _ L E).
  - split; [intros _|reflexivity].
    apply Qnot_le_lt. intros L. apply Qle_bool_iff in L. congruence.
Qed.

Lemma Qeq_bool_false (x y : Q) : Qeq_bool x y = false <-> ~ x == y.
Proof.
  split.
  - intros E L. apply Qeq_bool_iff in L. congruence.
  - intros L. destruct (Qeq_bool x y) eqn:E; [|reflexivity].
    apply Qeq_bool_iff in E. contradiction.
Qed.

Lemma nth_set_nth {A} (k m : nat) (v d : A) (a : list A) :
  nth k (set_nth m v a) d =
  if (Nat.eqb k m && Nat.ltb m (length a))%bool then v else nth k a d.
Proof.
  revert k m; induction a as [|h t IH]; intros k m.
  - simpl. rewrite andb_false_r. destruct k; reflexivity.
  - destruct m as [|m], k as [|k]; simpl; try reflexivity.
    rewrite IH. reflexivity.
Qed.

Lemma nth_set_nth_same {A} (m : nat) (v d : A) (a : list A) :
  (m < length a)%nat -> nth m (set_nth m v a) d = v.
Proof.
  intros L. rewrite nth_set_nth, Nat.eqb_refl.
  apply Nat.ltb_lt in L. now rewrite L.
Qed.

Lemma nth_set_nth_other {A} (k m : nat) (v d : A) (a : list A) :
  k <> m -> nth k (set_nth m v a) d = nth k a d.
Proof.
  intros L. rewrite nth_set_nth.
  apply Nat.eqb_neq in L. now rewrite L.
Qed.

Lemma Qsum_cons (h : Q) (t : list Q) : Qsum (h :: t) = h + Qsum t.
Proof. reflexivity. Qed.

(** Summing after one entry was overwritten. *)
Lemma Qsum_set_nth (m : nat) (v : Q) (a : list Q) :
  (m < length a)%nat ->
  Qsum (set_nth m v a) == Qsum a - nth m a 0 + v.
Proof.
  revert m; induction a as [|h t IH]; intros m L; simpl in L; [lia|].
  destruct m as [|m]; cbn [set_nth nth]; rewrite !Qsum_cons.
  - ring.
  - rewrite IH by lia. ring.
Qed.

Lemma Qsum_nonneg (a : list Q) :
  (forall x, In x a -> 0 <= x) -> 0 <= Qsum a.
Proof.
  induction a as [|h t IH]; intros Hn.
  - apply Qle_refl.
  - rewrite Qsum_cons.
    assert (0 <= h) by (apply Hn; now left).
    assert (0 <= Qsum t) by (apply IH; intros x Hx; apply Hn; now right).
    lra.
Qed.

Lemma Qsum_all_zero (a : list Q) :
  (forall x, In x a -> x == 0) -> Qsum a == 0.
Proof.
  induction a as [|h t IH]; intros Hn; [reflexivity|].
  rewrite Qsum_cons.
  rewrite (Hn h) by now left.
  rewrite IH; [ring|]. intros x Hx; apply Hn; now right.
Qed.

(** A sum of non-negative entries that is not zero has a positive entry. *)
Lemma Qsum_positive_entry (a : list Q) :
  (forall x, In x a -> 0 <= x) -> ~ Qsum a == 0 ->
  exists x, In x a /\ 0 < x.
Proof.
  induction a as [|h t IH]; intros Hn Hs; [|rewrite Qsum_cons in Hs].
  - exfalso; apply Hs; reflexivity.
  - destruct (Qlt_le_dec 0 h) as [Hh|Hh].
    + exists h; split; [now left|exact Hh].
    + assert (E : h == 0).
      { apply Qle_antisym; [exact Hh|apply Hn; now left]. }
      destruct IH as (x & Hx & Hpos).
      * intros x Hx; apply Hn; now right.
      * intros Ht. apply Hs. rewrite E, Ht. ring.
      * exists x; split; [now right|exact Hpos].
Qed.

End NumericFacts.

(* ================================================================== *)
(** * Facts about region_growing *)

Module RegionGrowingFacts.
Import Numeric NumericFacts RegionGrowing.
Import Lqa.
Local Open Scope Q_scope.

(** ** Counting entries *)

Lemma count_ne_le (c : Q) (a : list Q) : (count_ne c a <= length a)%nat.
Proof. unfold count_ne. apply filter_length_le. Qed.

Lemma count_ne_set (c : Q) (m : nat) (a : list Q) :
  (m < length a)%nat -> Qeq_bool (nth m a 0) c = false ->
  S (count_ne c (set_nth m c a)) = count_ne c a.
Proof.
  unfold count_ne.
  revert m; induction a as [|h t IH]; intros m L E; simpl in L; [lia|].
  destruct m as [|m]; simpl in *.
  - rewrite E. simpl. rewrite Qeq_bool_refl. reflexivity.
  - destruct (Qeq_bool h c); simpl; rewrite <- (IH m) by (auto; lia);
      reflexivity.
Qed.

(** Entries that only ever fall to zero: the count of non-zero ones
    cannot grow. *)
Lemma count_ne_shrinks (s s' : list Q) :
  length s' = length s ->
  (forall k, nth k s' 0 = nth k s 0 \/ nth k s' 0 = 0) ->
  (count_ne 0 s' <= count_ne 0 s)%nat.
Proof.
  unfold count_ne.
  revert s'; induction s as [|h t IH]; intros [|h' t'] L Hk;
    try discriminate; simpl; [lia|].
  injection L as L.
  assert (IH' := IH t' L (fun k => Hk (S k))).
  destruct (Hk 0%nat) as [E|E]; simpl in E; subst h'.
  - destruct (Qeq_bool h 0); simpl; lia.
  - simpl. destruct (Qeq_bool h 0); simpl; lia.
Qed.

(** ** argmax *)

Lemma argmax_from_spec (l : list Q) (best_i : nat) (best : Q) (i : nat) :
  exists v, best <= v /\ (forall x, In x l -> x <= v) /\
    ((argmax_from best_i best i l = best_i /\ v = best) \/
     (exists k, argmax_from best_i best i l = (i + k)%nat /\
                (k < length l)%nat /\ nth k l 0 = v)).
Proof.
  revert best_i best i; induction l as [|x r IH]; intros best_i best i.
  - exists best. simpl. split; [apply Qle_refl|].
    split; [intros x []|left; auto].
  - simpl. destruct (Qlt_bool best x) eqn:E.
    + apply Qlt_bool_iff in E.
      destruct (IH i x (S i)) as (v & Hv & Hall & Hr).
      exists v. split; [lra|]. split.
      * intros y [<-|Hy]; auto.
      * right. destruct Hr as [[Hr ->]|(k & Hr & Hk & Hn)].
        -- exists 0%nat. rewrite Hr. repeat split; auto; lia.
        -- exists (S k). rewrite Hr. repeat split; auto; lia.
    + assert (Hx : x <= best).
      { destruct (Qlt_le_dec best x) as [L|L]; [|exact L].
        apply Qlt_bool_iff in L. congruence. }
      destruct (IH best_i best (S i)) as (v & Hv & Hall & Hr).
      exists v. split; [exact Hv|]. split.
      * intros y [<-|Hy]; [lra|auto].
      * destruct Hr as [[Hr ->]|(k & Hr & Hk & Hn)]; [left; auto|].
        right. exists (S k). rewrite Hr. repeat split; auto; lia.
Qed.

Lemma argmax_spec (l : list Q) :
  l <> [] ->
  (argmax l < length l)%nat /\
  forall x, In x l -> x <= nth (argmax l) l 0.
Proof.
  destruct l as [|h t]; [congruence|intros _].
  unfold argmax.
  destruct (argmax_from_spec t 0 h 1) as (v & Hv & Hall & Hr).
  destruct Hr as [[-> ->]|(k & -> & Hk & Hn)]; simpl.
  - split; [lia|]. intros x [<-|Hx]; [apply Qle_refl|auto].
  - split; [lia|]. rewrite Hn. intros x [<-|Hx]; auto.
Qed.

(** ** Pixels and buffer positions *)

Section Frame.

Variables H W : Z.
Hypothesis Hnonneg : (0 <= H)%Z.
Hypothesis Wnonneg : (0 <= W)%Z.

Lemma flat_lt (p : Z * Z) :
  in_frame H W p -> (flat W (fst p) (snd p) < Z.to_nat (H * W))%nat.
Proof using Hnonneg Wnonneg.
  unfold in_frame, flat. intros [Hi Hj].
  apply Z2Nat.inj_lt; nia.
Qed.

Lemma flat_inj (p n : Z * Z) :
  in_frame H W p -> in_frame H W n ->
  flat W (fst p) (snd p) = flat W (fst n) (snd n) -> p = n.
Proof using Hnonneg Wnonneg.
  unfold in_frame, flat. destruct p as [i j], n as [i' j']; simpl.
  intros [Hi Hj] [Hi' Hj'] E.
  apply Z2Nat.inj in E; try nia.
  assert (i = i') by nia. subst i'.
  assert (j = j') by nia. now subst j'.
Qed.

Lemma in_frame_test (i j : Z) :
  ((-1 <? i)%Z && (i <? H)%Z && ((-1 <? j)%Z && (j <? W)%Z))%bool = true
  <-> in_frame H W (i, j).
Proof.
  unfold in_frame; simpl.
  rewrite !andb_true_iff, !Z.ltb_lt. lia.
Qed.

(** A buffer position is a pixel: the row and column the code derives
    from [np.argmax]. *)
Lemma unflat (k : nat) :
  (k < Z.to_nat (H * W))%nat ->
  let i := (Z.of_nat k / W)%Z in
  let j := (Z.of_nat k - i * W)%Z in
  in_frame H W (i, j) /\ flat W i j = k.
Proof using Hnonneg Wnonneg.
  intros L i j.
  assert (Wpos : (0 < W)%Z) by nia.
  assert (Hk : (Z.of_nat k < H * W)%Z) by lia.
  assert (Hd := Z.div_mod (Z.of_nat k) W ltac:(lia)).
  assert (Hm := Z.mod_pos_bound (Z.of_nat k) W Wpos).
  assert (Hi0 : (0 <= i)%Z) by (apply Z.div_pos; lia).
  assert (Hj : j = (Z.of_nat k mod W)%Z) by (unfold j, i; lia).
  assert (Hi1 : (i < H)%Z) by (unfold i; apply Z.div_lt_upper_bound; lia).
  unfold in_frame, flat; simpl. split; [lia|].
  replace (i * W + j)%Z with (Z.of_nat k) by (unfold j; lia).
  apply Nat2Z.id.
Qed.

Lemma at_set2 (a : list Q) (n p : Z * Z) (v : Q) :
  in_frame H W n -> in_frame H W p -> length a = Z.to_nat (H * W) ->
  at_px W (set2 W a (fst n) (snd n) v) p = v /\ p = n \/
  at_px W (set2 W a (fst n) (snd n) v) p = at_px W a p /\ p <> n.
Proof using Hnonneg Wnonneg.
  intros Hn Hp La. unfold at_px, get2, set2.
  rewrite nth_set_nth.
  destruct (Nat.eqb_spec (flat W (fst p) (snd p)) (flat W (fst n) (snd n)))
    as [E|E]; simpl.
  - assert (L : (flat W (fst n) (snd n) <? length a)%nat = true).
    { apply Nat.ltb_lt. rewrite La. now apply flat_lt. }
    rewrite L. left. split; [reflexivity|]. now apply flat_inj.
  - right. split; [reflexivity|]. intros ->. now apply E.
Qed.

End Frame.

(** ** The inner loop, one candidate at a time *)

Section GrowLoop.

Variables H W : Z.
Hypothesis Hnonneg : (0 <= H)%Z.
Hypothesis Wnonneg : (0 <= W)%Z.
Variable depth : list Q.
Variable thr : Q.

Let N := Z.to_nat (H * W).
Let visit := visit H W depth thr.
Let grow := grow H W depth thr.
Let admits := admits H W depth thr.

Lemma visit_cases (ind n : Z * Z) (q : list (Z * Z)) (st : grow_state) :
  (admits st ind n /\ visit ind (q, st) n = ((q ++ [n])%list, push W st n)) \/
  (~ admits st ind n /\ visit ind (q, st) n = (q, st)).
Proof using Hnonneg Wnonneg.
  unfold visit, RegionGrowing.visit, admits, RegionGrowing.admits.
  destruct n as [i j]. unfold at_px; cbn [fst snd].
  destruct ((-1 <? i)%Z && (i <? H)%Z && ((-1 <? j)%Z && (j <? W)%Z))%bool
    eqn:Ef.
  - apply in_frame_test in Ef.
    destruct (Qeq_bool (get2 W (done st) i j) 1) eqn:Ed; cbn [negb andb].
    + right. split; [|reflexivity]. intros (_ & C & _). discriminate.
    + destruct (Qle_bool 1 (get2 W depth i j)) eqn:Er; cbn [negb andb].
      * right. split; [|reflexivity]. intros (_ & _ & C & _). discriminate.
      * destruct (depth_close _ _ thr) eqn:Et.
        -- left.
           split; [|reflexivity]. repeat split; auto; apply Ef.
        -- right. split; [|reflexivity]. intros (_ & _ & _ & C).
           congruence.
  - right. split; [|reflexivity]. intros (C & _).
    apply in_frame_test in C. congruence.
Qed.

(** Induction over the 3 x 3 window: [P seen acc] says what holds once the
    candidates [seen] have been looked at. *)
Lemma fold_visit_ind (P : list (Z * Z) -> list (Z * Z) * grow_state -> Prop)
    (ind : Z * Z) :
  (forall seen q st n, P seen (q, st) -> admits st ind n ->
     P (seen ++ [n])%list ((q ++ [n])%list, push W st n)) ->
  (forall seen q st n, P seen (q, st) -> ~ admits st ind n ->
     P (seen ++ [n])%list (q, st)) ->
  forall l seen acc, P seen acc ->
    P (seen ++ l)%list (fold_left (visit ind) l acc).
Proof using Hnonneg Wnonneg.
  intros Hadm Hskip l; induction l as [|n l IH]; intros seen [q st] HP.
  - now rewrite app_nil_r.
  - simpl. replace (seen ++ n :: l)%list with ((seen ++ [n]) ++ l)%list
      by (rewrite <- app_assoc; reflexivity).
    apply IH.
    destruct (visit_cases ind n q st) as [[Ha ->]|[Ha ->]]; auto.
Qed.

(** Induction over the inner loop. *)
Lemma grow_ind (I : list (Z * Z) -> grow_state -> Prop)
    (J : Z * Z -> list (Z * Z) -> list (Z * Z) * grow_state -> Prop) :
  (forall ind q st, I (ind :: q) st -> J ind [] (q, st)) ->
  (forall ind seen q st n, J ind seen (q, st) -> admits st ind n ->
     J ind (seen ++ [n])%list ((q ++ [n])%list, push W st n)) ->
  (forall ind seen q st n, J ind seen (q, st) -> ~ admits st ind n ->
     J ind (seen ++ [n])%list (q, st)) ->
  (forall ind q st, J ind (window ind) (q, st) -> I q st) ->
  forall fuel q st st', I q st -> grow fuel q st = Some st' -> I [] st'.
Proof using Hnonneg Wnonneg.
  intros Hstart Hadm Hskip Hfin fuel.
  induction fuel as [|fuel IH]; intros q st st' HI Hg; [discriminate|].
  simpl in Hg. destruct q as [|ind q].
  - injection Hg as <-. exact HI.
  - destruct (fold_left _ (window ind) (q, st)) as [q'' st''] eqn:Ef.
    apply (IH q'' st'' st'); [|exact Hg].
    apply (Hfin ind).
    rewrite <- Ef.
    apply (fold_visit_ind (J ind) ind (Hadm ind) (Hskip ind) (window ind) []).
    now apply Hstart.
Qed.

Lemma push_length (st : grow_state) (n : Z * Z) :
  length (seeds (push W st n)) = length (seeds st) /\
  length (done (push W st n)) = length (done st) /\
  length (mask (push W st n)) = length (mask st).
Proof using Hnonneg Wnonneg.
  unfold push, set2; simpl. now rewrite !set_nth_length.
Qed.

(** Each pass takes one pixel off the queue, and each admitted pixel
    trades one queue slot for one pixel that is no longer pending. *)
Lemma fold_visit_measure (ind : Z * Z) (q : list (Z * Z)) (st : grow_state) :
  length (done st) = N ->
  let r := fold_left (visit ind) (window ind) (q, st) in
  length (done (snd r)) = N /\
  (length (fst r) + count_ne 1 (done (snd r))
   = length q + count_ne 1 (done st))%nat.
Proof using Hnonneg Wnonneg.
  intros L.
  apply (fold_visit_ind
    (fun _ acc => length (done (snd acc)) = N /\
       (length (fst acc) + count_ne 1 (done (snd acc))
        = length q + count_ne 1 (done st))%nat) ind) with (seen := []).
  - intros seen q0 st0 n [L0 M0] (Hf & Hd & _). simpl in *.
    split; [unfold set2; now rewrite set_nth_length|].
    rewrite length_app; simpl.
    assert (S (count_ne 1 (set2 W (done st0) (fst n) (snd n) 1))
            = count_ne 1 (done st0)).
    { unfold set2. apply count_ne_set.
      - rewrite L0. now apply flat_lt.
      - exact Hd. }
    lia.
  - intros seen q0 st0 n HP _. exact HP.
  - simpl. auto.
Qed.

(** The inner loop ends: a budget above the queue length plus the number
    of pixels not yet done is enough. *)
Lemma grow_terminates (fuel : nat) (q : list (Z * Z)) (st : grow_state) :
  length (done st) = N ->
  (length q + count_ne 1 (done st) < fuel)%nat ->
  exists st', grow fuel q st = Some st'.
Proof using Hnonneg Wnonneg.
  revert q st; induction fuel as [|fuel IH]; intros q st L M; [lia|].
  simpl. destruct q as [|ind q]; [eauto|].
  destruct (fold_visit_measure ind q st L) as [L' M'].
  destruct (fold_left _ (window ind) (q, st)) as [q'' st'']; simpl in *.
  apply IH; [exact L'|lia].
Qed.

(** What the inner loop does to the seeds: shapes stay, and an entry
    either keeps its value or falls to zero. *)
Lemma grow_shrinks (fuel : nat) (q : list (Z * Z)) (st st' : grow_state) :
  grow fuel q st = Some st' ->
  length (seeds st') = length (seeds st) /\
  length (done st') = length (done st) /\
  forall k, nth k (seeds st') 0 = nth k (seeds st) 0 \/
            nth k (seeds st') 0 = 0.
Proof using Hnonneg Wnonneg.
  intros Hg.
  pose (I := fun (_ : list (Z * Z)) (s : grow_state) =>
    length (seeds s) = length (seeds st) /\
    length (done s) = length (done st) /\
    forall k, nth k (seeds s) 0 = nth k (seeds st) 0 \/
              nth k (seeds s) 0 = 0).
  apply (grow_ind I (fun _ _ acc => I [] (snd acc))) with (fuel := fuel)
    (q := q) (st := st); unfold I; simpl; auto.
  intros ind seen q0 st0 n (Ls & Ld & Hk) _.
  unfold set2. rewrite !set_nth_length.
  split; [exact Ls|]. split; [exact Ld|].
  intros k. rewrite nth_set_nth.
  destruct (_ && _)%bool; auto.
Qed.

End GrowLoop.

(** ** The outer loop ends *)

Lemma map2_length {A B C} (f : A -> B -> C) (a : list A) (b : list B) :
  length a = length b -> length (map2 f a b) = length a.
Proof.
  revert b; induction a as [|x a IH]; intros [|y b] L; simpl in *;
    try discriminate; auto.
Qed.

Lemma map2_in {A B C} (f : A -> B -> C) (a : list A) (b : list B) (z : C) :
  In z (map2 f a b) -> exists x y, In x a /\ In y b /\ z = f x y.
Proof.
  revert b; induction a as [|x a IH]; intros [|y b] Hz; simpl in *;
    try contradiction.
  destruct Hz as [<-|Hz].
  - exists x, y; auto.
  - destruct (IH b Hz) as (x' & y' & Hx & Hy & ->).
    exists x', y'; auto.
Qed.

Lemma nth_map2 {A B C} (f : A -> B -> C) (a : list A) (b : list B)
    (k : nat) (da : A) (db : B) (dc : C) :
  length a = length b -> (k < length a)%nat ->
  nth k (map2 f a b) dc = f (nth k a da) (nth k b db).
Proof.
  revert b k; induction a as [|x a IH]; intros [|y b] k L Hk; simpl in *;
    try discriminate; try lia.
  destruct k as [|k]; [reflexivity|]. apply IH; lia.
Qed.

Section Regions.

Variables H W : Z.
Hypothesis Hnonneg : (0 <= H)%Z.
Hypothesis Wnonneg : (0 <= W)%Z.
Variable depth : list Q.
Variables thr sig : Q.

Let N := Z.to_nat (H * W).
Let grow := grow H W depth thr.
Let regions := regions H W depth thr sig.

Lemma regions_step (inner fuel : nat) (seeds0 done0 : list Q)
    (masks : list (list Q)) :
  regions inner (S fuel) seeds0 done0 masks =
  if Qeq_bool (Qsum seeds0) 0 then Some masks
  else
    let ind_i := (Z.of_nat (argmax seeds0) / W)%Z in
    let ind_j := (Z.of_nat (argmax seeds0) - ind_i * W)%Z in
    let st :=
      {| seeds := set2 W seeds0 ind_i ind_j 0;
         done := set2 W done0 ind_i ind_j 1;
         mask := set2 W (map (fun _ => 0) depth) ind_i ind_j 1 |} in
    match grow inner [(ind_i, ind_j)] st with
    | None => None
    | Some st' =>
        regions inner fuel (seeds st') (done st')
          (if Qlt_bool sig (Qsum (mask st'))
           then (masks ++ [mask st'])%list else masks)
    end.
Proof using Hnonneg Wnonneg. reflexivity. Qed.

(** The root of a new region: where [np.argmax] points when the seeds are
    non-negative and do not sum to zero. *)
Lemma root_positive (seeds0 : list Q) :
  length seeds0 = N ->
  (forall x, In x seeds0 -> 0 <= x) ->
  Qeq_bool (Qsum seeds0) 0 = false ->
  let ind_i := (Z.of_nat (argmax seeds0) / W)%Z in
  let ind_j := (Z.of_nat (argmax seeds0) - ind_i * W)%Z in
  in_frame H W (ind_i, ind_j) /\
  flat W ind_i ind_j = argmax seeds0 /\
  (argmax seeds0 < N)%nat /\
  0 < nth (argmax seeds0) seeds0 0.
Proof using Hnonneg Wnonneg.
  intros L Hn Es ind_i ind_j.
  apply Qeq_bool_false in Es.
  destruct (Qsum_positive_entry seeds0 Hn Es) as (x & Hx & Hpos).
  assert (Hne : seeds0 <> []) by (intros ->; destruct Hx).
  destruct (argmax_spec seeds0 Hne) as [Ham Hmax].
  assert (Hk : (argmax seeds0 < Z.to_nat (H * W))%nat) by (fold N; lia).
  destruct (unflat H W Hnonneg Wnonneg (argmax seeds0) Hk) as [Hf Hflat].
  repeat split; try apply Hf; auto.
  specialize (Hmax x Hx). lra.
Qed.

Lemma regions_terminates (inner fuel : nat) (seeds0 done0 : list Q)
    (masks : list (list Q)) :
  length seeds0 = N -> length done0 = N ->
  (forall x, In x seeds0 -> 0 <= x) ->
  (N + 1 < inner)%nat ->
  (count_ne 0 seeds0 < fuel)%nat ->
  exists r, regions inner fuel seeds0 done0 masks = Some r.
Proof using Hnonneg Wnonneg.
  revert seeds0 done0 masks.
  induction fuel as [|fuel IH]; intros seeds0 done0 masks Ls Ld Hn Hi Hf;
    [lia|].
  rewrite regions_step.
  destruct (Qeq_bool (Qsum seeds0) 0) eqn:Es; [eauto|].
  destruct (root_positive seeds0 Ls Hn Es) as (Hfr & Hflat & Ham & Hpos).
  cbv zeta.
  set (ind_i := (Z.of_nat (argmax seeds0) / W)%Z) in *.
  set (ind_j := (Z.of_nat (argmax seeds0) - ind_i * W)%Z) in *.
  set (st := {| seeds := set2 W seeds0 ind_i ind_j 0;
                done := set2 W done0 ind_i ind_j 1;
                mask := set2 W (map (fun _ => 0) depth) ind_i ind_j 1 |}).
  assert (Ld' : length (done st) = N).
  { simpl. unfold set2. now rewrite set_nth_length. }
  destruct (grow_terminates H W Hnonneg Wnonneg depth thr inner
              [(ind_i, ind_j)] st Ld') as [st' Hg].
  { pose proof (count_ne_le 1 (done st)). simpl length in *. lia. }
  unfold grow. rewrite Hg.
  destruct (grow_shrinks H W Hnonneg Wnonneg depth thr _ _ _ _ Hg)
    as (Ls' & Ld'' & Hk).
  simpl in Ls', Ld'', Hk. unfold set2 in Ls', Ld'', Hk.
  rewrite set_nth_length in Ls', Ld''.
  rewrite Hflat in Hk.
  apply IH; try congruence.
  - intros x Hx. destruct (In_nth _ _ 0 Hx) as (k & Hk1 & <-).
    destruct (Hk k) as [E|E]; rewrite E; [|apply Qle_refl].
    rewrite nth_set_nth. destruct (_ && _)%bool; [apply Qle_refl|].
    apply Hn. apply nth_In. congruence.
  - assert (C1 : (count_ne 0 (seeds st')
                  <= count_ne 0 (set_nth (argmax seeds0) 0%Q seeds0))%nat).
    { apply count_ne_shrinks; [now rewrite set_nth_length|exact Hk]. }
    assert (C2 : S (count_ne 0 (set_nth (argmax seeds0) 0%Q seeds0))
                 = count_ne 0 seeds0).
    { apply count_ne_set; [lia|]. apply Qeq_bool_false. lra. }
    lia.
Qed.

End Regions.

(** C10: on a seed mask with values in {0,1} and a depth map without
    negative entries, [region_growing] ends: any budget of loop
    iterations above the number of pixels plus one yields the list of
    region masks. *)
Theorem region_growing_terminates (H W : Z) (current_depth : list Q)
    (depth_threshold significant_number_of_points : Q)
    (movement_mask : list Q) (fuel : nat) :
  (0 <= H)%Z -> (0 <= W)%Z ->
  length movement_mask = Z.to_nat (H * W) ->
  length current_depth = Z.to_nat (H * W) ->
  Forall (fun x => x == 0 \/ x == 1) movement_mask ->
  Forall (fun x => 0 <= x) current_depth ->
  (Z.to_nat (H * W) + 1 < fuel)%nat ->
  exists masks,
    region_growing H W current_depth depth_threshold
      significant_number_of_points fuel movement_mask = Some masks.
Proof.
  intros HH HW Lm Ld Hm Hd Hf.
  unfold region_growing.
  assert (Ls : length (map2 Qmult movement_mask current_depth)
               = Z.to_nat (H * W)).
  { rewrite map2_length; congruence. }
  apply regions_terminates; auto.
  - now rewrite length_map.
  - intros x Hx. apply map2_in in Hx. destruct Hx as (m & d & Hm' & Hd' & ->).
    rewrite Forall_forall in Hm, Hd.
    specialize (Hd d Hd'). destruct (Hm m Hm') as [E|E]; rewrite E; lra.
  - pose proof (count_ne_le 0 (map2 Qmult movement_mask current_depth)).
    lia.
Qed.

Lemma region_growing_terminates_witness :
  exists masks,
    region_growing 3 3 lonely_depth depth_threshold_default
      significant_default 11 lonely_mask = Some masks.
Proof.
  apply region_growing_terminates; try reflexivity; try (simpl; lia).
  - repeat (constructor; [first [left; reflexivity|right; reflexivity]|]).
    constructor.
  - repeat (constructor; [discriminate|]). constructor.
Defined.

(** ** The first region: what the inner loop has collected *)

Lemma adjacent_window (p n : Z * Z) : adjacent p n -> In n (window p).
Proof.
  destruct p as [a b], n as [i j]. unfold adjacent; simpl.
  intros [Hi Hj].
  assert (Ei : i = (a - 1)%Z \/ i = a \/ i = (a + 1)%Z) by lia.
  assert (Ej : j = (b - 1)%Z \/ j = b \/ j = (b + 1)%Z) by lia.
  destruct Ei as [ -> | [ -> | -> ] ], Ej as [ -> | [ -> | -> ] ]; tauto.
Qed.

Lemma pixel_eq_dec (p n : Z * Z) : {p = n} + {p <> n}.
Proof. decide equality; apply Z.eq_dec. Qed.

Lemma connected_in (B : list (Z * Z)) (p n : Z * Z) :
  connected B p n -> In p B /\ In n B.
Proof.
  induction 1 as [Hp|n r Hc [IHp IHn] Hr Ha]; auto.
Qed.

Section FirstRegion.

Variables H W : Z.
Hypothesis Hnonneg : (0 <= H)%Z.
Hypothesis Wnonneg : (0 <= W)%Z.
Variable depth : list Q.
Variable thr : Q.
Variable root : Z * Z.

Let N := Z.to_nat (H * W).
Let grow := grow H W depth thr.
Let admits := admits H W depth thr.
Let closed_at := closed_at H W depth thr.

(** What holds of the arrays alone while the first region grows. *)
Definition region_arrays (st : grow_state) : Prop :=
  (length (seeds st) = N /\ length (done st) = N /\ length (mask st) = N) /\
  done st = mask st /\
  (forall k, nth k (mask st) 0 = 0 \/ nth k (mask st) 0 = 1) /\
  (forall p, in_frame H W p -> at_px W (mask st) p = 1 ->
             at_px W (seeds st) p = 0) /\
  (forall p, in_frame H W p -> at_px W (mask st) p = 1 ->
             p = root \/ Qle_bool 1 (at_px W depth p) = false) /\
  at_px W (mask st) root = 1.

(** ... and of the arrays together with the queue. *)
Definition region_inv (q : list (Z * Z)) (st : grow_state) : Prop :=
  region_arrays st /\
  (forall p, In p q -> in_frame H W p /\ at_px W (mask st) p = 1) /\
  (forall p, in_frame H W p -> at_px W (mask st) p = 1 -> ~ In p q ->
             closed_at (mask st) p (adjacent p)).

(** ... and while the window around the dequeued pixel [ind] is scanned. *)
Definition window_inv (ind : Z * Z) (seen : list (Z * Z))
    (acc : list (Z * Z) * grow_state) : Prop :=
  let '(q, st) := acc in
  region_arrays st /\
  (in_frame H W ind /\ at_px W (mask st) ind = 1) /\
  (forall p, In p q -> in_frame H W p /\ at_px W (mask st) p = 1) /\
  (forall p, in_frame H W p -> at_px W (mask st) p = 1 -> ~ In p q ->
             p <> ind -> closed_at (mask st) p (adjacent p)) /\
  closed_at (mask st) ind (fun n => In n seen).

Lemma mask_push (st : grow_state) (n p : Z * Z) :
  length (mask st) = N -> in_frame H W n -> in_frame H W p ->
  at_px W (mask (push W st n)) p = 1 /\ p = n \/
  at_px W (mask (push W st n)) p = at_px W (mask st) p /\ p <> n.
Proof using Hnonneg Wnonneg.
  intros L Hn Hp. unfold push; simpl.
  now apply at_set2 with (H := H).
Qed.

Lemma mask_push_keeps (st : grow_state) (n p : Z * Z) :
  length (mask st) = N -> in_frame H W n -> in_frame H W p ->
  at_px W (mask st) p = 1 -> at_px W (mask (push W st n)) p = 1.
Proof using Hnonneg Wnonneg.
  intros L Hn Hp E.
  destruct (mask_push st n p L Hn Hp) as [[E' _]|[E' _]]; congruence.
Qed.

Lemma closed_at_push (st : grow_state) (n p : Z * Z) (S : Z * Z -> Prop) :
  length (mask st) = N -> in_frame H W n ->
  closed_at (mask st) p S -> closed_at (mask (push W st n)) p S.
Proof using Hnonneg Wnonneg.
  intros L Hn Hc x Hx Hf Hr Ht.
  apply mask_push_keeps; auto; now apply Hc.
Qed.

Lemma region_arrays_push (st : grow_state) (ind n : Z * Z) :
  region_arrays st -> admits st ind n -> region_arrays (push W st n).
Proof using Hnonneg Wnonneg.
  intros ((Ls & Ld & Lm) & Hdm & H01 & Hs & Hr & Hroot) (Hn & Hd & Hrange & _).
  destruct (push_length H W Hnonneg Wnonneg st n) as (Ls' & Ld' & Lm').
  repeat split; try congruence.
  - unfold push; simpl. now rewrite Hdm.
  - intros k. unfold push, set2; simpl. rewrite nth_set_nth.
    destruct (_ && _)%bool; auto.
  - intros p Hp Hm1.
    destruct (mask_push st n p Lm Hn Hp) as [[_ ->]|[E Hne]].
    + unfold push, at_px, get2, set2; simpl.
      apply nth_set_nth_same. rewrite Ls. now apply flat_lt.
    + unfold push; simpl.
      destruct (at_set2 H W Hnonneg Wnonneg (seeds st) n p 0 Hn Hp Ls)
        as [[_ C]|[E' _]]; [contradiction|].
      rewrite E'. apply Hs; auto. congruence.
  - intros p Hp Hm1.
    destruct (mask_push st n p Lm Hn Hp) as [[_ ->]|[E Hne]]; [now right|].
    apply Hr; auto. congruence.
  - destruct (pixel_eq_dec root n) as [->|Hne].
    + unfold push, at_px, get2, set2; simpl.
      apply nth_set_nth_same. rewrite Lm. now apply flat_lt.
    + unfold push, at_px, get2, set2; simpl. rewrite nth_set_nth.
      destruct (_ && _)%bool; [reflexivity|exact Hroot].
Qed.

(** The inner loop keeps [region_inv]; with the queue empty, the region
    is closed under the admission rule. *)
Lemma grow_region_inv (fuel : nat) (q : list (Z * Z)) (st st' : grow_state) :
  region_inv q st -> grow fuel q st = Some st' -> region_inv [] st'.
Proof using Hnonneg Wnonneg.
  apply (grow_ind H W Hnonneg Wnonneg depth thr region_inv window_inv).
  - (* a pixel leaves the queue *)
    intros ind q0 st0 (Ha & Hq & Hc). simpl.
    split; [exact Ha|]. split; [apply Hq; now left|].
    split; [intros p Hp; apply Hq; now right|].
    split; [|intros n []].
    intros p Hp Hm Hnq Hne. apply Hc; auto.
    intros [E|E]; [now apply Hne|contradiction].
  - (* a candidate is admitted *)
    intros ind seen q0 st0 n (Ha & (Hi & Him) & Hq & Hc & Hs) Hadm.
    assert (Ha' := region_arrays_push st0 ind n Ha Hadm).
    destruct Ha as ((Ls & Ld & Lm) & Hdm & H01 & _).
    destruct Hadm as (Hn & Hd & Hrange & Hthr).
    simpl. split; [exact Ha'|].
    split; [split; [exact Hi|now apply mask_push_keeps]|].
    split; [|split].
    + intros p Hp. apply in_app_or in Hp. destruct Hp as [Hp|[<-|[]]].
      * destruct (Hq p Hp) as [Hpf Hpm].
        split; [exact Hpf|now apply mask_push_keeps].
      * split; [exact Hn|].
        destruct (mask_push st0 n n Lm Hn Hn) as [[E _]|[_ C]];
          [exact E|congruence].
    + intros p Hp Hm Hnq Hne.
      destruct (mask_push st0 n p Lm Hn Hp) as [[_ ->]|[E Hpn]].
      * exfalso. apply Hnq. apply in_or_app. right. now left.
      * assert (Hm0 : at_px W (mask st0) p = 1) by (rewrite <- E; exact Hm).
        apply closed_at_push; auto. apply Hc; auto.
        intros Hin. apply Hnq. apply in_or_app. now left.
    + intros x Hx Hxf Hxr Hxt.
      apply in_app_or in Hx. destruct Hx as [Hx|[<-|[]]].
      * apply mask_push_keeps; auto; now apply Hs.
      * destruct (mask_push st0 n n Lm Hn Hn) as [[E _]|[_ C]];
          [exact E|congruence].
  - (* a candidate is passed over *)
    intros ind seen q0 st0 n (Ha & (Hi & Him) & Hq & Hc & Hs) Hadm.
    simpl. split; [exact Ha|]. split; [split; assumption|].
    split; [exact Hq|]. split; [exact Hc|].
    intros x Hx Hxf Hxr Hxt.
    apply in_app_or in Hx. destruct Hx as [Hx|[<-|[]]]; [now apply Hs|].
    destruct Ha as ((Ls & Ld & Lm) & Hdm & H01 & _).
    destruct (Qeq_bool (at_px W (done st0) n) 1) eqn:Ed.
    + rewrite Hdm in Ed. apply Qeq_bool_iff in Ed.
      unfold at_px, get2 in *.
      destruct (H01 (flat W (fst n) (snd n))) as [E|E]; [|exact E].
      rewrite E in Ed. discriminate.
    + exfalso. apply Hadm. repeat split; auto; apply Hxf.
  - (* the window is done *)
    intros ind q0 st0 (Ha & (Hi & Him) & Hq & Hc & Hs).
    split; [exact Ha|]. split; [exact Hq|].
    intros p Hp Hm Hnq.
    destruct (pixel_eq_dec p ind) as [->|Hne]; [|now apply Hc].
    intros n Hn. apply Hs. now apply adjacent_window.
Qed.

(** Every pixel joined to the root inside a blob of admissible depth
    steps is in the region once the queue is empty. *)
Lemma region_covers (st : grow_state) (B : list (Z * Z)) :
  region_inv [] st ->
  (forall p, In p B -> in_frame H W p /\ at_px W depth p < 1) ->
  (forall p n, In p B -> In n B -> adjacent p n ->
     depth_close (at_px W depth n) (at_px W depth p) thr = true) ->
  forall p, connected B root p -> at_px W (mask st) p = 1.
Proof using Hnonneg Wnonneg.
  intros (Ha & _ & Hc) HB Hadj p Hp.
  induction Hp as [Hp|n r Hpn IH Hr Hnr].
  - apply Ha.
  - destruct (connected_in B root n Hpn) as [_ Hn].
    destruct (HB n Hn) as [Hnf _]. destruct (HB r Hr) as [Hrf Hrd].
    apply (Hc n Hnf IH (fun C => C) r Hnr Hrf); [|now apply Hadj].
    destruct (Qle_bool 1 (at_px W depth r)) eqn:E; [|reflexivity].
    apply Qle_bool_iff in E. lra.
Qed.

End FirstRegion.

(** ** Sums of 0/1 arrays *)

Lemma size_cons (p : Z * Z) (B : list (Z * Z)) : size (p :: B) == size B + 1.
Proof.
  unfold size. simpl length. rewrite Nat2Z.inj_succ. unfold Z.succ.
  rewrite inject_Z_plus. reflexivity.
Qed.

Lemma count_cons (k : nat) (S : list nat) :
  inject_Z (Z.of_nat (length (k :: S))) == inject_Z (Z.of_nat (length S)) + 1.
Proof.
  simpl length. rewrite Nat2Z.inj_succ. unfold Z.succ.
  rewrite inject_Z_plus. reflexivity.
Qed.

Lemma zero_one_nonneg (a : list Q) :
  (forall k, nth k a 0 = 0 \/ nth k a 0 = 1) ->
  forall x, In x a -> 0 <= x.
Proof.
  intros H01 x Hx. destruct (In_nth _ _ 0 Hx) as (k & _ & <-).
  destruct (H01 k) as [-> | ->]; discriminate.
Qed.

(** A 0/1 array with ones at the distinct positions [S] sums to at least
    their number ... *)
Lemma Qsum_ge_ones (S : list nat) :
  forall a, NoDup S ->
    (forall k, nth k a 0 = 0 \/ nth k a 0 = 1) ->
    (forall k, In k S -> nth k a 0 = 1) ->
    inject_Z (Z.of_nat (length S)) <= Qsum a.
Proof.
  induction S as [|k S IH]; intros a Hnd H01 Hones.
  - apply Qsum_nonneg. now apply zero_one_nonneg.
  - rewrite count_cons.
    assert (Hk1 : nth k a 0 = 1) by (apply Hones; now left).
    assert (Hk : (k < length a)%nat).
    { destruct (Nat.lt_ge_cases k (length a)) as [L|L]; [exact L|].
      rewrite nth_overflow in Hk1 by exact L. discriminate. }
    assert (Hs := Qsum_set_nth k 0 a Hk). rewrite Hk1 in Hs.
    inversion Hnd as [|k' S' Hnotin Hnd']; subst.
    assert (IH' : inject_Z (Z.of_nat (length S)) <= Qsum (set_nth k 0 a)).
    { apply IH; auto.
      - intros j. rewrite nth_set_nth. destruct (_ && _)%bool; auto.
      - intros j Hj. rewrite nth_set_nth_other; [apply Hones; now right|].
        intros ->. contradiction. }
    lra.
Qed.

(** ... and with ones only at positions of [S], to at most their number. *)
Lemma Qsum_le_ones (S : list nat) :
  forall a,
    (forall k, nth k a 0 = 0 \/ nth k a 0 = 1) ->
    (forall k, nth k a 0 = 1 -> In k S) ->
    Qsum a <= inject_Z (Z.of_nat (length S)).
Proof.
  induction S as [|k S IH]; intros a H01 Hones.
  - assert (E : Qsum a == 0).
    { apply Qsum_all_zero. intros x Hx.
      destruct (In_nth _ _ 0 Hx) as (j & _ & <-).
      destruct (H01 j) as [->|E]; [reflexivity|].
      destruct (Hones j E). }
    rewrite E. apply Qle_refl.
  - rewrite count_cons.
    destruct (H01 k) as [Hk0|Hk1].
    + assert (IH' : Qsum a <= inject_Z (Z.of_nat (length S))).
      { apply IH; auto. intros j Hj.
        destruct (Hones j Hj) as [<-|Hin]; [|exact Hin].
        rewrite Hk0 in Hj. discriminate. }
      lra.
    + assert (Hk : (k < length a)%nat).
      { destruct (Nat.lt_ge_cases k (length a)) as [L|L]; [exact L|].
        rewrite nth_overflow in Hk1 by exact L. discriminate. }
      assert (Hs := Qsum_set_nth k 0 a Hk). rewrite Hk1 in Hs.
      assert (IH' : Qsum (set_nth k 0 a) <= inject_Z (Z.of_nat (length S))).
      { apply IH.
        - intros j. rewrite nth_set_nth. destruct (_ && _)%bool; auto.
        - intros j Hj.
          destruct (Nat.eq_dec j k) as [E|Hne].
          + rewrite E, nth_set_nth_same in Hj by exact Hk. discriminate.
          + rewrite nth_set_nth_other in Hj by exact Hne.
            destruct (Hones j Hj) as [E|Hin]; [congruence|exact Hin]. }
      lra.
Qed.

Lemma Qsum_ge_entry (a : list Q) (x : Q) :
  (forall y, In y a -> 0 <= y) -> In x a -> x <= Qsum a.
Proof.
  induction a as [|h t IH]; intros Hn Hx; [destruct Hx|].
  rewrite Qsum_cons.
  assert (0 <= h) by (apply Hn; now left).
  assert (0 <= Qsum t) by (apply Qsum_nonneg; intros y Hy; apply Hn; now right).
  destruct Hx as [<-|Hx]; [lra|].
  assert (x <= Qsum t) by (apply IH; auto; intros y Hy; apply Hn; now right).
  lra.
Qed.

Lemma nth_map_const {A} (c : Q) (l : list A) (k : nat) :
  nth k (map (fun _ => c) l) c = c.
Proof.
  revert k; induction l as [|h t IH]; intros [|k]; simpl; auto.
Qed.

Lemma map_const_eq {A B} (c : Q) (a : list A) (b : list B) :
  length a = length b -> map (fun _ => c) a = map (fun _ => c) b.
Proof.
  revert b; induction a as [|x a IH]; intros [|y b] L; simpl in *;
    try discriminate; auto.
  f_equal. apply IH. lia.
Qed.

(** ** A single blob *)

Lemma nonempty_in {A} (l : list A) : l <> [] -> exists x, In x l.
Proof.
  destruct l as [|x l]; [congruence|]. intros _. exists x. now left.
Qed.

Section SingleBlob.

Variables H W : Z.
Hypothesis Hnonneg : (0 <= H)%Z.
Hypothesis Wnonneg : (0 <= W)%Z.
Variable depth : list Q.
Variables thr sig : Q.
Variable mask0 : list Q.
Variable B : list (Z * Z).

Let N := Z.to_nat (H * W).

Hypothesis Lm : length mask0 = N.
Hypothesis Ld : length depth = N.
Hypothesis HB : forall p, In p B ->
  in_frame H W p /\ at_px W mask0 p == 1 /\
  0 < at_px W depth p /\ at_px W depth p < 1.
Hypothesis Hout : forall p, in_frame H W p -> ~ In p B -> at_px W mask0 p == 0.
Hypothesis Hadj : forall p n, In p B -> In n B -> adjacent p n ->
  depth_close (at_px W depth n) (at_px W depth p) thr = true.
Hypothesis Hconn : forall p n, In p B -> In n B -> connected B p n.
Hypothesis Hne : B <> [].

Let seeds0 := map2 Qmult mask0 depth.

Lemma seeds0_length : length seeds0 = N.
Proof using Lm Ld.
  unfold seeds0. rewrite map2_length; congruence.
Qed.

Lemma seeds0_at (p : Z * Z) :
  in_frame H W p ->
  at_px W seeds0 p = at_px W mask0 p * at_px W depth p.
Proof using Hnonneg Wnonneg Lm Ld.
  intros Hp. unfold at_px, get2, seeds0.
  apply nth_map2; [congruence|].
  rewrite Lm. now apply flat_lt.
Qed.

Lemma seeds0_inside (p : Z * Z) : In p B -> 0 < at_px W seeds0 p.
Proof using Hnonneg Wnonneg Lm Ld HB.
  intros Hp. destruct (HB p Hp) as (Hf & Hm & Hd0 & Hd1).
  rewrite seeds0_at by exact Hf. rewrite Hm. lra.
Qed.

Lemma seeds0_outside (p : Z * Z) :
  in_frame H W p -> ~ In p B -> at_px W seeds0 p == 0.
Proof using Hnonneg Wnonneg Lm Ld Hout.
  intros Hf Hp. rewrite seeds0_at by exact Hf.
  rewrite (Hout p Hf Hp). ring.
Qed.

Lemma seeds0_nonneg (x : Q) : In x seeds0 -> 0 <= x.
Proof using Hnonneg Wnonneg Lm Ld HB Hout.
  intros Hx. destruct (In_nth _ _ 0 Hx) as (k & Hk & <-).
  rewrite seeds0_length in Hk.
  destruct (unflat H W Hnonneg Wnonneg k Hk) as [Hf Hflat].
  set (p := ((Z.of_nat k / W)%Z,
             (Z.of_nat k - Z.of_nat k / W * W)%Z)) in *.
  assert (E : nth k seeds0 0 = at_px W seeds0 p).
  { unfold at_px, get2, p; simpl. now rewrite Hflat. }
  rewrite E.
  destruct (in_dec pixel_eq_dec p B) as [Hin|Hnin].
  - apply Qlt_le_weak. now apply seeds0_inside.
  - rewrite (seeds0_outside p Hf Hnin). apply Qle_refl.
Qed.

Lemma seeds0_sum : Qeq_bool (Qsum seeds0) 0 = false.
Proof using Hnonneg Wnonneg Lm Ld HB Hout Hne.
  apply Qeq_bool_false.
  destruct (nonempty_in B Hne) as [p Hp].
  assert (Hpos := seeds0_inside p Hp).
  destruct (HB p Hp) as (Hf & _).
  assert (Hin : In (at_px W seeds0 p) seeds0).
  { unfold at_px, get2. apply nth_In. rewrite seeds0_length.
    now apply flat_lt. }
  assert (Hge := Qsum_ge_entry seeds0 _ seeds0_nonneg Hin).
  intros E. rewrite E in Hge. lra.
Qed.

(** The one pass of the outer loop: its region holds the blob, and holds
    nothing beyond the blob but pixels of valid depth. *)
Lemma first_region (fuel : nat) :
  (N + 1 < fuel)%nat ->
  exists m,
    region_growing H W depth thr sig fuel mask0
    = Some (if Qlt_bool sig (Qsum m) then [m] else []) /\
    length m = N /\
    (forall k, nth k m 0 = 0 \/ nth k m 0 = 1) /\
    (forall p, In p B -> at_px W m p = 1) /\
    (forall p, in_frame H W p -> at_px W m p = 1 ->
       In p B \/ Qle_bool 1 (at_px W depth p) = false).
Proof using Hnonneg Wnonneg Lm Ld HB Hout Hadj Hconn Hne.
  intros Hfuel.
  destruct fuel as [|[|fuel]]; try lia.
  unfold region_growing. fold seeds0.
  set (inner := S (S fuel)) in *.
  rewrite (regions_step H W Hnonneg Wnonneg depth thr sig inner (S fuel)).
  rewrite seeds0_sum. cbv zeta.
  destruct (root_positive H W Hnonneg Wnonneg seeds0 seeds0_length
              seeds0_nonneg seeds0_sum) as (Hrf & Hflat & Ham & Hpos).
  set (ind_i := (Z.of_nat (argmax seeds0) / W)%Z) in *.
  set (ind_j := (Z.of_nat (argmax seeds0) - ind_i * W)%Z) in *.
  set (root := (ind_i, ind_j)) in *.
  set (done0 := map (fun _ : Q => 0) seeds0).
  set (zeros := map (fun _ : Q => 0) depth).
  set (st0 := {| seeds := set2 W seeds0 ind_i ind_j 0;
                 done := set2 W done0 ind_i ind_j 1;
                 mask := set2 W zeros ind_i ind_j 1 |}).
  assert (Lz : length zeros = N) by (unfold zeros; now rewrite length_map).
  assert (Ld0 : length done0 = N).
  { unfold done0. rewrite length_map. apply seeds0_length. }
  assert (Hroot_in : In root B).
  { destruct (in_dec pixel_eq_dec root B) as [Hin|Hnin]; [exact Hin|].
    exfalso. assert (E := seeds0_outside root Hrf Hnin).
    unfold at_px, get2, root in E; simpl in E. rewrite Hflat in E.
    rewrite E in Hpos. lra. }
  assert (Hzero : forall p, at_px W zeros p = 0).
  { intros p. unfold at_px, get2, zeros. apply nth_map_const. }
  assert (Hm0 : forall p, in_frame H W p ->
            at_px W (mask st0) p = 1 -> p = root).
  { intros p Hp E. simpl in E.
    destruct (at_set2 H W Hnonneg Wnonneg zeros root p 1 Hrf Hp Lz)
      as [[_ Hpr]|[E' _]]; [exact Hpr|].
    unfold root in E'; simpl in E'. rewrite E', Hzero in E. discriminate. }
  assert (Hroot1 : at_px W (mask st0) root = 1).
  { unfold at_px, get2, set2, root; simpl.
    apply nth_set_nth_same. rewrite Lz. now apply (flat_lt H W) with (p := root). }
  assert (Hinv : region_inv H W depth thr root [root] st0).
  { split; [|split].
    - repeat split.
      + simpl. unfold set2. rewrite set_nth_length. apply seeds0_length.
      + simpl. unfold set2. now rewrite set_nth_length.
      + simpl. unfold set2. now rewrite set_nth_length.
      + simpl. f_equal. unfold done0, zeros. apply map_const_eq.
        rewrite seeds0_length. congruence.
      + intros k. simpl. unfold set2. rewrite nth_set_nth.
        destruct (_ && _)%bool; [now right|left].
        unfold zeros. apply nth_map_const.
      + intros p Hp E. rewrite (Hm0 p Hp E).
        unfold at_px, get2, set2, root; simpl.
        apply nth_set_nth_same. rewrite seeds0_length.
        now apply (flat_lt H W) with (p := root).
      + intros p Hp E. left. now apply Hm0.
      + exact Hroot1.
    - intros p [<-|[]]. split; [exact Hrf|exact Hroot1].
    - intros p Hp E Hnq. exfalso. apply Hnq. left. symmetry. now apply Hm0. }
  assert (Ld' : length (done st0) = N).
  { simpl. unfold set2. now rewrite set_nth_length. }
  destruct (grow_terminates H W Hnonneg Wnonneg depth thr inner [root] st0 Ld')
    as [st' Hg].
  { pose proof (count_ne_le 1 (done st0)). simpl length in *.
    unfold inner. lia. }
  fold root. rewrite Hg.
  assert (Hinv' := grow_region_inv H W Hnonneg Wnonneg depth thr root
                     inner [root] st0 st' Hinv Hg).
  destruct (grow_shrinks H W Hnonneg Wnonneg depth thr _ _ _ _ Hg)
    as (Ls' & Ld'' & Hk).
  destruct Hinv' as (((Ls1 & Ld1 & Lm1) & Hdm & H01 & Hseeds & Hlow & Hr1)
                     & Hq & Hclosed).
  assert (Hcov : forall p, In p B -> at_px W (mask st') p = 1).
  { intros p Hp.
    apply (region_covers H W Hnonneg Wnonneg depth thr root st' B).
    - split; [|split]; auto. repeat split; auto.
    - intros x Hx. destruct (HB x Hx) as (Hf & _ & _ & Hd1). auto.
    - exact Hadj.
    - now apply Hconn. }
  assert (Hzeros : Qsum (seeds st') == 0).
  { apply Qsum_all_zero. intros x Hx.
    destruct (In_nth _ _ 0 Hx) as (k & Hk1 & <-).
    rewrite Ls1 in Hk1.
    destruct (unflat H W Hnonneg Wnonneg k Hk1) as [Hf Hfl].
    set (p := ((Z.of_nat k / W)%Z,
               (Z.of_nat k - Z.of_nat k / W * W)%Z)) in *.
    destruct (in_dec pixel_eq_dec p B) as [Hin|Hnin].
    - assert (E := Hseeds p Hf (Hcov p Hin)).
      unfold at_px, get2, p in E; simpl in E. rewrite Hfl in E.
      rewrite E. reflexivity.
    - destruct (Hk k) as [E|E]; [|rewrite E; reflexivity].
      rewrite E. simpl. unfold set2. rewrite nth_set_nth.
      destruct (_ && _)%bool; [reflexivity|].
      assert (E0 := seeds0_outside p Hf Hnin).
      unfold at_px, get2, p in E0; simpl in E0. rewrite Hfl in E0.
      exact E0. }
  rewrite (regions_step H W Hnonneg Wnonneg depth thr sig inner fuel).
  apply Qeq_bool_iff in Hzeros. rewrite Hzeros.
  exists (mask st').
  split; [|split; [exact Lm1|split; [exact H01|split; [exact Hcov|]]]].
  - destruct (Qlt_bool sig (Qsum (mask st'))); reflexivity.
  - intros p Hp E. destruct (Hlow p Hp E) as [->|Hl]; auto.
Qed.

Lemma blob_positions :
  NoDup B ->
  NoDup (map (fun p => flat W (fst p) (snd p)) B).
Proof using Hnonneg Wnonneg HB.
  clear Hout Hadj Hconn Hne.
  induction B as [|p B' IH]; intros Hnd; simpl; [constructor|].
  inversion Hnd as [|p' B'' Hnotin Hnd']; subst.
  constructor.
  - intros Hin. apply in_map_iff in Hin. destruct Hin as (n & E & Hn).
    assert (n = p); [|congruence].
    apply (flat_inj H W Hnonneg Wnonneg); auto;
      [apply HB; now right|apply HB; now left].
  - apply IH; auto. intros x Hx. apply HB. now right.
Qed.

End SingleBlob.

(** The depth test works on the rounded difference.  A pixel of depth
    2^-80 next to one of depth 0.05 differs from it by less than 0.05, yet
    the binary64 difference is 0.05 itself and the test fails: on the
    strip the first pixel stays alone, the hundred others form a region of
    no more than 100 pixels, and no mask is returned. *)
Lemma region_growing_rounded_difference :
  Qabs (Qmake 1 (2 ^ 80) - depth_threshold_default)
  < depth_threshold_default /\
  depth_close (Qmake 1 (2 ^ 80)) depth_threshold_default
    depth_threshold_default = false /\
  region_growing 1 101 strip_depth depth_threshold_default
    significant_default 103 (all_flagged 101) = Some [].
Proof.
  repeat split; vm_compute; reflexivity.
Qed.


Ltac frame_cases p :=
  let i := fresh "i" in
  let j := fresh "j" in
  let Hi := fresh "Hi" in
  let Hj := fresh "Hj" in
  destruct p as [i j]; unfold in_frame; cbn [fst snd]; intros [Hi Hj];
  assert (i = 0 \/ i = 1 \/ i = 2)%Z as [ -> | [ -> | -> ] ] by lia;
  assert (j = 0 \/ j = 1 \/ j = 2)%Z as [ -> | [ -> | -> ] ] by lia.



End RegionGrowingFacts.

(* ================================================================== *)
(** * Facts about images and pixel loops *)

Module ImageFacts.
Import Numeric NumericFacts Image.

Lemma nth_error_set_nth {A} (k m : nat) (v : A) (a : list A) :
  nth_error (set_nth m v a) k =
  if (Nat.eqb k m && Nat.ltb m (length a))%bool then Some v
  else nth_error a k.
Proof.
  revert k m; induction a as [|h t IH]; intros k m.
  - simpl. rewrite andb_false_r. reflexivity.
  - destruct m as [|m], k as [|k]; simpl; try reflexivity.
    rewrite IH. reflexivity.
Qed.

(** Reading a mask after one write. *)
Lemma get_set_px {A} (m m' : image A) (i j i' j' : nat) (v : A) :
  set_px m i j v = Some m' ->
  get_px m' i' j' =
  if (Nat.eqb i' i && Nat.eqb j' j)%bool then Some v else get_px m i' j'.
Proof.
  unfold set_px, get_px. intros Hs.
  destruct (nth_error m i) as [row|] eqn:Er; [|discriminate].
  destruct (Nat.ltb_spec j (length row)) as [Lj|Lj]; [|discriminate].
  injection Hs as <-.
  assert (Li : (i < length m)%nat).
  { apply nth_error_Some. congruence. }
  rewrite nth_error_set_nth.
  destruct (Nat.eqb_spec i' i) as [->|Hne]; simpl.
  - apply Nat.ltb_lt in Li. rewrite Li.
    rewrite nth_error_set_nth.
    destruct (Nat.eqb_spec j' j) as [->|Hnj]; simpl.
    + apply Nat.ltb_lt in Lj. now rewrite Lj.
    + now rewrite Er.
  - reflexivity.
Qed.

Lemma set_px_shape {A} (m m' : image A) (i j h w : nat) (v : A) :
  set_px m i j v = Some m' -> has_shape h w m -> has_shape h w m'.
Proof.
  unfold set_px, has_shape. intros Hs [Lh Hrows].
  destruct (nth_error m i) as [row|] eqn:Er; [|discriminate].
  destruct (Nat.ltb_spec j (length row)) as [Lj|Lj]; [|discriminate].
  injection Hs as <-.
  split; [now rewrite set_nth_length|].
  rewrite Forall_forall in *. intros r Hr.
  destruct (In_nth_error _ _ Hr) as [k Hk].
  rewrite nth_error_set_nth in Hk.
  destruct (_ && _)%bool.
  - injection Hk as <-. rewrite set_nth_length.
    apply Hrows. eapply nth_error_In; eauto.
  - apply Hrows. eapply nth_error_In; eauto.
Qed.

Lemma in_pixels (h w i j : nat) :
  In (i, j) (pixels h w) <-> (i < h /\ j < w)%nat.
Proof.
  unfold pixels. rewrite in_prod_iff, !in_seq. lia.
Qed.

Lemma get_px_in_shape {A} (m : image A) (h w i j : nat) (v : A) :
  has_shape h w m -> get_px m i j = Some v -> (i < h /\ j < w)%nat.
Proof.
  unfold has_shape, get_px. intros [Lh Hrows] Hg.
  destruct (nth_error m i) as [row|] eqn:Er; [|discriminate].
  split.
  - rewrite <- Lh. apply nth_error_Some. congruence.
  - rewrite Forall_forall in Hrows.
    rewrite <- (Hrows row) by (eapply nth_error_In; eauto).
    apply nth_error_Some. congruence.
Qed.

Lemma pixel_in_dec (ij : nat * nat) (ps : list (nat * nat)) :
  {In ij ps} + {~ In ij ps}.
Proof.
  apply in_dec. decide equality; apply Nat.eq_dec.
Qed.

Section PixelLoop.

Variable S : Type.
Variable f : S -> nat * nat -> option S.
Variable mask_of : S -> image Q.
Variable V : Q -> Prop.

(** Each pass writes one mask entry, with a value from [V]. *)
Hypothesis writes : forall s ij s',
  f s ij = Some s' ->
  exists v, V v /\ set_px (mask_of s) (fst ij) (snd ij) v = Some (mask_of s').

(** After the loop every entry it passed over holds a value from [V];
    the others are as before. *)
Lemma foldM_writes (h w : nat) (ps : list (nat * nat)) :
  forall s s', foldM f ps s = Some s' ->
    has_shape h w (mask_of s) ->
    has_shape h w (mask_of s') /\
    (forall i j, In (i, j) ps ->
       forall v, get_px (mask_of s') i j = Some v -> V v) /\
    (forall i j, ~ In (i, j) ps ->
       get_px (mask_of s') i j = get_px (mask_of s) i j).
Proof using writes.
  induction ps as [|[a b] ps IH]; intros s s' Hf Hsh; simpl in Hf.
  - injection Hf as <-. split; [exact Hsh|]. split; [intros i j []|auto].
  - destruct (f s (a, b)) as [s1|] eqn:E1; [|discriminate].
    destruct (writes s (a, b) s1 E1) as (v & Hv & Hset). simpl in Hset.
    assert (Hsh1 := set_px_shape _ _ _ _ h w _ Hset Hsh).
    destruct (IH s1 s' Hf Hsh1) as (Hsh' & Hin & Hout).
    split; [exact Hsh'|]. split.
    + intros i j Hij x Hx.
      destruct (pixel_in_dec (i, j) ps) as [Hi|Hni]; [now apply (Hin i j)|].
      destruct Hij as [E|Hi]; [|contradiction].
      injection E as -> ->.
      rewrite (Hout i j Hni), (get_set_px _ _ _ _ _ _ _ Hset) in Hx.
      rewrite !Nat.eqb_refl in Hx. simpl in Hx. congruence.
    + intros i j Hnij.
      rewrite (Hout i j) by (intros C; apply Hnij; now right).
      rewrite (get_set_px _ _ _ _ _ _ _ Hset).
      destruct (Nat.eqb_spec i a) as [->|Hne]; simpl; [|reflexivity].
      destruct (Nat.eqb_spec j b) as [->|Hnb]; simpl; [|reflexivity].
      exfalso. apply Hnij. now left.
Qed.

(** A loop over all pixels of the frame leaves a mask of the frame's
    shape with values from [V] only, whatever it held before. *)
Lemma foldM_covers (h w : nat) (s s' : S) :
  foldM f (pixels h w) s = Some s' ->
  has_shape h w (mask_of s) ->
  all_entries V (mask_of s').
Proof using writes.
  intros Hf Hsh.
  destruct (foldM_writes h w _ s s' Hf Hsh) as (Hsh' & Hin & _).
  intros i j v Hg.
  apply (Hin i j); [|exact Hg].
  apply in_pixels. eapply get_px_in_shape; eauto.
Qed.

End PixelLoop.

Section AnyLoop.

Variables S X A : Type.
Variable f : S -> X -> option S.
Variable mask_of : S -> image A.
Variable V : A -> Prop.

(** Each pass writes one mask entry, somewhere, with a value from [V]. *)
Hypothesis writes : forall s x s',
  f s x = Some s' ->
  exists i j v, V v /\ set_px (mask_of s) i j v = Some (mask_of s').

(** Such a loop keeps a mask within [V]. *)
Lemma foldM_keeps (xs : list X) :
  forall s s', foldM f xs s = Some s' ->
    all_entries V (mask_of s) -> all_entries V (mask_of s').
Proof using writes.
  induction xs as [|x xs IH]; intros s s' Hf Hall; simpl in Hf.
  - injection Hf as <-. exact Hall.
  - destruct (f s x) as [s1|] eqn:E1; [|discriminate].
    apply (IH s1 s' Hf).
    destruct (writes s x s1 E1) as (i0 & j0 & v & Hv & Hset).
    intros i j y Hy. rewrite (get_set_px _ _ _ _ _ _ _ Hset) in Hy.
    destruct (_ && _)%bool; [congruence|]. now apply (Hall i j).
Qed.

End AnyLoop.

Lemma zeros_like_entries {A B} (z : B) (im : image A) :
  all_entries (fun v => v = z) (map (map (fun _ => z)) im).
Proof.
  intros i j v. unfold get_px. rewrite nth_error_map.
  destruct (nth_error im i) as [row|]; simpl; [|discriminate].
  rewrite nth_error_map.
  destruct (nth_error row j); simpl; congruence.
Qed.

End ImageFacts.

(* ================================================================== *)
(** * Facts about ViBE and DEVB *)

Module ViBEFacts.
Import Numeric Image ImageFacts ViBE.
Local Open Scope Q_scope.

Definition zero_or_one (v : Q) : Prop := v = 0 \/ v = 1.

Lemma vibe_update_sample_mask (st st' : state) (gi gj si sj : nat) (t t' : tape) :
  update_sample st gi gj si sj t = Some (st', t') -> mask st' = mask st.
Proof.
  unfold update_sample. intros Hu.
  destruct (randrange _ t) as [[k t1]|]; [|discriminate].
  destruct (get_px (current_rgb st) si sj); [|discriminate].
  destruct (get_px (background st) gi gj) as [samples|]; [|discriminate].
  destruct (k <? length samples)%nat; [|discriminate].
  destruct (set_px _ gi gj _); [|discriminate].
  injection Hu as <- _. reflexivity.
Qed.

Lemma vibe_refresh_mask (st st' : state) (i j : nat) (t t' : tape) :
  refresh st i j t = Some (st', t') -> mask st' = mask st.
Proof.
  unfold refresh. intros Hr.
  destruct (time_factor_chance _ t) as [[own t1]|]; [|discriminate].
  destruct (if own then update_sample st i j i j t1 else Some (st, t1))
    as [[st1 t2]|] eqn:E1; [|discriminate].
  assert (M1 : mask st1 = mask st).
  { destruct own.
    - eapply vibe_update_sample_mask; eauto.
    - injection E1 as <- _. reflexivity. }
  destruct (time_factor_chance _ t2) as [[[|] t3]|]; [| |discriminate].
  - destruct (get_random_neighbour _ _ _ t3) as [[ni t4]|]; [|discriminate].
    destruct (get_random_neighbour _ _ _ t4) as [[nj t5]|]; [|discriminate].
    apply vibe_update_sample_mask in Hr. congruence.
  - injection Hr as <- _. exact M1.
Qed.

Lemma vibe_set_pixel_writes (s : state * tape) (ij : nat * nat)
    (s' : state * tape) :
  set_pixel s ij = Some s' ->
  exists v, zero_or_one v /\
    set_px (mask (fst s)) (fst ij) (snd ij) v = Some (mask (fst s')).
Proof.
  destruct s as [st t], s' as [st' t'], ij as [i j]. simpl.
  intros Hp.
  destruct (in_background st i j) as [[|]|]; [| |discriminate].
  - destruct (set_px (mask st) i j 0) as [m|] eqn:Em; [|discriminate].
    apply vibe_refresh_mask in Hp. simpl in Hp.
    exists 0. split; [now left|congruence].
  - destruct (set_px (mask st) i j 1) as [m|] eqn:Em; [|discriminate].
    injection Hp as <- _. simpl.
    exists 1. split; [now right|exact Em].
Qed.

(** After ViBE's [set_mask] every mask entry is 0 or 1. *)
Lemma vibe_set_mask_values (st st' : state) (t t' : tape) :
  has_shape (shape0 (current_rgb st)) (shape1 (current_rgb st)) (mask st) ->
  set_mask st t = Some (st', t') ->
  all_entries zero_or_one (mask st').
Proof.
  intros Hsh Hm. unfold set_mask in Hm.
  apply (foldM_covers (state * tape) set_pixel (fun s => mask (fst s))
           zero_or_one vibe_set_pixel_writes _ _ (st, t) (st', t') Hm Hsh).
Qed.

End ViBEFacts.

Module DEVBFacts.
Import Numeric Image ImageFacts DEVB.
Local Open Scope Q_scope.

Lemma devb_update_sample_mask (st st' : state) (gi gj si sj : nat) (t t' : tape) :
  update_sample st gi gj si sj t = Some (st', t') -> mask st' = mask st.
Proof.
  unfold update_sample. intros Hu.
  destruct (randrange _ t) as [[k t1]|]; [|discriminate].
  destruct (get_px (current_rgb st) si sj); [|discriminate].
  destruct (get_px (background st) gi gj) as [samples|]; [|discriminate].
  destruct (k <? length samples)%nat; [|discriminate].
  destruct (set_px _ gi gj _); [|discriminate].
  injection Hu as <- _. reflexivity.
Qed.

Lemma refresh_own_mask (st st' : state) (i j : nat) (t t' : tape) :
  refresh_own st i j t = Some (st', t') -> mask st' = mask st.
Proof.
  unfold refresh_own. intros Hr.
  destruct (time_factor_chance _ t) as [[[|] t1]|]; [| |discriminate].
  - eapply devb_update_sample_mask; eauto.
  - injection Hr as <- _. reflexivity.
Qed.

Lemma refresh_neighbour_mask (st st' : state) (i j : nat) (t t' : tape)
    (b : bool) :
  refresh_neighbour st i j t = Some (st', t', b) -> mask st' = mask st.
Proof.
  unfold refresh_neighbour. intros Hr.
  destruct (time_factor_chance _ t) as [[[|] t1]|]; [| |discriminate].
  - destruct (get_random_neighbour _ _ _ t1) as [[ni t2]|]; [|discriminate].
    destruct (get_random_neighbour _ _ _ t2) as [[nj t3]|]; [|discriminate].
    destruct (update_sample st _ _ i j t3) as [[st1 t4]|] eqn:Eu;
      [|discriminate].
    injection Hr as <- _ _. eapply devb_update_sample_mask; eauto.
  - injection Hr as <- _ _. reflexivity.
Qed.

Lemma snap_depth_mask (st st' : state) (i j : nat) :
  snap_depth st i j = Some st' -> mask st' = mask st.
Proof.
  unfold snap_depth. intros Hs.
  destruct (get_px (current_depth st) i j); [|discriminate].
  destruct (set_px (depth_background st) i j _); [|discriminate].
  injection Hs as <-. reflexivity.
Qed.

Lemma devb_set_pixel_writes (s : state * tape) (ij : nat * nat)
    (s' : state * tape) :
  set_pixel s ij = Some s' ->
  exists v, ViBEFacts.zero_or_one v /\
    set_px (mask (fst s)) (fst ij) (snd ij) v = Some (mask (fst s')).
Proof.
  destruct s as [st t], s' as [st' t'], ij as [i j]. simpl.
  intros Hp.
  destruct (in_background st i j) as [[|]|]; [| |discriminate].
  - destruct (set_px (mask st) i j 0) as [m|] eqn:Em; [|discriminate].
    destruct (refresh_own _ i j t) as [[st1 t1]|] eqn:E1; [|discriminate].
    apply refresh_own_mask in E1. simpl in E1.
    destruct (refresh_neighbour st1 i j t1) as [[[st2 t2] b]|] eqn:E2;
      [|discriminate].
    apply refresh_neighbour_mask in E2.
    exists 0. split; [now left|].
    destruct b.
    + destruct (snap_depth st2 i j) as [st3|] eqn:E3; [|discriminate].
      apply snap_depth_mask in E3. injection Hp as <- _. congruence.
    + injection Hp as <- _. congruence.
  - destruct (get_px (depth_background st) i j) as [db|]; [|discriminate].
    destruct (get_px (current_depth st) i j) as [d|]; [|discriminate].
    destruct (Qlt_bool (threshold_theta st) (db - d)).
    + destruct (set_px (mask st) i j 1) as [m|] eqn:Em; [|discriminate].
      destruct (refresh_own _ i j t) as [[st1 t1]|] eqn:E1; [|discriminate].
      apply refresh_own_mask in E1. simpl in E1.
      destruct (refresh_neighbour st1 i j t1) as [[[st2 t2] b]|] eqn:E2;
        [|discriminate].
      apply refresh_neighbour_mask in E2.
      destruct (snap_depth st2 i j) as [st3|] eqn:E3; [|discriminate].
      apply snap_depth_mask in E3. injection Hp as <- _.
      exists 1. split; [now right|congruence].
    + destruct (set_px (mask st) i j 0) as [m|] eqn:Em; [|discriminate].
      injection Hp as <- _. exists 0. split; [now left|exact Em].
Qed.

(** After DEVB's [set_mask] every mask entry is 0 or 1. *)
Lemma devb_set_mask_values (st st' : state) (t t' : tape) :
  has_shape (shape0 (current_rgb st)) (shape1 (current_rgb st)) (mask st) ->
  set_mask st t = Some (st', t') ->
  all_entries ViBEFacts.zero_or_one (mask st').
Proof.
  intros Hsh Hm. unfold set_mask in Hm.
  apply (foldM_covers (state * tape) set_pixel (fun s => mask (fst s))
           ViBEFacts.zero_or_one devb_set_pixel_writes _ _ (st, t) (st', t') Hm Hsh).
Qed.

End DEVBFacts.

(* ================================================================== *)
(** * Facts about the RGBD mixtures *)

Module MixtureFacts.
Import Numeric Image ImageFacts Colour.
Local Open Scope Q_scope.

Definition zero_or_255 (v : Q) : Prop := v = 0 \/ v = 255.

Lemma pixel_value_range (fuel : nat) (st : RGBD_MoG.state)
    (g : RGBD_MoG.Gaussian) (mc : list bool) (v : Q) :
  RGBD_MoG.pixel_value fuel st g mc = Some v -> zero_or_255 v.
Proof.
  unfold RGBD_MoG.pixel_value. intros Hv.
  destruct (RGBD_MoG.color_reliability fuel st g); [|discriminate].
  destruct (get_px (RGBD_MoG.current_depth st) _ _); [|discriminate].
  destruct (get_px (RGBD_MoG.current_yuv st) _ _) as [[|y uv]|];
    try discriminate.
  injection Hv as <-.
  destruct (_ || _)%bool; [now left|now right].
Qed.

Lemma rgbd_classify_writes (fuel : nat) (n : Z) (st : RGBD_MoG.state) (k : nat)
    (st' : RGBD_MoG.state) :
  RGBD_MoG.classify fuel n st k = Some st' ->
  exists i j v, zero_or_255 v /\
    set_px (RGBD_MoG.mask st) i j v = Some (RGBD_MoG.mask st').
Proof.
  unfold RGBD_MoG.classify. intros Hc.
  destruct (nth_error (RGBD_MoG.gaussians st) k) as [g0|]; [|discriminate].
  destruct (RGBD_MoG.matching st _) as [mc|]; [|discriminate].
  destruct (RGBD_MoG.update st _ mc n) as [g2|]; [|discriminate].
  destruct (RGBD_MoG.pixel_value fuel st g2 mc) as [v|] eqn:Ev;
    [|discriminate].
  destruct (set_px (RGBD_MoG.mask st) _ _ v) as [m|] eqn:Em; [|discriminate].
  injection Hc as <-. simpl.
  exists (fst (RGBD_MoG.index g2)), (snd (RGBD_MoG.index g2)), v.
  split; [eapply pixel_value_range; eauto|exact Em].
Qed.

(** RGBD_MoG starts from an all-zero mask, and [set_mask] writes 0 or
    255 only. *)
Lemma rgbd_init_mask_values (rgb : image (list Q)) (depth : image Q)
    (st : RGBD_MoG.state) :
  RGBD_MoG.init rgb depth = Some st ->
  all_entries zero_or_255 (RGBD_MoG.mask st).
Proof.
  unfold RGBD_MoG.init. intros Hi.
  destruct (RGB_to_YUV rgb) as [yuv|]; [|discriminate].
  destruct (RGBD_MoG.initialization _ _ _ yuv depth) as [gs|]; [|discriminate].
  injection Hi as <-. simpl.
  intros i j v Hv. left. exact (zeros_like_entries 0 depth i j v Hv).
Qed.

Lemma rgbd_set_mask_values (fuel : nat) (st st' : RGBD_MoG.state)
    (rgb : image (list Q)) (depth : image Q) :
  all_entries zero_or_255 (RGBD_MoG.mask st) ->
  RGBD_MoG.set_mask fuel st rgb depth = Some st' ->
  all_entries zero_or_255 (RGBD_MoG.mask st').
Proof.
  unfold RGBD_MoG.set_mask. intros Hall Hs.
  destruct (RGB_to_YUV rgb) as [yuv|]; [|discriminate].
  destruct (RGBD_MoG.gaussians (RGBD_MoG.with_frame st yuv depth))
    as [|g gs] eqn:Eg; [discriminate|].
  destruct (RGBD_MoG.depth_observations g) as [|o os]; [discriminate|].
  apply (foldM_keeps _ _ _ (RGBD_MoG.classify fuel (snd o + 1))
           RGBD_MoG.mask zero_or_255 (rgbd_classify_writes fuel (snd o + 1))
           _ _ _ Hs).
  exact Hall.
Qed.

(** C1 (the code breaks it): built from one dark pixel with a depth
    reading and shown the same pixel at luminance 10 without a depth
    reading, RGBD_MoG answers background (0) and Fast_RGBD_MoG
    answers foreground (255). *)
Theorem fast_mask_differs_from_reference :
  Fast_RGBD_MoG.reference_mask 100
    Fast_RGBD_MoG.first_rgb Fast_RGBD_MoG.first_depth
    Fast_RGBD_MoG.second_rgb Fast_RGBD_MoG.second_depth = Some [[0]] /\
  Fast_RGBD_MoG.fast_mask
    Fast_RGBD_MoG.first_rgb Fast_RGBD_MoG.first_depth
    Fast_RGBD_MoG.second_rgb Fast_RGBD_MoG.second_depth = Some [[255]].
Proof.
  split; vm_compute; reflexivity.
Qed.

End MixtureFacts.

(* ================================================================== *)
(** * Facts about RGB_MoG *)

Module RgbMogFacts.
Import Image ImageFacts Colour RGB_MoG.
Local Open Scope float_scope.

Lemma nth_error_map2 {A B C} (f : A -> B -> C) (a : list A) (b : list B)
    (i : nat) (x : A) (y : B) :
  nth_error a i = Some x -> nth_error b i = Some y ->
  nth_error (map2 f a b) i = Some (f x y).
Proof.
  revert a b; induction i as [|i IH]; intros [|a0 a] [|b0 b] Ha Hb;
    simpl in *; try discriminate.
  - congruence.
  - now apply IH.
Qed.

Lemma nth_error_map3 {A B C D} (f : A -> B -> C -> D) (a : list A)
    (b : list B) (c : list C) (i : nat) (x : A) (y : B) (z : C) :
  nth_error a i = Some x -> nth_error b i = Some y ->
  nth_error c i = Some z ->
  nth_error (map3 f a b c) i = Some (f x y z).
Proof.
  revert a b c; induction i as [|i IH]; intros [|a0 a] [|b0 b] [|c0 c] Ha Hb Hc;
    simpl in *; try discriminate.
  - congruence.
  - now apply IH.
Qed.

(** C4 (as the code has it): for a pixel with as many channels as the
    means of its mixture, when some component matches the current
    colour, a component that does not match has its weight decayed by
    (1 - alpha), its variance set to 4 and its mean set to the current
    colour; a matching component gets the weight (1 - alpha) w + alpha,
    the variance sqrt((1 - rho) variance^2 + rho * squaredError) and the
    mean (1 - rho) mean + rho * colour, with rho = alpha * density and
    squaredError summed over all components and channels.  Every
    operation is the binary64 one; the square root of a negative number
    is NaN. *)
Theorem update_components (np_exp : float -> float)
    (pow : float -> float -> float) (alfa : float) (cur : list float)
    (g : Gaussian) (i : nat) (w v : float) (mu : list float) (p : float) :
  let mc := fst (probability np_exp pow cur g) in
  let density := snd (probability np_exp pow cur g) in
  let g' := update alfa cur g mc density in
  Forall (fun mean_i => length mean_i = length cur) (color_mean g) ->
  any mc = true ->
  nth_error (weight g) i = Some w ->
  nth_error (color_variance g) i = Some v ->
  nth_error (color_mean g) i = Some mu ->
  nth_error density i = Some p ->
  (nth_error mc i = Some false ->
   nth_error (weight g') i = Some ((1 - alfa) * w) /\
   nth_error (color_variance g') i = Some 4 /\
   nth_error (color_mean g') i = Some cur) /\
  (nth_error mc i = Some true ->
   nth_error (weight g') i = Some ((1 - alfa) * w + alfa) /\
   nth_error (color_variance g') i
   = Some (PrimFloat.sqrt ((1 - alfa * p) * (v * v)
                           + alfa * p * squared_error cur g)) /\
   nth_error (color_mean g') i
   = Some (map2 (fun x c => (1 - alfa * p) * x + alfa * p * c) mu cur)).
Proof.
  intros mc density g' _ Hany Hw Hv Hmu Hp.
  assert (Hro : nth_error (map (PrimFloat.mul alfa) density) i
                = Some (alfa * p)).
  { rewrite nth_error_map, Hp. reflexivity. }
  assert (Hum : forall m, nth_error mc i = Some m ->
    nth_error
      (map (fun m : bool =>
              if any mc then (if m then 1 else 0) else (-1))%Z mc) i
    = Some (if m then 1 else 0)%Z).
  { intros m Hm. rewrite nth_error_map, Hm, Hany. reflexivity. }
  unfold g', update; cbn [weight color_variance color_mean].
  split; intros Hm; specialize (Hum _ Hm).
  - rewrite (nth_error_map2 _ _ _ _ _ _ Hum Hw).
    rewrite (nth_error_map3 _ _ _ _ _ _ _ _ Hum Hro Hv).
    rewrite (nth_error_map3 _ _ _ _ _ _ _ _ Hum Hro Hmu).
    repeat split.
  - rewrite (nth_error_map2 _ _ _ _ _ _ Hum Hw).
    rewrite (nth_error_map3 _ _ _ _ _ _ _ _ Hum Hro Hv).
    rewrite (nth_error_map3 _ _ _ _ _ _ _ _ Hum Hro Hmu).
    repeat split.
Qed.

(** The sample pixel: the first component matches, the second does not. *)
Lemma sample_matching :
  fst (probability sample_exp sample_pow sample_colour sample_gaussian)
  = [true; false].
Proof.
  vm_compute. reflexivity.
Qed.

Lemma update_components_witness :
  (nth_error (weight sample_updated) 1 = Some ((1 - 0.025) * 0.5) /\
   nth_error (color_variance sample_updated) 1 = Some 4 /\
   nth_error (color_mean sample_updated) 1 = Some sample_colour) /\
  (nth_error (weight sample_updated) 0 = Some ((1 - 0.025) * 0.5 + 0.025) /\
   nth_error (color_variance sample_updated) 0
   = Some (PrimFloat.sqrt
             ((1 - 0.025 * 0.063493635934240969) * (1 * 1)
              + 0.025 * 0.063493635934240969
                * squared_error sample_colour sample_gaussian)) /\
   nth_error (color_mean sample_updated) 0
   = Some (map2 (fun x c => (1 - 0.025 * 0.063493635934240969) * x
                            + 0.025 * 0.063493635934240969 * c)
             [0; 0; 0] sample_colour)).
Proof.
  split.
  - refine (proj1 (update_components sample_exp sample_pow 0.025
                     sample_colour sample_gaussian 1 0.5 1 [10; 0; 0] _ _ _
                     eq_refl eq_refl eq_refl eq_refl)
              _).
    + repeat constructor.
    + vm_compute. reflexivity.
    + vm_compute. reflexivity.
  - refine (proj2 (update_components sample_exp sample_pow 0.025
                     sample_colour sample_gaussian 0 0.5 1 [0; 0; 0]
                     0.063493635934240969 _ _ eq_refl eq_refl eq_refl _)
              _).
    + repeat constructor.
    + vm_compute. reflexivity.
    + vm_compute. reflexivity.
    + vm_compute. reflexivity.
Defined.

(** C4 (the claim as worded fails): while the first component matches,
    the second, which does not, has its variance moved from 1 to 4 and its
    mean moved from (10, 0, 0) to the current colour (0, 0, 0). *)
Lemma update_resets_unmatched :
  fst (probability sample_exp sample_pow sample_colour sample_gaussian)
  = [true; false] /\
  nth_error (color_variance sample_gaussian) 1 = Some 1 /\
  nth_error
    (color_variance (update 0.025 sample_colour sample_gaussian
               (fst (probability sample_exp sample_pow sample_colour
                       sample_gaussian))
               (snd (probability sample_exp sample_pow sample_colour
                       sample_gaussian)))) 1
  = Some 4 /\
  nth_error (color_mean sample_gaussian) 1 = Some [10; 0; 0] /\
  nth_error
    (color_mean (update 0.025 sample_colour sample_gaussian
               (fst (probability sample_exp sample_pow sample_colour
                       sample_gaussian))
               (snd (probability sample_exp sample_pow sample_colour
                       sample_gaussian)))) 1
  = Some [0; 0; 0].
Proof.
  vm_compute. repeat split; reflexivity.
Qed.

(** Once a component has narrowed on a pixel that does not change,
    [learning_rate_ro] exceeds 1, the radicand of its variance update is
    negative and the variance stored is NaN. *)
Lemma update_variance_nan :
  fst (probability sample_exp sample_pow sample_colour static_gaussian)
  = [true; true] /\
  map (fun ro => PrimFloat.ltb 1 ro)
    (map (PrimFloat.mul 0.025)
       (snd (probability sample_exp sample_pow sample_colour
               static_gaussian)))
  = [true; false] /\
  map is_nan
    (color_variance (update 0.025 sample_colour static_gaussian
               (fst (probability sample_exp sample_pow sample_colour
                       static_gaussian))
               (snd (probability sample_exp sample_pow sample_colour
                       static_gaussian))))
  = [true; false].
Proof.
  vm_compute. repeat split; reflexivity.
Qed.

(** ** The mask values of RGB_MoG *)

Definition zero_or_255 (v : float) : Prop := v = 0 \/ v = 255.

Section MaskValues.

Variable np_exp : float -> float.
Variable pow : float -> float -> float.

Lemma rgb_classify_writes (st : state) (k : nat) (st' : state) :
  classify np_exp pow st k = Some st' ->
  exists i j v, zero_or_255 v /\ set_px (mask st) i j v = Some (mask st').
Proof.
  unfold classify. intros Hc.
  destruct (nth_error (gaussians st) k) as [g0|]; [|discriminate].
  destruct (get_px (current_rgb st) _ _) as [cur|]; [|discriminate].
  destruct (probability np_exp pow cur (set_raking g0)) as [mc density].
  destruct (set_px (mask st) _ _ (make_mask mc)) as [m|] eqn:Em;
    [|discriminate].
  injection Hc as <-. simpl.
  eexists _, _, (make_mask mc). split; [|exact Em].
  unfold make_mask. destruct (any mc); [now left|now right].
Qed.

Lemma rgb_set_mask_values (st st' : state) (rgb : image (list float)) :
  all_entries zero_or_255 (mask st) ->
  set_mask np_exp pow st rgb = Some st' ->
  all_entries zero_or_255 (mask st').
Proof.
  unfold set_mask. intros Hall Hs.
  apply (foldM_keeps _ _ _ (classify np_exp pow) mask zero_or_255
           rgb_classify_writes _ _ _ Hs).
  exact Hall.
Qed.

End MaskValues.

Lemma rgb_init_mask_values (rgb : image (list float)) (st : state) :
  init rgb = Some st -> all_entries zero_or_255 (mask st).
Proof.
  unfold init. intros Hi.
  destruct (all_some _) as [gs|]; [|discriminate].
  injection Hi as <-. simpl.
  intros i j v Hv. left. unfold get_px in Hv.
  destruct (nth_error (repeat (repeat 0 (shape1 rgb)) (shape0 rgb)) i)
    as [row|] eqn:Er; [|discriminate].
  apply nth_error_In in Er. apply repeat_spec in Er. subst row.
  apply nth_error_In in Hv. now apply repeat_spec in Hv.
Qed.

End RgbMogFacts.

(* ================================================================== *)
(** * The mask conventions of the four per-pixel detectors *)

Module MaskConvention.
Import Image.

(** C9: a full-frame classification call keeps each detector's mask
    convention.  ViBE's and DEVB's [set_mask], run on a mask of the
    frame's shape, leave 0 or 1 in every entry, whatever the mask held
    before.  RGB_MoG and RGBD_MoG start from an all-zero mask, and their
    [set_mask] writes 0 or 255 only, so every entry is 0 or 255 after
    any number of calls. *)
Theorem mask_value_convention :
  (forall (st st' : ViBE.state) (t t' : tape),
     has_shape (shape0 (ViBE.current_rgb st)) (shape1 (ViBE.current_rgb st))
       (ViBE.mask st) ->
     ViBE.set_mask st t = Some (st', t') ->
     all_entries (fun v => v = 0 \/ v = 1)%Q (ViBE.mask st')) /\
  (forall (st st' : DEVB.state) (t t' : tape),
     has_shape (shape0 (DEVB.current_rgb st)) (shape1 (DEVB.current_rgb st))
       (DEVB.mask st) ->
     DEVB.set_mask st t = Some (st', t') ->
     all_entries (fun v => v = 0 \/ v = 1)%Q (DEVB.mask st')) /\
  (forall (rgb : image (list float)) (st : RGB_MoG.state),
     RGB_MoG.init rgb = Some st ->
     all_entries (fun v => v = 0 \/ v = 255)%float (RGB_MoG.mask st)) /\
  (forall (np_exp : float -> float) (pow : float -> float -> float)
          (st st' : RGB_MoG.state) (rgb : image (list float)),
     all_entries (fun v => v = 0 \/ v = 255)%float (RGB_MoG.mask st) ->
     RGB_MoG.set_mask np_exp pow st rgb = Some st' ->
     all_entries (fun v => v = 0 \/ v = 255)%float (RGB_MoG.mask st')) /\
  (forall (rgb : image (list Q)) (depth : image Q) (st : RGBD_MoG.state),
     RGBD_MoG.init rgb depth = Some st ->
     all_entries (fun v => v = 0 \/ v = 255)%Q (RGBD_MoG.mask st)) /\
  (forall (fuel : nat) (st st' : RGBD_MoG.state) (rgb : image (list Q))
          (depth : image Q),
     all_entries (fun v => v = 0 \/ v = 255)%Q (RGBD_MoG.mask st) ->
     RGBD_MoG.set_mask fuel st rgb depth = Some st' ->
     all_entries (fun v => v = 0 \/ v = 255)%Q (RGBD_MoG.mask st')).
Proof.
  split; [|split; [|split; [|split; [|split]]]].
  - exact ViBEFacts.vibe_set_mask_values.
  - exact DEVBFacts.devb_set_mask_values.
  - exact RgbMogFacts.rgb_init_mask_values.
  - exact RgbMogFacts.rgb_set_mask_values.
  - exact MixtureFacts.rgbd_init_mask_values.
  - exact MixtureFacts.rgbd_set_mask_values.
Qed.

Lemma mask_value_convention_witness :
  match ViBE.set_mask ViBE.sample_state ViBE.sample_tape with
  | Some (st', _) => all_entries (fun v => v = 0 \/ v = 1)%Q (ViBE.mask st')
  | None => False
  end.
Proof.
  destruct (ViBE.set_mask ViBE.sample_state ViBE.sample_tape)
    as [[st' t']|] eqn:E.
  - apply (proj1 mask_value_convention ViBE.sample_state st'
             ViBE.sample_tape t'); [|exact E].
    split; [reflexivity|repeat constructor].
  - vm_compute in E. discriminate.
Defined.

End MaskConvention.


(* ================================================================== *)
(** * Facts about color_distance and the neighbour draw *)

Module DistanceFacts.
Import Numeric Image NumericFacts.
Import Lqa.
Local Open Scope Q_scope.

Lemma square_nonneg (d : Q) : 0 <= d * d.
Proof.
  destruct (Qlt_le_dec d 0) as [H|H].
  - setoid_replace (d * d) with ((- d) * (- d)) by ring.
    apply Qmult_le_0_compat; lra.
  - apply Qmult_le_0_compat; assumption.
Qed.

(** The running sum of [color_distance] from any two equal starts. *)
Lemma distance_loop_sym (a b : list Q) (acc acc' : Q) :
  acc == acc' ->
  fold_left (fun dist d => dist + d * d) (map2 Qminus a b) acc ==
  fold_left (fun dist d => dist + d * d) (map2 Qminus b a) acc'.
Proof.
  revert b acc acc'; induction a as [|x a IH]; intros [|y b] acc acc' E;
    simpl; auto.
  apply IH. rewrite E. ring.
Qed.

Lemma distance_loop_ge (ds : list Q) (acc : Q) :
  acc <= fold_left (fun dist d => dist + d * d) ds acc.
Proof.
  revert acc; induction ds as [|d ds IH]; intros acc; simpl.
  - lra.
  - pose proof (IH (acc + d * d)). pose proof (square_nonneg d). lra.
Qed.

Lemma distance_loop_all_zero (ds : list Q) (acc : Q) :
  Forall (fun d => d == 0) ds ->
  fold_left (fun dist d => dist + d * d) ds acc == acc.
Proof.
  intros F; revert acc; induction F as [|d ds Hd F IH]; intros acc; simpl.
  - reflexivity.
  - rewrite IH. rewrite Hd. ring.
Qed.

Lemma differences_zero (a b : list Q) :
  Forall2 Qeq a b -> Forall (fun d => d == 0) (map2 Qminus a b).
Proof.
  intros H; induction H as [|x y a b E F IH]; simpl; constructor.
  - lra.
  - exact IH.
Qed.

(** X2: for two pixels with the same number of channels,
    [color_distance] does not depend on the order of the two pixels, it
    is never negative, and it is zero for two equal pixels. *)
Theorem color_distance_sym_nonneg (a b : list Q) :
  length a = length b ->
  color_distance a b == color_distance b a /\
  0 <= color_distance a b /\
  (Forall2 Qeq a b -> color_distance a b == 0).
Proof.
  intros _. unfold color_distance. split; [|split].
  - apply distance_loop_sym. reflexivity.
  - apply distance_loop_ge.
  - intros E. rewrite distance_loop_all_zero; [reflexivity|].
    now apply differences_zero.
Qed.

Lemma color_distance_sym_nonneg_witness :
  color_distance [1 # 2; 3; 0] [2 # 4; 3; 0]
  == color_distance [2 # 4; 3; 0] [1 # 2; 3; 0] /\
  0 <= color_distance [1 # 2; 3; 0] [2 # 4; 3; 0] /\
  (Forall2 Qeq [1 # 2; 3; 0] [2 # 4; 3; 0] ->
   color_distance [1 # 2; 3; 0] [2 # 4; 3; 0] == 0).
Proof.
  apply (color_distance_sym_nonneg [1 # 2; 3; 0] [2 # 4; 3; 0]).
  reflexivity.
Defined.

End DistanceFacts.

Module NeighbourFacts.
Import Numeric Image.

Lemma choice_in (area : list Z) (d : nat) :
  area <> [] -> In (choice area d) area.
Proof.
  intros H. unfold choice. apply nth_In.
  apply Nat.mod_upper_bound. destruct area; [congruence | simpl; lia].
Qed.

Lemma neighbour_in_range (index resolution : Z) (area : list Z)
    (t t' : tape) (n : Z) :
  get_random_neighbour index resolution area t = Some (n, t') ->
  (0 <= n < resolution)%Z /\ In (n - index)%Z area /\
  exists used, used <> [] /\ t = (used ++ t')%list.
Proof.
  revert t'; induction t as [|d r IH]; intros t' H; simpl in H.
  - discriminate.
  - destruct area as [|a0 area'] eqn:Ea; [discriminate|].
    rewrite <- Ea in *.
    destruct ((index + choice area d <? 0)%Z
              || (resolution <=? index + choice area d)%Z)%bool eqn:T.
    + destruct (IH _ H) as (R & I & used & U & E).
      repeat split; try tauto.
      exists (d :: used). split; [discriminate|]. simpl. congruence.
    + injection H as <- <-.
      apply orb_false_iff in T. destruct T as [T1 T2].
      apply Z.ltb_ge in T1. apply Z.leb_gt in T2.
      split; [lia|]. split.
      * replace (index + choice area d - index)%Z with (choice area d) by lia.
        apply choice_in. rewrite Ea. discriminate.
      * exists [d]. split; [discriminate | reflexivity].
Qed.

(** X4: an index that [get_random_neighbour] returns lies inside the
    picture, [0 <= n < resolution], and is [index] moved by one of the
    offsets of [area]; at least one draw was made. *)
Theorem get_random_neighbour_range (index resolution : Z) (area : list Z)
    (t t' : tape) (n : Z) :
  get_random_neighbour index resolution area t = Some (n, t') ->
  (0 <= n < resolution)%Z /\ In (n - index)%Z area /\
  exists used, used <> [] /\ t = (used ++ t')%list.
Proof.
  apply neighbour_in_range.
Qed.

Lemma get_random_neighbour_range_witness :
  (0 <= 2 < 3)%Z /\ In (2 - 0)%Z (potential_neighbours_of 4) /\
  exists used, used <> [] /\ [0; 7; 5; 9]%nat = (used ++ [9]%nat)%list.
Proof.
  apply (get_random_neighbour_range 0 3 (potential_neighbours_of 4)
           [0; 7; 5; 9]%nat [9]%nat 2).
  reflexivity.
Defined.

Lemma neighbour_stuck (index resolution : Z) (area : list Z) :
  (forall d, In d area -> (index + d < 0 \/ resolution <= index + d)%Z) ->
  forall t, get_random_neighbour index resolution area t = None.
Proof.
  intros H t; induction t as [|d r IH]; simpl; auto.
  destruct area as [|a0 area'] eqn:Ea; auto.
  rewrite <- Ea in *.
  assert (I : In (choice area d) area)
    by (apply choice_in; rewrite Ea; discriminate).
  destruct (H _ I) as [L|L].
  - apply Z.ltb_lt in L. rewrite L. simpl. exact IH.
  - apply Z.leb_le in L. rewrite L. rewrite orb_true_r. exact IH.
Qed.

(** X5: when no offset of [area] leads from [index] to a position inside
    the picture, [get_random_neighbour] never returns: however many draws
    the generator supplies, the loop is still running when they are used
    up.  A picture with a single row or column is such a case. *)
Theorem get_random_neighbour_no_room (index resolution : Z) (area : list Z) :
  (forall d, In d area -> (index + d < 0 \/ resolution <= index + d)%Z) ->
  forall t, get_random_neighbour index resolution area t = None.
Proof.
  apply neighbour_stuck.
Qed.

Lemma get_random_neighbour_no_room_witness :
  get_random_neighbour 0 1 (potential_neighbours_of 4)
    [3; 1; 4; 1; 5; 9; 2; 6]%nat = None.
Proof.
  apply (get_random_neighbour_no_room 0 1 (potential_neighbours_of 4)).
  intros d Hd. simpl in Hd.
  repeat (destruct Hd as [<-|Hd]; [lia|]). destruct Hd.
Defined.

(** The offsets a detector draws from, [np.arange(-a, a + 1)] without
    0, are the non-zero integers between [-a] and [a]. *)
Lemma potential_neighbours_in (a : nat) (z : Z) :
  In z (potential_neighbours_of a) <->
  (z <> 0 /\ - Z.of_nat a <= z <= Z.of_nat a)%Z.
Proof.
  unfold potential_neighbours_of. rewrite in_app_iff, !in_map_iff. split.
  - intros [(k & <- & Hk)|(k & <- & Hk)].
    + apply in_rev in Hk. apply in_seq in Hk. lia.
    + apply in_seq in Hk. lia.
  - intros [Hz Hr]. destruct (Z_lt_le_dec z 0) as [Hn|Hp].
    + left. exists (Z.to_nat (- z)). split; [lia|].
      apply in_rev. rewrite rev_involutive. apply in_seq. lia.
    + right. exists (Z.to_nat z). split; [lia|]. apply in_seq. lia.
Qed.

End NeighbourFacts.

(* ================================================================== *)
(** * Facts about ViBE's classification rule and its construction *)

Module ViBEModelFacts.
Import Numeric Image ImageFacts NeighbourFacts ViBE.
Local Open Scope Q_scope.

Lemma skipn_nth_error {A} (l : list A) (k : nat) (s : A) :
  nth_error l k = Some s -> skipn k l = s :: skipn (S k) l.
Proof.
  revert k; induction l as [|h t IH]; intros [|k] H; simpl in *;
    try discriminate.
  - congruence.
  - apply IH. exact H.
Qed.

(** The loop of [in_background], entered with fewer than [lambda] close
    samples counted so far. *)
Lemma in_background_loop_count (cur : list Q) (samples : list (list Q))
    (r : Q) (lambda : Z) (m : nat) :
  forall (k : nat) (c : Z),
    (k + m <= length samples)%nat -> (c < lambda)%Z ->
    in_background_loop cur samples r lambda (seq k m) c =
    Some (lambda <=?
          c + Z.of_nat
                (length (filter (fun s => Qlt_bool (color_distance cur s) r)
                           (firstn m (skipn k samples)))))%Z.
Proof.
  induction m as [|m IH]; intros k c Hk Hc.
  - simpl. f_equal. symmetry. apply Z.leb_gt. lia.
  - cbn [seq in_background_loop].
    destruct (nth_error samples k) as [s|] eqn:Es.
    2:{ apply nth_error_None in Es. lia. }
    rewrite (skipn_nth_error _ _ _ Es). cbn [firstn filter].
    destruct (Qlt_bool (color_distance cur s) r); cbn [length].
    + destruct (Z.leb_spec lambda (c + 1)) as [L|L].
      * f_equal. symmetry. apply Z.leb_le. lia.
      * rewrite IH by lia. f_equal. f_equal. lia.
    + destruct (Z.leb_spec lambda c) as [L|L]; [lia|].
      apply IH; lia.
Qed.



Lemma update_sample_frame (st st' : state) (gi gj si sj : nat)
    (t t' : tape) :
  update_sample st gi gj si sj t = Some (st', t') ->
  current_rgb st' = current_rgb st /\ previous_rgb st' = previous_rgb st.
Proof.
  unfold update_sample. intros Hu.
  destruct (randrange _ t) as [[k t1]|]; [|discriminate].
  destruct (get_px (current_rgb st) si sj); [|discriminate].
  destruct (get_px (background st) gi gj) as [samples|]; [|discriminate].
  destruct (k <? length samples)%nat; [|discriminate].
  destruct (set_px _ gi gj _); [|discriminate].
  injection Hu as <- _. split; reflexivity.
Qed.

(** X7: ViBE's [set_pixel] writes 0 at the pixel when [in_background]
    holds and 1 when it does not; a pixel found to be foreground changes
    nothing but that mask entry: the sample bank is left alone and no
    random number is drawn. *)
Theorem vibe_set_pixel_rule (st st' : state) (t t' : tape) (i j : nat) :
  set_pixel (st, t) (i, j) = Some (st', t') ->
  exists b, in_background st i j = Some b /\
    get_px (mask st') i j = Some (if b then 0 else 1) /\
    (b = false -> background st' = background st /\ t' = t).
Proof.
  cbn [set_pixel]. intros Hp.
  destruct (in_background st i j) as [[|]|]; [| |discriminate].
  - exists true. split; [reflexivity|].
    destruct (set_px (mask st) i j 0) as [m|] eqn:Em; [|discriminate].
    split; [|discriminate].
    apply ViBEFacts.vibe_refresh_mask in Hp. cbn in Hp. rewrite Hp.
    rewrite (get_set_px _ _ _ _ _ _ _ Em), !Nat.eqb_refl. reflexivity.
  - exists false. split; [reflexivity|].
    destruct (set_px (mask st) i j 1) as [m|] eqn:Em; [|discriminate].
    injection Hp as <- <-. cbn. split; [|auto].
    rewrite (get_set_px _ _ _ _ _ _ _ Em), !Nat.eqb_refl. reflexivity.
Qed.

Lemma vibe_set_pixel_rule_witness :
  exists b, in_background sample_state 0 1 = Some b /\
    get_px [[7; 1]; [1 # 2; 255]] 0 1 = Some (if b then 0 else 1) /\
    (b = false ->
     background (with_mask sample_state [[7; 1]; [1 # 2; 255]]) =
     background sample_state /\ sample_tape = sample_tape).
Proof.
  apply (vibe_set_pixel_rule sample_state
           (with_mask sample_state [[7; 1]; [1 # 2; 255]])
           sample_tape sample_tape 0 1).
  reflexivity.
Defined.

End ViBEModelFacts.

(* ================================================================== *)
(** * Facts about ViBE's initial sample bank *)

Module ViBEInitFacts.
Import Numeric Image ImageFacts NeighbourFacts ViBE.
Local Open Scope Q_scope.

(** What a state keeps while its bank is being filled. *)
Definition same_frame (st st' : state) : Prop :=
  current_rgb st' = current_rgb st /\ previous_rgb st' = previous_rgb st /\
  potential_neighbours st' = potential_neighbours st /\
  number_of_samples st' = number_of_samples st /\ mask st' = mask st.

Lemma same_frame_refl (st : state) : same_frame st st.
Proof. repeat split. Qed.

Lemma same_frame_trans (a b c : state) :
  same_frame a b -> same_frame b c -> same_frame a c.
Proof.
  unfold same_frame. intros (A1 & A2 & A3 & A4 & A5) (B1 & B2 & B3 & B4 & B5).
  repeat split; congruence.
Qed.

Lemma neighbour_colour_frame (st st' : state) (i j : nat) (s : list Q) :
  same_frame st st' -> neighbour_colour st i j s -> neighbour_colour st' i j s.
Proof.
  intros (A1 & A2 & A3 & A4 & A5) (i' & j' & Hi & Hj & Hg).
  exists i', j'. rewrite A1, A3. auto.
Qed.

Lemma fill_sample_step (i j k : nat) (st st' : state) (t t' : tape) :
  fill_sample i j (st, t) k = Some (st', t') ->
  same_frame st st' /\
  exists samples c,
    get_px (background st) i j = Some samples /\ (k < length samples)%nat /\
    neighbour_colour st i j c /\
    set_px (background st) i j (set_nth k c samples) = Some (background st').
Proof.
  cbn [fill_sample]. intros H.
  destruct (get_random_neighbour (Z.of_nat i) _ _ t) as [[ri t1]|] eqn:E1;
    [|discriminate].
  destruct (get_random_neighbour (Z.of_nat j) _ _ t1) as [[rj t2]|] eqn:E2;
    [|discriminate].
  destruct (get_px (current_rgb st) _ _) as [c|] eqn:Ec; [|discriminate].
  destruct (get_px (background st) i j) as [samples|] eqn:Es; [|discriminate].
  destruct (Nat.ltb_spec k (length samples)) as [Lk|Lk]; [|discriminate].
  destruct (set_px _ i j _) as [bg|] eqn:Eb; [|discriminate].
  injection H as <- <-. split; [repeat split|].
  exists samples, c. repeat split; auto.
  destruct (neighbour_in_range _ _ _ _ _ _ E1) as (R1 & I1 & _).
  destruct (neighbour_in_range _ _ _ _ _ _ E2) as (R2 & I2 & _).
  exists (Z.to_nat ri), (Z.to_nat rj).
  rewrite !Z2Nat.id by lia. auto.
Qed.

(** The bank of pixel [(i, j)] after the samples [ks] have been drawn:
    the other pixels and the other samples are untouched. *)
Lemma fill_samples_loop (i j : nat) (ks : list nat) :
  forall (st st' : state) (t t' : tape) (samples : list (list Q)),
    foldM (fill_sample i j) ks (st, t) = Some (st', t') ->
    get_px (background st) i j = Some samples ->
    same_frame st st' /\
    (forall i' j', (i', j') <> (i, j) ->
       get_px (background st') i' j' = get_px (background st) i' j') /\
    exists samples',
      get_px (background st') i j = Some samples' /\
      length samples' = length samples /\
      (forall k, In k ks ->
         exists c, nth_error samples' k = Some c /\ neighbour_colour st i j c) /\
      (forall k, ~ In k ks -> nth_error samples' k = nth_error samples k).
Proof.
  induction ks as [|k ks IH]; intros st st' t t' samples Hf Hs;
    cbn [foldM] in Hf.
  - injection Hf as <- <-. split; [apply same_frame_refl|].
    split; [auto|]. exists samples. repeat split; auto. intros k [].
  - destruct (fill_sample i j (st, t) k) as [[st1 t1]|] eqn:E1;
      [|discriminate].
    destruct (fill_sample_step _ _ _ _ _ _ _ E1)
      as (F1 & samples0 & c & Hs0 & Lk & Hc & Hset).
    assert (samples0 = samples) by congruence. subst samples0.
    assert (Hs1 : get_px (background st1) i j = Some (set_nth k c samples)).
    { rewrite (get_set_px _ _ _ _ _ _ _ Hset), !Nat.eqb_refl. reflexivity. }
    destruct (IH st1 st' t1 t' _ Hf Hs1)
      as (F2 & Hother & samples' & Hs' & Ls' & Hin & Hout).
    split; [eapply same_frame_trans; eauto|]. split.
    + intros i' j' Hne. rewrite (Hother i' j' Hne).
      rewrite (get_set_px _ _ _ _ _ _ _ Hset).
      destruct (Nat.eqb_spec i' i) as [->|Hi]; simpl; [|reflexivity].
      destruct (Nat.eqb_spec j' j) as [->|Hj]; simpl; [|reflexivity].
      congruence.
    + exists samples'. split; [exact Hs'|].
      split; [now rewrite Ls', set_nth_length|]. split.
      * intros k' Hk'.
        destruct (in_dec Nat.eq_dec k' ks) as [Hi|Hni].
        -- destruct (Hin k' Hi) as (c' & Hn & Hc').
           exists c'. split; [exact Hn|].
           destruct Hc' as (a & b & Ha & Hb & Hg). exists a, b.
           destruct F1 as (A1 & A2 & A3 & A4 & A5).
           rewrite <- A1, <- A3. auto.
        -- destruct Hk' as [<-|Hk']; [|contradiction].
           exists c. rewrite (Hout k Hni).
           split; [apply nth_error_set_nth_eq; exact Lk | exact Hc].
      * intros k' Hk'. rewrite (Hout k') by (intros C; apply Hk'; now right).
        apply nth_error_set_nth_neq. intros ->. apply Hk'. now left.
Qed.

(** One pixel of [initial_background]. *)
Lemma fill_pixel_step (i j : nat) (st st' : state) (t t' : tape) :
  fill_pixel (st, t) (i, j) = Some (st', t') ->
  same_frame st st' /\
  (forall i' j', (i', j') <> (i, j) ->
     get_px (background st') i' j' = get_px (background st) i' j') /\
  exists samples samples',
    get_px (background st) i j = Some samples /\
    get_px (background st') i j = Some samples' /\
    length samples' = length samples /\
    nth_error samples' 0 = get_px (current_rgb st) i j /\
    (forall k, (1 <= k < number_of_samples st)%nat ->
       exists c, nth_error samples' k = Some c /\ neighbour_colour st i j c).
Proof.
  cbn [fill_pixel]. intros H.
  destruct (get_px (current_rgb st) i j) as [c|] eqn:Ec; [|discriminate].
  destruct (get_px (background st) i j) as [samples|] eqn:Es; [|discriminate].
  destruct (Nat.ltb_spec 0 (length samples)) as [L0|L0]; [|discriminate].
  destruct (set_px (background st) i j _) as [bg|] eqn:Eb; [|discriminate].
  assert (Hs1 : get_px (background (with_background st bg)) i j
                = Some (set_nth 0 c samples)).
  { cbn. rewrite (get_set_px _ _ _ _ _ _ _ Eb), !Nat.eqb_refl. reflexivity. }
  destruct (fill_samples_loop i j _ _ _ _ _ _ H Hs1)
    as (F & Hother & samples' & Hs' & Ls' & Hin & Hout).
  split; [exact F|]. split.
  - intros i' j' Hne. rewrite (Hother i' j' Hne). cbn.
    rewrite (get_set_px _ _ _ _ _ _ _ Eb).
    destruct (Nat.eqb_spec i' i) as [->|Hi]; simpl; [|reflexivity].
    destruct (Nat.eqb_spec j' j) as [->|Hj]; simpl; [|reflexivity].
    congruence.
  - exists samples, samples'. split; [reflexivity|]. split; [exact Hs'|].
    split; [now rewrite Ls', set_nth_length|]. split.
    + rewrite Hout by (rewrite in_seq; lia).
      apply nth_error_set_nth_eq. exact L0.
    + intros k Hk. apply Hin. cbn. apply in_seq. lia.
Qed.

(** The bank of a pixel that [initial_background] has filled. *)
Definition filled (st0 st : state) (i j : nat) : Prop :=
  exists samples,
    get_px (background st) i j = Some samples /\
    nth_error samples 0 = get_px (current_rgb st0) i j /\
    (forall k, (1 <= k < number_of_samples st0)%nat ->
       exists c, nth_error samples k = Some c /\ neighbour_colour st0 i j c).

Lemma fill_pixels_loop (st0 : state) (ps : list (nat * nat)) :
  forall (st st' : state) (t t' : tape),
    foldM fill_pixel ps (st, t) = Some (st', t') ->
    same_frame st0 st ->
    same_frame st0 st' /\
    (forall i j, In (i, j) ps -> filled st0 st' i j) /\
    (forall i j, ~ In (i, j) ps ->
       get_px (background st') i j = get_px (background st) i j) /\
    (forall i j samples, get_px (background st) i j = Some samples ->
       exists samples', get_px (background st') i j = Some samples' /\
                        length samples' = length samples).
Proof.
  induction ps as [|[a b] ps IH]; intros st st' t t' Hf F0;
    cbn [foldM] in Hf.
  - injection Hf as <- <-. split; [exact F0|]. split; [intros i j []|].
    split; [auto|]. intros i j samples Hs. exists samples. auto.
  - destruct (fill_pixel (st, t) (a, b)) as [[st1 t1]|] eqn:E1;
      [|discriminate].
    destruct (fill_pixel_step _ _ _ _ _ _ E1)
      as (F1 & Hother & samples & samples1 & Hs & Hs1 & L1 & Hown & Hnb).
    assert (F01 : same_frame st0 st1) by (eapply same_frame_trans; eauto).
    destruct (IH st1 st' t1 t' Hf F01) as (F' & Hin & Hout & Hlen).
    split; [exact F'|]. split; [|split].
    + intros i j Hij.
      destruct (pixel_in_dec (i, j) ps) as [Hi|Hni]; [now apply Hin|].
      destruct Hij as [E|Hi]; [|contradiction].
      injection E as -> ->.
      exists samples1. rewrite (Hout i j Hni).
      destruct F0 as (A1 & A2 & A3 & A4 & A5).
      split; [exact Hs1|]. split; [now rewrite Hown, A1|].
      intros k Hk. rewrite <- A4 in Hk.
      destruct (Hnb k Hk) as (c & Hn & a' & b' & Ha & Hb & Hg).
      exists c. split; [exact Hn|]. exists a', b'.
      rewrite <- A1, <- A3. auto.
    + intros i j Hnij.
      rewrite (Hout i j) by (intros C; apply Hnij; now right).
      apply Hother. intros C. apply Hnij. left. congruence.
    + intros i j smp Hsmp.
      assert (D : {(i, j) = (a, b)} + {(i, j) <> (a, b)})
        by (decide equality; apply Nat.eq_dec).
      destruct D as [E|Hne].
      * injection E as -> ->.
        assert (smp = samples) by congruence. subst smp.
        destruct (Hlen a b samples1 Hs1) as (s' & Hs' & Ls').
        exists s'. split; [exact Hs'|congruence].
      * apply Hlen. rewrite (Hother i j Hne). exact Hsmp.
Qed.

(** X8: after [initial_background] the previous frame is a copy of the
    current one, and every pixel of the frame holds [number_of_samples]
    samples: the first is the pixel's own colour, each of the others is the
    colour of a pixel of the frame whose row and column offsets from the
    pixel are among [potential_neighbours].  Nothing of what [np.empty]
    left in the bank survives. *)
Theorem initial_background_samples (st st' : state) (t t' : tape) :
  bank_shape (shape0 (current_rgb st)) (shape1 (current_rgb st))
    (number_of_samples st) (background st) ->
  initial_background st t = Some (st', t') ->
  current_rgb st' = current_rgb st /\ previous_rgb st' = current_rgb st /\
  forall i j,
    (i < shape0 (current_rgb st))%nat -> (j < shape1 (current_rgb st))%nat ->
    exists samples,
      get_px (background st') i j = Some samples /\
      length samples = number_of_samples st /\
      nth_error samples 0 = get_px (current_rgb st) i j /\
      forall k, (1 <= k < number_of_samples st)%nat ->
        exists c, nth_error samples k = Some c /\ neighbour_colour st i j c.
Proof.
  intros Hb Hi. unfold initial_background in Hi. cbn in Hi.
  destruct (fill_pixels_loop (with_previous st (current_rgb st)) _ _ _ _ _ Hi
              (same_frame_refl _)) as ((A1 & A2 & _) & Hin & _ & Hlen).
  cbn in A1, A2. split; [exact A1|]. split; [exact A2|].
  intros i j Li Lj.
  destruct (Hin i j) as (samples & Hs & Hown & Hnb);
    [apply in_pixels; auto|].
  exists samples. split; [exact Hs|]. split; [|split].
  - destruct (Hb i j Li Lj) as (s0 & Hs0 & L0).
    destruct (Hlen i j s0 Hs0) as (s1 & Hs1 & L1). cbn in Hs1. congruence.
  - exact Hown.
  - exact Hnb.
Qed.

Lemma small_bank_shape : bank_shape 3 3 2 small_bank.
Proof.
  intros i j Li Lj.
  destruct i as [|[|[|i]]]; [| | |lia];
    (destruct j as [|[|[|j]]]; [| | |lia]);
    eexists; split; reflexivity.
Qed.

Lemma initial_background_samples_witness :
  exists st' t',
    initial_background small_state small_tape = Some (st', t') /\
    current_rgb st' = small_frame /\ previous_rgb st' = small_frame /\
    forall i j, (i < 3)%nat -> (j < 3)%nat ->
      exists samples,
        get_px (background st') i j = Some samples /\
        length samples = 2%nat /\
        nth_error samples 0 = get_px small_frame i j /\
        forall k, (1 <= k < 2)%nat ->
          exists c, nth_error samples k = Some c /\
                    neighbour_colour small_state i j c.
Proof.
  eexists. eexists. split; [vm_compute; reflexivity|].
  apply (initial_background_samples small_state _ small_tape []).
  - exact small_bank_shape.
  - vm_compute. reflexivity.
Defined.

Lemma initial_background_stuck (st : state) (t : tape) :
  (shape0 (current_rgb st) = 1 \/ shape1 (current_rgb st) = 1)%nat ->
  (1 <= shape0 (current_rgb st))%nat -> (1 <= shape1 (current_rgb st))%nat ->
  (2 <= number_of_samples st)%nat ->
  (forall d, In d (potential_neighbours st) -> d <> 0%Z) ->
  initial_background st t = None.
Proof.
  intros H1 Hh Hw Hn Hz. unfold initial_background.
  change (current_rgb (with_previous st (current_rgb st)))
    with (current_rgb st).
  change (previous_rgb (with_previous st (current_rgb st)))
    with (current_rgb st).
  destruct (shape0 (current_rgb st)) as [|h] eqn:Eh; [lia|].
  destruct (shape1 (current_rgb st)) as [|w] eqn:Ew; [lia|].
  unfold pixels. cbn [seq list_prod map app foldM].
  cbn [fill_pixel with_previous current_rgb background number_of_samples].
  destruct (get_px (current_rgb st) 0 0) as [c|]; [|reflexivity].
  destruct (get_px (background st) 0 0) as [samples|]; [|reflexivity].
  destruct (0 <? length samples)%nat; [|reflexivity].
  destruct (set_px (background st) 0 0 _) as [bg|]; [|reflexivity].
  destruct (number_of_samples st) as [|[|n]] eqn:En; [lia|lia|].
  cbn [Nat.sub seq foldM fill_sample with_background current_rgb
       potential_neighbours].
  change (current_rgb (with_previous st (current_rgb st)))
    with (current_rgb st).
  change (potential_neighbours (with_previous st (current_rgb st)))
    with (potential_neighbours st).
  rewrite Eh, Ew.
  destruct H1 as [H1|H1].
  - injection H1 as ->.
    rewrite neighbour_stuck; [reflexivity|].
    intros d Hd. specialize (Hz d Hd). cbn. lia.
  - injection H1 as ->.
    destruct (get_random_neighbour _ _ _ t) as [[ri t1]|]; [|reflexivity].
    rewrite neighbour_stuck; [reflexivity|].
    intros d Hd. specialize (Hz d Hd). cbn. lia.
Qed.

(** X9: a ViBE detector cannot be constructed for a picture that has a
    single row or a single column when it is to keep two samples or more:
    [initial_background] asks [get_random_neighbour] for a neighbour
    inside the picture along that axis, there is none, and the search
    never ends, whatever the generator draws. *)
Theorem vibe_init_single_line (rgb_im : image (list Q))
    (number_of_samples : nat) (threshold_lambda : Z) (threshold_r : Q)
    (time_factor neighbourhood_area : nat) (empty_previous : image (list Q))
    (empty_background : image (list (list Q))) (empty_mask : image Q)
    (t : tape) :
  (shape0 rgb_im = 1 \/ shape1 rgb_im = 1)%nat ->
  (1 <= shape0 rgb_im)%nat -> (1 <= shape1 rgb_im)%nat ->
  (2 <= number_of_samples)%nat ->
  init rgb_im number_of_samples threshold_lambda threshold_r time_factor
    neighbourhood_area empty_previous empty_background empty_mask t = None.
Proof.
  intros H1 Hh Hw Hn. unfold init.
  apply initial_background_stuck; cbn; auto.
  intros d Hd. apply potential_neighbours_in in Hd. tauto.
Qed.

Lemma vibe_init_single_line_witness :
  init [[[0; 0; 0]; [1; 1; 1]; [2; 2; 2]]] 20 2 (20 # 255) 16 4
    [[[0; 0; 0]; [0; 0; 0]; [0; 0; 0]]]
    [repeat (repeat [0; 0; 0] 20) 3] [[0; 0; 0]]
    [3; 1; 4; 1; 5; 9; 2; 6; 5; 3; 5; 8; 9; 7; 9]%nat = None.
Proof.
  apply vibe_init_single_line; cbn; lia.
Defined.

End ViBEInitFacts.

(* ================================================================== *)
(** * Facts about DEVB's depth gate *)

Module DEVBGateFacts.
Import Numeric Image ImageFacts NumericFacts DEVB DEVBFacts.
Import Lqa.
Local Open Scope Q_scope.

Lemma set_nth_same {A} (k : nat) (v : A) (l : list A) :
  nth_error l k = Some v -> set_nth k v l = l.
Proof.
  revert k; induction l as [|h t IH]; intros [|k] H; simpl in *;
    try discriminate.
  - congruence.
  - f_equal. apply IH. exact H.
Qed.

(** Writing back the value an entry already has changes nothing. *)
Lemma set_px_same {A} (m : image A) (i j : nat) (v : A) :
  get_px m i j = Some v -> set_px m i j v = Some m.
Proof.
  unfold get_px, set_px. intros H.
  destruct (nth_error m i) as [row|] eqn:Er; [|discriminate].
  assert (L : (j < length row)%nat) by (apply nth_error_Some; congruence).
  apply Nat.ltb_lt in L. rewrite L.
  rewrite (set_nth_same j v row H), (set_nth_same i row m Er). reflexivity.
Qed.

(** What the sample updates leave alone. *)
Definition same_depths (st st' : state) : Prop :=
  current_depth st' = current_depth st /\
  depth_background st' = depth_background st /\
  threshold_theta st' = threshold_theta st.

Lemma update_sample_depths (st st' : state) (gi gj si sj : nat)
    (t t' : tape) :
  update_sample st gi gj si sj t = Some (st', t') -> same_depths st st'.
Proof.
  unfold update_sample. intros Hu.
  destruct (randrange _ t) as [[k t1]|]; [|discriminate].
  destruct (get_px (current_rgb st) si sj); [|discriminate].
  destruct (get_px (background st) gi gj) as [samples|]; [|discriminate].
  destruct (k <? length samples)%nat; [|discriminate].
  destruct (set_px _ gi gj _); [|discriminate].
  injection Hu as <- _. repeat split.
Qed.

Lemma refresh_own_depths (st st' : state) (i j : nat) (t t' : tape) :
  refresh_own st i j t = Some (st', t') -> same_depths st st'.
Proof.
  unfold refresh_own. intros Hr.
  destruct (time_factor_chance _ t) as [[[|] t1]|]; [| |discriminate].
  - eapply update_sample_depths; eauto.
  - injection Hr as <- _. repeat split.
Qed.

Lemma refresh_neighbour_depths (st st' : state) (i j : nat) (t t' : tape)
    (b : bool) :
  refresh_neighbour st i j t = Some (st', t', b) -> same_depths st st'.
Proof.
  unfold refresh_neighbour. intros Hr.
  destruct (time_factor_chance _ t) as [[[|] t1]|]; [| |discriminate].
  - destruct (get_random_neighbour _ _ _ t1) as [[ni t2]|]; [|discriminate].
    destruct (get_random_neighbour _ _ _ t2) as [[nj t3]|]; [|discriminate].
    destruct (update_sample st _ _ i j t3) as [[st1 t4]|] eqn:Eu;
      [|discriminate].
    injection Hr as <- _ _. eapply update_sample_depths; eauto.
  - injection Hr as <- _ _. repeat split.
Qed.



Section GuardedPixelLoop.

Variable S : Type.
Variable f : S -> nat * nat -> option S.
Variable mask_of : S -> image Q.
Variable V : Q -> Prop.
Variable I : S -> Prop.

Hypothesis keeps : forall s ij s', I s -> f s ij = Some s' -> I s'.
Hypothesis writes : forall s ij s', I s ->
  f s ij = Some s' ->
  exists v, V v /\ set_px (mask_of s) (fst ij) (snd ij) v = Some (mask_of s').

(** [foldM_writes] for a loop that relies on an invariant of its state. *)
Lemma foldM_writes_under (h w : nat) (ps : list (nat * nat)) :
  forall s s', foldM f ps s = Some s' -> I s ->
    has_shape h w (mask_of s) ->
    I s' /\ has_shape h w (mask_of s') /\
    (forall i j, In (i, j) ps ->
       forall v, get_px (mask_of s') i j = Some v -> V v) /\
    (forall i j, ~ In (i, j) ps ->
       get_px (mask_of s') i j = get_px (mask_of s) i j).
Proof using keeps writes.
  induction ps as [|[a b] ps IH]; intros s s' Hf Hi Hsh; cbn [foldM] in Hf.
  - injection Hf as <-. split; [exact Hi|]. split; [exact Hsh|].
    split; [intros i j []|auto].
  - destruct (f s (a, b)) as [s1|] eqn:E1; [|discriminate].
    destruct (writes s (a, b) s1 Hi E1) as (v & Hv & Hset). simpl in Hset.
    assert (Hsh1 := set_px_shape _ _ _ _ h w _ Hset Hsh).
    destruct (IH s1 s' Hf (keeps _ _ _ Hi E1) Hsh1)
      as (Hi' & Hsh' & Hin & Hout).
    split; [exact Hi'|]. split; [exact Hsh'|]. split.
    + intros i j Hij x Hx.
      destruct (pixel_in_dec (i, j) ps) as [Hp|Hnp]; [now apply (Hin i j)|].
      destruct Hij as [E|Hp]; [|contradiction].
      injection E as -> ->.
      rewrite (Hout i j Hnp), (get_set_px _ _ _ _ _ _ _ Hset) in Hx.
      rewrite !Nat.eqb_refl in Hx. simpl in Hx. congruence.
    + intros i j Hnij.
      rewrite (Hout i j) by (intros C; apply Hnij; now right).
      rewrite (get_set_px _ _ _ _ _ _ _ Hset).
      destruct (Nat.eqb_spec i a) as [->|Hne]; simpl; [|reflexivity].
      destruct (Nat.eqb_spec j b) as [->|Hnb]; simpl; [|reflexivity].
      exfalso. apply Hnij. now left.
Qed.

End GuardedPixelLoop.

(** The depth background is the depth frame itself, as it is from the
    constructor until [set_images] brings the next frame. *)
Definition first_frame (s : state * tape) : Prop :=
  depth_background (fst s) = current_depth (fst s) /\
  0 <= threshold_theta (fst s).

Lemma snap_depth_same (st st' : state) (i j : nat) :
  depth_background st = current_depth st ->
  snap_depth st i j = Some st' -> st' = st.
Proof.
  unfold snap_depth. intros E H.
  destruct (get_px (current_depth st) i j) as [d|] eqn:Ed; [|discriminate].
  rewrite E, (set_px_same _ _ _ _ Ed) in H. injection H as <-.
  unfold with_depth_background. destruct st; cbn in *. subst. reflexivity.
Qed.

Lemma first_frame_step (s : state * tape) (ij : nat * nat)
    (s' : state * tape) :
  first_frame s -> set_pixel s ij = Some s' ->
  first_frame s' /\
  set_px (mask (fst s)) (fst ij) (snd ij) 0 = Some (mask (fst s')).
Proof.
  destruct s as [st t], s' as [st' t'], ij as [i j].
  unfold first_frame. cbn [fst snd set_pixel]. intros [Hd Ht] Hp.
  assert (K : forall a b : state, same_depths a b ->
            depth_background a = current_depth a /\ 0 <= threshold_theta a ->
            depth_background b = current_depth b /\ 0 <= threshold_theta b).
  { intros a b (A1 & A2 & A3) [B1 B2]. rewrite A1, A2, A3. auto. }
  destruct (in_background st i j) as [[|]|]; [| |discriminate].
  - destruct (set_px (mask st) i j 0) as [m|] eqn:Em; [|discriminate].
    destruct (refresh_own _ i j t) as [[st1 t1]|] eqn:E1; [|discriminate].
    pose proof (refresh_own_mask _ _ _ _ _ _ E1) as M1. cbn in M1.
    apply refresh_own_depths in E1.
    destruct (refresh_neighbour st1 i j t1) as [[[st2 t2] b]|] eqn:E2;
      [|discriminate].
    pose proof (refresh_neighbour_mask _ _ _ _ _ _ _ E2) as M2.
    apply refresh_neighbour_depths in E2.
    assert (F2 : depth_background st2 = current_depth st2 /\
                 0 <= threshold_theta st2).
    { apply (K st1 st2 E2). apply (K (with_mask st m) st1 E1). cbn. auto. }
    destruct b.
    + destruct (snap_depth st2 i j) as [st3|] eqn:E3; [|discriminate].
      apply snap_depth_same in E3; [|tauto]. subst st3.
      injection Hp as <- _. split; [exact F2|congruence].
    + injection Hp as <- _. split; [exact F2|congruence].
  - rewrite Hd in Hp.
    destruct (get_px (current_depth st) i j) as [d|]; [|discriminate].
    assert (Et : Qlt_bool (threshold_theta st) (d - d) = false).
    { destruct (Qlt_bool _ _) eqn:E; [|reflexivity].
      apply Qlt_bool_iff in E. lra. }
    rewrite Et in Hp.
    destruct (set_px (mask st) i j 0) as [m|] eqn:Em; [|discriminate].
    injection Hp as <- _. cbn. auto.
Qed.

(** X11: while the depth background is the depth frame itself, as the
    constructor leaves it, DEVB's [set_mask] flags nothing: with a
    threshold [threshold_theta] that is not negative, every entry of the
    mask it leaves is 0, whatever the colours and the random draws are. *)
Theorem devb_first_frame_mask (st st' : state) (t t' : tape) :
  depth_background st = current_depth st ->
  0 <= threshold_theta st ->
  has_shape (shape0 (current_rgb st)) (shape1 (current_rgb st)) (mask st) ->
  set_mask st t = Some (st', t') ->
  all_entries (fun v => v = 0) (mask st').
Proof.
  intros Hd Ht Hsh Hm. unfold set_mask in Hm.
  destruct (foldM_writes_under (state * tape) set_pixel
              (fun s => mask (fst s)) (fun v => v = 0) first_frame
              (fun s ij s' Hi Hf => proj1 (first_frame_step s ij s' Hi Hf))
              (fun s ij s' Hi Hf =>
                 ex_intro _ 0 (conj eq_refl
                                 (proj2 (first_frame_step s ij s' Hi Hf))))
              _ _ _ (st, t) (st', t') Hm (conj Hd Ht) Hsh)
    as (_ & Hsh' & Hin & _).
  intros i j v Hg. apply (Hin i j); [|exact Hg].
  apply in_pixels. eapply get_px_in_shape; eauto.
Qed.

Lemma devb_first_frame_mask_witness :
  exists st' t',
    set_mask first_state sample_tape = Some (st', t') /\
    all_entries (fun v => v = 0) (mask st').
Proof.
  eexists. eexists. split; [vm_compute; reflexivity|].
  eapply devb_first_frame_mask with (st := first_state) (t := sample_tape).
  - reflexivity.
  - vm_compute. discriminate.
  - repeat constructor.
  - vm_compute. reflexivity.
Defined.

End DEVBGateFacts.

(* ================================================================== *)
(** * Facts about FrameDifference *)

Module FrameDifferenceFacts.
Import Numeric Image ImageFacts NumericFacts FrameDifference.
Import Lqa.
Local Open Scope Q_scope.

(** The mask after the loop has passed over the pixels [ps]. *)
Lemma subtraction_loop (st : state) (ps : list (nat * nat)) :
  forall m0 m, foldM (subtraction_pixel st) ps m0 = Some m ->
    (forall i j, In (i, j) ps ->
       exists b, moving st i j = Some b /\
                 get_px m i j = Some (if b then 1 else 0)) /\
    (forall i j, ~ In (i, j) ps -> get_px m i j = get_px m0 i j).
Proof.
  induction ps as [|[a b] ps IH]; intros m0 m Hf; cbn [foldM] in Hf.
  - injection Hf as <-. split; [intros i j []|auto].
  - destruct (subtraction_pixel st m0 (a, b)) as [m1|] eqn:E1;
      [|discriminate].
    unfold subtraction_pixel in E1. cbn [fst snd] in E1.
    destruct (moving st a b) as [v|] eqn:Ev; [|discriminate].
    destruct (IH m1 m Hf) as (Hin & Hout). split.
    + intros i j Hij.
      destruct (pixel_in_dec (i, j) ps) as [Hp|Hnp]; [now apply Hin|].
      destruct Hij as [E|Hp]; [|contradiction].
      injection E as -> ->. exists v. split; [exact Ev|].
      rewrite (Hout i j Hnp), (get_set_px _ _ _ _ _ _ _ E1), !Nat.eqb_refl.
      reflexivity.
    + intros i j Hnij.
      rewrite (Hout i j) by (intros C; apply Hnij; now right).
      rewrite (get_set_px _ _ _ _ _ _ _ E1).
      destruct (Nat.eqb_spec i a) as [->|Hne]; simpl; [|reflexivity].
      destruct (Nat.eqb_spec j b) as [->|Hnb]; simpl; [|reflexivity].
      exfalso. apply Hnij. now left.
Qed.



Lemma still_not_moving (st : state) (i j : nat) (b : bool) :
  still st -> moving st i j = Some b -> b = false.
Proof.
  unfold moving. intros Hs Hv.
  destruct (get_px (current_rgb st) i j) as [cur|] eqn:Ec; [|discriminate].
  destruct (get_px (previous_rgb st) i j) as [prev|] eqn:Ep; [|discriminate].
  destruct (channel_difference cur prev 0) as [d0|] eqn:E0; [|discriminate].
  destruct (channel_difference cur prev 1) as [d1|] eqn:E1; [|discriminate].
  destruct (channel_difference cur prev 2) as [d2|] eqn:E2; [|discriminate].
  destruct (Qlt_bool (rgb_threshold st) _) eqn:Et; [|congruence].
  apply Qlt_bool_iff in Et.
  destruct (get_px (previous_depth st) i j) as [pd|] eqn:Epd; [|discriminate].
  destruct (get_px (current_depth st) i j) as [cd|] eqn:Ecd; [|discriminate].
  injection Hv as <-.
  destruct (Qlt_bool 0 (pd - cd)) eqn:Ed; [|reflexivity].
  apply Qlt_bool_iff in Ed. exfalso.
  destruct Hs as [Hs|[Hs Hthr]].
  - rewrite Hs in Epd. assert (pd = cd) by congruence. subst. lra.
  - rewrite Hs in Ep. assert (prev = cur) by congruence. subst prev.
    assert (Z : forall c d, channel_difference cur cur c = Some d -> d == 0).
    { unfold channel_difference. intros c d H.
      destruct (nth_error cur c); [|discriminate].
      injection H as <-. ring. }
    rewrite (Z _ _ E0), (Z _ _ E1), (Z _ _ E2) in Et. lra.
Qed.

Lemma still_mask_zero (st : state) (m : image Q) :
  still st -> subtraction_mask st = Some m ->
  all_entries (fun v => v = 0) m.
Proof.
  intros Hs Hm. unfold subtraction_mask in Hm.
  destruct (subtraction_loop _ _ _ _ Hm) as (Hin & Hout).
  intros i j v Hg.
  destruct (pixel_in_dec (i, j)
              (pixels (shape0 (current_rgb st)) (shape1 (current_rgb st))))
    as [Hp|Hnp].
  - destruct (Hin i j Hp) as (b & Hb & Hg').
    rewrite (still_not_moving _ _ _ _ Hs Hb) in Hg'. congruence.
  - rewrite (Hout i j Hnp) in Hg.
    apply (zeros_like_entries 0 (current_depth st) i j v Hg).
Qed.

(** X13: when nothing can have moved between the two frames that
    [FrameDifference] holds, because the depth frames are equal, or the
    colour frames are equal and [rgb_threshold] is not negative, every
    entry of the mask that [subtraction_mask] returns is 0. *)
Theorem subtraction_mask_still (st : state) (m : image Q) :
  still st -> subtraction_mask st = Some m ->
  all_entries (fun v => v = 0) m.
Proof.
  apply still_mask_zero.
Qed.

Lemma subtraction_mask_still_witness :
  all_entries (fun v => v = 0) [[0; 0]; [0; 0]].
Proof.
  apply (subtraction_mask_still
           (set_current_depth sample_state (current_depth sample_state))).
  - left. reflexivity.
  - reflexivity.
Defined.

Lemma concat_entries {A} (V : A -> Prop) (m : image A) :
  all_entries V m -> forall x, In x (concat m) -> V x.
Proof.
  intros H x Hx. apply in_concat in Hx. destruct Hx as (row & Hr & Hx).
  destruct (In_nth_error _ _ Hr) as [i Hi].
  destruct (In_nth_error _ _ Hx) as [j Hj].
  apply (H i j). unfold get_px. rewrite Hi. exact Hj.
Qed.

Lemma zero_seeds (ms ds : list Q) :
  (forall x, In x ms -> x = 0) -> Qsum (map2 Qmult ms ds) == 0.
Proof.
  revert ds; induction ms as [|x ms IH]; intros [|d ds] H; simpl;
    try reflexivity.
  fold (Qsum (map2 Qmult ms ds)).
  rewrite IH by (intros y Hy; apply H; now right).
  rewrite (H x) by now left. ring.
Qed.

(** X14: a scene in which nothing can have moved yields no region: the
    mask that [subtraction_mask] returns, handed to [create_mask], makes
    [region_growing] return the empty list at its first test, and the
    detector keeps that empty list as its mask. *)
Theorem still_scene_no_region (fuel : nat) (st : state) (m : image Q) :
  still st -> subtraction_mask st = Some m ->
  exists st', create_mask (S fuel) st m = Some ([], st') /\ mask st' = [].
Proof.
  intros Hs Hm. unfold create_mask, RegionGrowing.region_growing.
  cbn [RegionGrowing.regions].
  assert (Z : Qeq_bool (Qsum (map2 Qmult (concat m)
                                 (concat (current_depth st)))) 0 = true).
  { apply Qeq_bool_iff. apply zero_seeds.
    apply (concat_entries (fun v => v = 0)).
    eapply still_mask_zero; eauto. }
  rewrite Z. eexists. split; reflexivity.
Qed.

Lemma still_scene_no_region_witness :
  exists st',
    create_mask 1
      (set_current_depth sample_state (current_depth sample_state))
      [[0; 0]; [0; 0]] = Some ([], st') /\ mask st' = [].
Proof.
  apply (still_scene_no_region 0
           (set_current_depth sample_state (current_depth sample_state))).
  - left. reflexivity.
  - reflexivity.
Defined.

End FrameDifferenceFacts.

(* ================================================================== *)
(** * Facts about RGB_to_YUV *)

Module YuvFacts.
Import Numeric Image Colour.
Import Lqa.
Local Open Scope Q_scope.

Lemma all_some_nth {A} (l : list (option A)) (r : list A) :
  all_some l = Some r ->
  forall i, nth_error r i =
            match nth_error l i with Some o => o | None => None end.
Proof.
  revert r; induction l as [|[x|] l IH]; intros r H; simpl in H.
  - injection H as <-. intros [|i]; reflexivity.
  - destruct (all_some l) as [r'|]; [|discriminate].
    injection H as <-. intros [|i]; simpl; auto.
  - discriminate.
Qed.

Lemma all_some_none {A} (l : list (option A)) :
  all_some l = None <-> In None l.
Proof.
  induction l as [|[x|] l IH]; simpl.
  - split; [discriminate|tauto].
  - destruct (all_some l) as [r'|].
    + split; [discriminate|]. intros [C|C]; [discriminate|].
      apply IH in C. discriminate.
    + split; [intros _; right; now apply IH | reflexivity].
  - split; [now left | reflexivity].
Qed.

Lemma yuv_of_pixel_some (p : list Q) :
  length p = 3%nat -> exists q, yuv_of_pixel p = Some q.
Proof.
  destruct p as [|r [|g [|b [|x p]]]]; simpl; try discriminate.
  intros _. eexists. reflexivity.
Qed.

Lemma yuv_of_pixel_none (p : list Q) :
  yuv_of_pixel p = None <-> length p <> 3%nat.
Proof.
  destruct p as [|r [|g [|b [|x p]]]]; simpl; split; intros H;
    try reflexivity; try discriminate; try lia; congruence.
Qed.

Lemma all_some_size {A} (l : list (option A)) (r : list A) :
  all_some l = Some r -> length r = length l.
Proof.
  revert r; induction l as [|[x|] l IH]; intros r H; simpl in H.
  - now injection H as <-.
  - destruct (all_some l) as [r'|]; [|discriminate].
    injection H as <-. simpl. f_equal. now apply IH.
  - discriminate.
Qed.

(** [RGB_to_YUV] returns as many pixels as it was given. *)
Lemma RGB_to_YUV_lengths (rgb yuv : image (list Q)) :
  RGB_to_YUV rgb = Some yuv -> length (concat rgb) = length (concat yuv).
Proof.
  unfold RGB_to_YUV. revert yuv.
  induction rgb as [|row rgb IH]; intros yuv H; simpl in H.
  - now injection H as <-.
  - destruct (all_some (map yuv_of_pixel row)) as [row'|] eqn:Er;
      [|discriminate].
    destruct (all_some (map _ rgb)) as [yuv'|] eqn:Ey; [|discriminate].
    injection H as <-. simpl. rewrite !length_app. f_equal.
    + apply all_some_size in Er. rewrite length_map in Er. auto.
    + now apply IH.
Qed.

Lemma yuv_pixelwise (rgb yuv : image (list Q)) (i j : nat) :
  RGB_to_YUV rgb = Some yuv ->
  get_px yuv i j =
  match get_px rgb i j with
  | Some p => yuv_of_pixel p
  | None => None
  end.
Proof.
  unfold RGB_to_YUV, get_px. intros H.
  rewrite (all_some_nth _ _ H i), nth_error_map.
  destruct (nth_error rgb i) as [row|] eqn:Ei; simpl; [|reflexivity].
  destruct (all_some (map yuv_of_pixel row)) as [row'|] eqn:Er.
  - rewrite (all_some_nth _ _ Er j), nth_error_map.
    destruct (nth_error row j); reflexivity.
  - exfalso.
    assert (C : all_some (map (fun row => all_some (map yuv_of_pixel row)) rgb)
                = None).
    { apply all_some_none. apply in_map_iff. exists row.
      split; [exact Er | eapply nth_error_In; eauto]. }
    congruence.
Qed.



Lemma yuv_none_iff (rgb : image (list Q)) :
  RGB_to_YUV rgb = None <->
  exists i j p, get_px rgb i j = Some p /\ length p <> 3%nat.
Proof.
  unfold RGB_to_YUV. split.
  - intros H. apply all_some_none in H. apply in_map_iff in H.
    destruct H as (row & Hr & Hin). apply all_some_none in Hr.
    apply in_map_iff in Hr. destruct Hr as (p & Hp & Hpin).
    destruct (In_nth_error _ _ Hin) as [i Hi].
    destruct (In_nth_error _ _ Hpin) as [j Hj].
    exists i, j, p. unfold get_px. rewrite Hi.
    split; [exact Hj | now apply yuv_of_pixel_none].
  - intros (i & j & p & Hg & Hl). unfold get_px in Hg.
    destruct (nth_error rgb i) as [row|] eqn:Ei; [|discriminate].
    apply all_some_none. apply in_map_iff.
    exists row. split; [|eapply nth_error_In; eauto].
    apply all_some_none. apply in_map_iff. exists p.
    split; [now apply yuv_of_pixel_none | eapply nth_error_In; eauto].
Qed.

(** X18: [RGB_to_YUV] fails exactly when the image has a pixel that does
    not have three channels (the matrix product with the 3 x 3 matrix
    is not defined for it). *)
Theorem RGB_to_YUV_raises (rgb : image (list Q)) :
  RGB_to_YUV rgb = None <->
  exists i j p, get_px rgb i j = Some p /\ length p <> 3%nat.
Proof.
  apply yuv_none_iff.
Qed.

End YuvFacts.

(* ================================================================== *)
(** * Facts about the masks region_growing returns *)

Module RegionMaskFacts.
Import Numeric RegionGrowing NumericFacts RegionGrowingFacts.
Import Lqa.
Local Open Scope Q_scope.

Section BinaryRegions.

Variables H W : Z.
Hypothesis Hnonneg : (0 <= H)%Z.
Hypothesis Wnonneg : (0 <= W)%Z.
Variable depth : list Q.
Variables thr sig : Q.

(** What every returned mask satisfies. *)
Definition kept (m : list Q) : Prop :=
  length m = length depth /\ binary_mask m /\ sig < Qsum m.

Lemma binary_set (m : list Q) (k : nat) :
  binary_mask m -> binary_mask (set_nth k 1 m).
Proof using.
  intros B j. rewrite nth_set_nth. destruct (_ && _)%bool; auto.
Qed.

Lemma binary_zeros : binary_mask (map (fun _ => 0) depth).
Proof using.
  intros k. left. apply nth_map_const.
Qed.

Lemma grow_binary (fuel : nat) (q : list (Z * Z)) (st st' : grow_state) :
  length (mask st) = length depth -> binary_mask (mask st) ->
  grow H W depth thr fuel q st = Some st' ->
  length (mask st') = length depth /\ binary_mask (mask st').
Proof using Hnonneg Wnonneg.
  intros L B Hg.
  pose (I := fun (_ : list (Z * Z)) (s : grow_state) =>
    length (mask s) = length depth /\ binary_mask (mask s)).
  apply (grow_ind H W Hnonneg Wnonneg depth thr I
           (fun _ _ acc => I [] (snd acc))) with (fuel := fuel)
    (q := q) (st := st); unfold I; simpl; auto.
  intros ind seen q0 st0 n [L0 B0] _. unfold set2.
  split; [now rewrite set_nth_length | now apply binary_set].
Qed.

Lemma regions_kept (inner fuel : nat) :
  forall (seeds0 done0 : list Q) (masks r : list (list Q)),
    regions H W depth thr sig inner fuel seeds0 done0 masks = Some r ->
    Forall kept masks -> Forall kept r.
Proof using Hnonneg Wnonneg.
  induction fuel as [|fuel IH]; intros seeds0 done0 masks r Hr Hk;
    [discriminate|].
  rewrite (regions_step H W Hnonneg Wnonneg) in Hr.
  destruct (Qeq_bool (Qsum seeds0) 0); [congruence|].
  cbv zeta in Hr.
  destruct (grow _ _ _ _ inner _ _) as [st'|] eqn:Eg; [|discriminate].
  apply grow_binary in Eg; cbn [mask].
  - apply (IH _ _ _ _ Hr).
    destruct (Qlt_bool sig (Qsum (mask st'))) eqn:Es; [|exact Hk].
    apply Forall_app. split; [exact Hk|]. constructor; [|constructor].
    apply Qlt_bool_iff in Es. unfold kept. tauto.
  - unfold set2. now rewrite set_nth_length, length_map.
  - unfold set2. apply binary_set, binary_zeros.
Qed.

End BinaryRegions.

Lemma region_masks_kept_aux (H W : Z) (current_depth : list Q)
    (depth_threshold significant_number_of_points : Q)
    (movement_mask : list Q) (fuel : nat) (masks : list (list Q))
    (m : list Q) :
  (0 <= H)%Z -> (0 <= W)%Z ->
  region_growing H W current_depth depth_threshold
    significant_number_of_points fuel movement_mask = Some masks ->
  In m masks ->
  length m = length current_depth /\ binary_mask m /\
  significant_number_of_points < Qsum m.
Proof.
  intros HH HW Hr Hm. unfold region_growing in Hr.
  pose proof (regions_kept H W HH HW _ _ _ _ _ _ _ _ _ Hr (Forall_nil _)) as K.
  rewrite Forall_forall in K. apply (K m Hm).
Qed.

(** X19: every mask that [region_growing] returns has the size of the
    depth buffer, holds nothing but 0 and 1, and has more than
    [significant_number_of_points] pixels set. *)
Theorem region_masks_kept (H W : Z) (current_depth : list Q)
    (depth_threshold significant_number_of_points : Q)
    (movement_mask : list Q) (fuel : nat) (masks : list (list Q))
    (m : list Q) :
  (0 <= H)%Z -> (0 <= W)%Z ->
  region_growing H W current_depth depth_threshold
    significant_number_of_points fuel movement_mask = Some masks ->
  In m masks ->
  length m = length current_depth /\ binary_mask m /\
  significant_number_of_points < Qsum m.
Proof.
  intros HH HW Hr Hm.
  destruct (region_masks_kept_aux H W _ _ _ _ _ _ m HH HW Hr Hm)
    as (L & B & S).
  repeat split; assumption.
Qed.

Lemma region_masks_kept_witness :
  length [1; 0; 0] = length wall_depth /\ binary_mask [1; 0; 0] /\
  0 < Qsum [1; 0; 0].
Proof.
  apply (region_masks_kept 1 3 wall_depth depth_threshold_default 0
           wall_mask 5 [[1; 0; 0]; [0; 0; 1]] [1; 0; 0]); try lia.
  - vm_compute. reflexivity.
  - now left.
Defined.

(** Earlier masks share no pixel with later ones. *)
Definition apart (masks : list (list Q)) : Prop :=
  forall a b ma mb k, (a < b)%nat ->
    nth_error masks a = Some ma -> nth_error masks b = Some mb ->
    nth k ma 0 = 1 -> nth k mb 0 = 1 -> False.

(** A pixel that is done has no seed left. *)
Definition spent (seeds0 done0 : list Q) : Prop :=
  forall k, nth k done0 0 = 1 -> nth k seeds0 0 == 0.

Lemma apart_snoc (masks : list (list Q)) (m done0 : list Q) :
  apart masks ->
  (forall m0, In m0 masks -> forall k, nth k m0 0 = 1 -> nth k done0 0 = 1) ->
  (forall k, nth k m 0 = 1 -> nth k done0 0 <> 1) ->
  apart (masks ++ [m]).
Proof.
  intros Ha Hin Hnew a b ma mb k Lab Ea Eb Ka Kb.
  assert (Lb : (b < length (masks ++ [m]))%nat)
    by (apply nth_error_Some; congruence).
  rewrite length_app in Lb. cbn in Lb.
  rewrite nth_error_app1 in Ea by lia.
  destruct (Nat.eq_dec b (length masks)) as [->|Hb].
  - rewrite nth_error_app2, Nat.sub_diag in Eb by lia. injection Eb as <-.
    apply (Hnew k Kb). apply (Hin ma); [eapply nth_error_In; eauto|exact Ka].
  - rewrite nth_error_app1 in Eb by lia.
    exact (Ha a b ma mb k Lab Ea Eb Ka Kb).
Qed.

Section DisjointRegions.

Variables H W : Z.
Hypothesis Hnonneg : (0 <= H)%Z.
Hypothesis Wnonneg : (0 <= W)%Z.
Variable depth : list Q.
Variables thr sig : Q.

Let N := Z.to_nat (H * W).

Section Inner.

Variable done0 : list Q.

(** The inner loop: the region lies in [done], outside what was done
    before; [done] only grows; a done pixel has no seed left. *)
Definition fresh (s : grow_state) : Prop :=
  length (seeds s) = N /\ length (done s) = N /\
  (forall k, nth k (mask s) 0 = 1 ->
     nth k (done s) 0 = 1 /\ nth k done0 0 <> 1) /\
  (forall k, nth k done0 0 = 1 -> nth k (done s) 0 = 1) /\
  spent (seeds s) (done s).

Lemma fresh_push (s : grow_state) (ind n : Z * Z) :
  fresh s -> admits H W depth thr s ind n -> fresh (push W s n).
Proof using Hnonneg Wnonneg.
  intros (Ls & L & Ha & Hb & Hc) (Hf & Hd & _).
  pose proof (flat_lt H W Hnonneg Wnonneg n Hf) as Lt. fold N in Lt.
  unfold at_px, get2 in Hd.
  unfold fresh, spent, push, set2; cbn [seeds done mask].
  rewrite !set_nth_length.
  split; [exact Ls|]. split; [exact L|]. split; [|split].
  - intros k Hk.
    destruct (Nat.eq_dec k (flat W (fst n) (snd n))) as [E|Hne].
    + rewrite E. rewrite nth_set_nth_same by lia.
      split; [reflexivity|]. intros C. apply Hb in C.
      rewrite C in Hd. discriminate.
    + rewrite nth_set_nth_other in Hk by exact Hne.
      rewrite nth_set_nth_other by exact Hne. now apply Ha.
  - intros k Hk. rewrite nth_set_nth.
    destruct (_ && _)%bool; [reflexivity | now apply Hb].
  - intros k Hk.
    destruct (Nat.eq_dec k (flat W (fst n) (snd n))) as [E|Hne].
    + rewrite E. rewrite nth_set_nth_same by lia. reflexivity.
    + rewrite nth_set_nth_other in Hk by exact Hne.
      rewrite nth_set_nth_other by exact Hne. now apply Hc.
Qed.

Lemma grow_fresh (fuel : nat) (q : list (Z * Z)) (s s' : grow_state) :
  fresh s -> grow H W depth thr fuel q s = Some s' -> fresh s'.
Proof using Hnonneg Wnonneg.
  intros F Hg.
  apply (grow_ind H W Hnonneg Wnonneg depth thr (fun _ s => fresh s)
           (fun _ _ acc => fresh (snd acc))) with (fuel := fuel)
    (q := q) (st := s); cbn [snd]; auto.
  intros ind seen q0 st0 n F0 Ha. eapply fresh_push; eauto.
Qed.

End Inner.

(** The outer loop, between two regions. *)
Definition settled (seeds0 done0 : list Q) (masks : list (list Q)) : Prop :=
  length seeds0 = N /\ length done0 = N /\
  (forall x, In x seeds0 -> 0 <= x) /\
  spent seeds0 done0 /\
  (forall m, In m masks -> forall k, nth k m 0 = 1 -> nth k done0 0 = 1) /\
  apart masks.

Lemma regions_settled (inner fuel : nat) :
  forall (seeds0 done0 : list Q) (masks r : list (list Q)),
    regions H W depth thr sig inner fuel seeds0 done0 masks = Some r ->
    settled seeds0 done0 masks -> apart r.
Proof using Hnonneg Wnonneg.
  induction fuel as [|fuel IH]; intros seeds0 done0 masks r Hr St;
    [discriminate|].
  rewrite (regions_step H W Hnonneg Wnonneg) in Hr.
  destruct St as (Ls & Ld & Hn & Hsp & Hin & Hap).
  destruct (Qeq_bool (Qsum seeds0) 0) eqn:Es.
  { injection Hr as <-. exact Hap. }
  destruct (root_positive H W Hnonneg Wnonneg seeds0 Ls Hn Es)
    as (Hfr & Hflat & Ham & Hpos).
  cbv zeta in Hr.
  set (ind_i := (Z.of_nat (argmax seeds0) / W)%Z) in *.
  set (ind_j := (Z.of_nat (argmax seeds0) - ind_i * W)%Z) in *.
  set (st := {| seeds := set2 W seeds0 ind_i ind_j 0;
                done := set2 W done0 ind_i ind_j 1;
                mask := set2 W (map (fun _ => 0) depth) ind_i ind_j 1 |})
    in *.
  destruct (grow _ _ _ _ inner _ st) as [st'|] eqn:Eg; [|discriminate].
  assert (Hroot : nth (argmax seeds0) done0 0 <> 1).
  { intros C. apply Hsp in C. lra. }
  assert (F : fresh done0 st).
  { unfold fresh, spent, st, set2; cbn [seeds done mask]. rewrite Hflat.
    rewrite !set_nth_length.
    split; [exact Ls|]. split; [exact Ld|]. split; [|split].
    - intros k Hk.
      destruct (Nat.eq_dec k (argmax seeds0)) as [E|Hne].
      + rewrite E. rewrite nth_set_nth_same by lia. auto.
      + rewrite nth_set_nth_other in Hk by exact Hne.
        rewrite nth_map_const in Hk. discriminate.
    - intros k Hk. rewrite nth_set_nth.
      destruct (_ && _)%bool; [reflexivity | exact Hk].
    - intros k Hk.
      destruct (Nat.eq_dec k (argmax seeds0)) as [E|Hne].
      + rewrite E. rewrite nth_set_nth_same by lia. reflexivity.
      + rewrite nth_set_nth_other in Hk by exact Hne.
        rewrite nth_set_nth_other by exact Hne. now apply Hsp. }
  pose proof (grow_fresh done0 _ _ _ _ F Eg) as (_ & Ld' & Ha & Hb & Hc).
  destruct (grow_shrinks H W Hnonneg Wnonneg depth thr _ _ _ _ Eg)
    as (Ls' & _ & Hk).
  cbn [seeds done st] in Ls', Hk. unfold set2 in Ls', Hk.
  rewrite set_nth_length in Ls'. rewrite Hflat in Hk.
  apply (IH _ _ _ _ Hr). unfold settled.
  split; [congruence|]. split; [exact Ld'|]. split; [|split; [exact Hc|split]].
  - intros x Hx. destruct (In_nth _ _ 0 Hx) as (k & Hk1 & <-).
    destruct (Hk k) as [E|E]; rewrite E; [|apply Qle_refl].
    rewrite nth_set_nth. destruct (_ && _)%bool; [apply Qle_refl|].
    apply Hn. apply nth_In. congruence.
  - intros m Hm k Hmk.
    destruct (Qlt_bool sig (Qsum (mask st'))).
    + apply in_app_or in Hm. destruct Hm as [Hm|[<-|[]]].
      * apply Hb. eapply Hin; eauto.
      * now apply Ha.
    + apply Hb. eapply Hin; eauto.
  - destruct (Qlt_bool sig (Qsum (mask st'))); [|exact Hap].
    apply (apart_snoc masks (mask st') done0 Hap Hin).
    intros k Hmk. now apply Ha.
Qed.

End DisjointRegions.

(** X20: on a seed mask with values in {0,1} and a depth map without
    negative entries, the masks that [region_growing] returns are
    pairwise disjoint: a pixel set in one of them is 0 in every other. *)
Theorem region_masks_disjoint (H W : Z) (current_depth : list Q)
    (depth_threshold significant_number_of_points : Q)
    (movement_mask : list Q) (fuel : nat) (masks : list (list Q)) :
  (0 <= H)%Z -> (0 <= W)%Z ->
  length movement_mask = Z.to_nat (H * W) ->
  length current_depth = Z.to_nat (H * W) ->
  Forall (fun x => x == 0 \/ x == 1) movement_mask ->
  Forall (fun x => 0 <= x) current_depth ->
  region_growing H W current_depth depth_threshold
    significant_number_of_points fuel movement_mask = Some masks ->
  forall a b ma mb, a <> b ->
    nth_error masks a = Some ma -> nth_error masks b = Some mb ->
    disjoint_masks ma mb.
Proof.
  intros HH HW Lm Ld Hm Hd Hr a b ma mb Hab Ea Eb k Ka.
  pose proof Hr as Hr'. unfold region_growing in Hr'.
  assert (Ha : apart masks).
  { apply (regions_settled H W HH HW _ _ _ _ _ _ _ _ _ Hr').
    unfold settled, spent.
    split; [rewrite map2_length; congruence|].
    split; [rewrite length_map, map2_length; congruence|].
    split; [|split; [|split]].
    - intros x Hx. apply map2_in in Hx.
      destruct Hx as (m & d & Hm' & Hd' & ->).
      rewrite Forall_forall in Hm, Hd.
      specialize (Hd d Hd'). destruct (Hm m Hm') as [E|E]; rewrite E; lra.
    - intros j Hj. rewrite nth_map_const in Hj. discriminate.
    - intros m [].
    - intros x y mx my j _ Ex. destruct x; discriminate. }
  destruct (region_masks_kept_aux H W _ _ _ _ _ _ mb HH HW Hr)
    as (_ & Bb & _); [eapply nth_error_In; eauto|].
  destruct (Bb k) as [E|E]; [exact E|]. exfalso.
  destruct (Nat.lt_gt_cases a b) as [Hlt _].
  destruct (Hlt Hab) as [L|L].
  - eapply (Ha a b); eauto.
  - eapply (Ha b a); eauto.
Qed.

Lemma region_masks_disjoint_witness :
  exists masks,
    region_growing 1 3 wall_depth depth_threshold_default 0 5 wall_mask
    = Some masks /\
    length masks = 2%nat /\
    forall a b ma mb, a <> b ->
      nth_error masks a = Some ma -> nth_error masks b = Some mb ->
      disjoint_masks ma mb.
Proof.
  eexists. split; [vm_compute; reflexivity|]. split; [reflexivity|].
  apply (region_masks_disjoint 1 3 wall_depth depth_threshold_default 0
           wall_mask 5); try reflexivity; try lia.
  - repeat (constructor; [first [left; reflexivity|right; reflexivity]|]).
    constructor.
  - repeat (constructor; [discriminate|]). constructor.
Defined.

End RegionMaskFacts.

(* ================================================================== *)
(** * Facts about the mixture RGBD_MoG maintains *)

Module RgbdModelFacts.
Import Numeric Image ImageFacts Colour NumericFacts RGBD_MoG.
Import Lqa.
Local Open Scope Q_scope.

Lemma Forall_map2_r {A B C} (P : B -> Prop) (R : C -> Prop)
    (f : A -> B -> C) (la : list A) (lb : list B) :
  (forall a b, P b -> R (f a b)) -> Forall P lb -> Forall R (map2 f la lb).
Proof.
  intros Hf Hb; revert la; induction Hb as [|b lb Pb Hb IH]; intros [|a la];
    simpl; constructor; auto.
Qed.

Lemma Forall_map3_m {A B C D} (P : B -> Prop) (R : D -> Prop)
    (f : A -> B -> C -> D) (la : list A) (lb : list B) (lc : list C) :
  (forall a b c, P b -> R (f a b c)) -> Forall P lb ->
  Forall R (map3 f la lb lc).
Proof.
  intros Hf Hb; revert la lc;
    induction Hb as [|b lb Pb Hb IH]; intros [|a la] [|c lc];
    simpl; constructor; auto.
Qed.

Lemma Forall_set_nth {A} (P : A -> Prop) (i : nat) (v : A) (l : list A) :
  P v -> Forall P l -> Forall P (set_nth i v l).
Proof.
  intros Hv Hl; revert i; induction Hl as [|x l Px Hl IH]; intros [|i];
    simpl; constructor; auto.
Qed.

Lemma sq_nonneg (x : Q) : 0 <= sq x.
Proof. apply DistanceFacts.square_nonneg. Qed.

Lemma blend_positive (alfa v e : Q) :
  0 < alfa < 1 -> 0 < v -> 0 <= e -> 0 < (1 - alfa) * v + alfa * e.
Proof.
  intros Ha Hv He.
  assert (0 < (1 - alfa) * v) by (apply Qmult_lt_0_compat; lra).
  assert (0 <= alfa * e) by (apply Qmult_le_0_compat; lra).
  lra.
Qed.

Lemma blend_weight (alfa wmin w : Q) :
  0 < alfa < 1 -> wmin <= w <= 1 ->
  wmin <= (1 - alfa) * w + alfa * 1 <= 1.
Proof.
  intros Ha Hw.
  assert (0 <= alfa * (1 - w)) by (apply Qmult_le_0_compat; lra).
  assert (0 <= (1 - alfa) * (1 - w)) by (apply Qmult_le_0_compat; lra).
  lra.
Qed.

Lemma update_matched_healthy (alfa wmin : Q) (g : Gaussian) (mc : list bool)
    (y : Q) (uv : list Q) (d : Q) (n : Z) :
  0 < alfa < 1 -> healthy wmin g ->
  healthy wmin (update_matched alfa g mc y uv d n).
Proof.
  intros Ha (Hl & Hc & Hd & Hw).
  unfold healthy, update_matched; cbn [luminance_variance color_variance
    depth_variance weight].
  split; [|split; [|split]].
  - apply (Forall_map3_m (fun v => 0 < v)); [|exact Hl].
    intros [|] v lm Hv; cbn; [|exact Hv].
    apply blend_positive; auto using sq_nonneg.
  - apply (Forall_map3_m (fun v => 0 < v)); [|exact Hc].
    intros [|] v cm Hv; cbn; [|exact Hv].
    apply blend_positive; auto.
    apply Qsum_nonneg. intros x Hx. apply in_map_iff in Hx.
    destruct Hx as (z & <- & _). apply sq_nonneg.
  - apply (Forall_map3_m (fun v => 0 < v)); [|exact Hd].
    intros [|] v dm Hv; cbn; [|exact Hv].
    apply blend_positive; auto using sq_nonneg.
  - apply (Forall_map2_r (fun w => wmin <= w <= 1)); [|exact Hw].
    intros [|] w Hw0; cbn; [|exact Hw0].
    apply blend_weight; auto.
Qed.

Lemma update_replaced_healthy (alfa wmin : Q) (g g' : Gaussian)
    (y : Q) (uv : list Q) (d : Q) (n : Z) :
  0 < alfa < 1 -> wmin <= alfa -> healthy wmin g ->
  update_replaced alfa g y uv d n = Some g' -> healthy wmin g'.
Proof.
  intros Ha Hm (Hl & Hc & Hd & Hw). unfold update_replaced.
  destruct (rev (ranking g)) as [|i r]; [discriminate|].
  intros E; injection E as <-.
  unfold healthy; cbn [luminance_variance color_variance depth_variance
    weight].
  repeat split; apply Forall_set_nth; auto; lra.
Qed.

Lemma classify_healthy (fuel : nat) (n : Z) (wmin : Q) (st st' : state)
    (k : nat) :
  0 < learning_rate_alfa st < 1 -> wmin <= learning_rate_alfa st ->
  Forall (healthy wmin) (gaussians st) ->
  classify fuel n st k = Some st' ->
  learning_rate_alfa st' = learning_rate_alfa st /\
  Forall (healthy wmin) (gaussians st').
Proof.
  intros Ha Hm Hg. unfold classify.
  destruct (nth_error (gaussians st) k) as [g0|] eqn:E0; [|discriminate].
  destruct (matching st _) as [mc|]; [|discriminate].
  destruct (update st _ mc n) as [g2|] eqn:Eu; [|discriminate].
  destruct (pixel_value fuel st g2 mc) as [v|]; [|discriminate].
  destruct (set_px (mask st) _ _ v) as [m|]; [|discriminate].
  intros E; injection E as <-. cbn. split; [reflexivity|].
  apply Forall_set_nth; [|exact Hg].
  assert (H0 : healthy wmin (set_ranking g0)).
  { rewrite Forall_forall in Hg. apply (Hg g0). eapply nth_error_In; eauto. }
  unfold update in Eu.
  destruct (get_px (current_yuv st) _ _) as [[|y uv]|]; try discriminate.
  destruct (get_px (current_depth st) _ _) as [d|]; [|discriminate].
  destruct (any mc).
  - injection Eu as <-. now apply update_matched_healthy.
  - eapply update_replaced_healthy; eauto.
Qed.

Lemma classify_loop_healthy (fuel : nat) (n : Z) (wmin : Q) (ks : list nat) :
  forall st st',
    0 < learning_rate_alfa st < 1 -> wmin <= learning_rate_alfa st ->
    Forall (healthy wmin) (gaussians st) ->
    foldM (classify fuel n) ks st = Some st' ->
    Forall (healthy wmin) (gaussians st').
Proof.
  induction ks as [|k ks IH]; intros st st' Ha Hm Hg Hf; cbn [foldM] in Hf.
  - injection Hf as <-. exact Hg.
  - destruct (classify fuel n st k) as [st1|] eqn:E1; [|discriminate].
    destruct (classify_healthy _ _ _ _ _ _ Ha Hm Hg E1) as [Ea Hg1].
    apply (IH st1 st'); auto; rewrite Ea; auto.
Qed.


Lemma all_some_in {A} (l : list (option A)) (r : list A) (x : A) :
  all_some l = Some r -> In x r -> In (Some x) l.
Proof.
  revert r; induction l as [|[y|] l IH]; intros r H Hx; simpl in H.
  - injection H as <-. destruct Hx.
  - destruct (all_some l) as [r'|]; [|discriminate].
    injection H as <-. destruct Hx as [->|Hx]; [now left|].
    right. eapply IH; eauto.
  - discriminate.
Qed.

(** The constructor leaves a healthy mixture: unit variances and weights
    of one third. *)
Lemma rgbd_init_healthy (rgb_im : image (list Q)) (depth_im : image Q)
    (st : state) :
  init rgb_im depth_im = Some st ->
  learning_rate_alfa st = 25 # 1000 /\
  Forall (healthy (25 # 1000)) (gaussians st).
Proof.
  unfold init. intros Hi.
  destruct (RGB_to_YUV rgb_im) as [yuv|]; [|discriminate].
  destruct (initialization _ _ _ yuv depth_im) as [gs|] eqn:Eg;
    [|discriminate].
  injection Hi as <-. cbn. split; [reflexivity|].
  apply Forall_forall. intros g Hg.
  apply (all_some_in _ _ _ Eg) in Hg. apply in_map_iff in Hg.
  destruct Hg as ([i j] & Hij & _).
  destruct (get_px yuv i j) as [p|]; [|discriminate].
  destruct (get_px depth_im i j) as [d|]; [|discriminate].
  injection Hij as <-.
  unfold healthy, initial_gaussian; cbn.
  repeat split; repeat constructor; try reflexivity; discriminate.
Qed.


Lemma accumulate_result (fuel : nat) (w limit : Q) :
  forall (t : Q) (ran : bool) (t' : Q) (ran' : bool),
    accumulate fuel w limit t ran = Some (t', ran') ->
    limit <= t' /\ (t < limit -> ran' = true) /\
    (limit <= t -> t' = t /\ ran' = ran).
Proof.
  induction fuel as [|fuel IH]; intros t ran t' ran' H; [discriminate|].
  cbn [accumulate] in H. destruct (Qlt_bool t limit) eqn:E.
  - apply Qlt_bool_iff in E.
    destruct (IH _ _ _ _ H) as (A & B & C).
    split; [exact A|]. split; [|intros; lra].
    intros _. destruct (Qlt_le_dec (t + w) limit) as [L|L]; [auto|].
    now destruct (C L).
  - injection H as <- <-.
    assert (limit <= t).
    { apply Qnot_lt_le. intros C. apply Qlt_bool_iff in C. congruence. }
    split; [assumption|]. split; [intros; lra | auto].
Qed.

(** Once the sum has reached the threshold the loop body no longer runs:
    the components that follow are not marked. *)
Lemma color_reliability_rest (fuel : nat) (st : state) (g : Gaussian)
    (ks : list nat) :
  forall (t : Q) (rel : list bool) (t' : Q) (rel' : list bool),
    reliability_threshold st <= t ->
    foldM
      (fun '(threshold, rel) i =>
         match accumulate fuel (nth i (weight g) 0)
                 (reliability_threshold st) threshold false with
         | None => None
         | Some (threshold', ran) =>
             Some (threshold', if ran then set_nth i true rel else rel)
         end) ks (t, rel) = Some (t', rel') ->
    rel' = rel.
Proof.
  induction ks as [|k ks IH]; intros t rel t' rel' Ht H; cbn [foldM] in H.
  - now injection H as _ <-.
  - destruct (accumulate fuel _ _ t false) as [[t1 ran1]|] eqn:Ea;
      [|discriminate].
    destruct (accumulate_result _ _ _ _ _ _ _ Ea) as (_ & _ & C).
    destruct (C Ht) as [-> ->]. eapply IH; eauto.
Qed.

(** X22: in [pixel_mask] the [while] loop sits inside the [for] loop
    over the ranking, so it runs to the threshold on the first-ranked
    component alone: with a positive [reliability_threshold], the colour
    reliability it computes marks the first component of the ranking and
    no other, whatever the weights are. *)
Theorem color_reliability_first_ranked (fuel : nat) (st : state)
    (g : Gaussian) (i : nat) (rest : list nat) (rel : list bool) :
  ranking g = i :: rest ->
  0 < reliability_threshold st ->
  color_reliability fuel st g = Some rel ->
  rel = set_nth i true (repeat false (number_of_gaussians st)).
Proof.
  intros Hr Hpos H. unfold color_reliability in H. rewrite Hr in H.
  cbn [foldM] in H.
  destruct (accumulate fuel _ _ 0 false) as [[t1 ran1]|] eqn:Ea;
    [|discriminate].
  destruct (accumulate_result _ _ _ _ _ _ _ Ea) as (A & B & _).
  rewrite (B Hpos) in H.
  match type of H with
  | match ?f with _ => _ end = _ => destruct f as [[t2 rel2]|] eqn:Ef
  end; [|discriminate].
  injection H as <-.
  exact (color_reliability_rest fuel st g rest _ _ _ _ A Ef).
Qed.

Lemma color_reliability_first_ranked_witness :
  [true; false; false] =
  set_nth 0 true (repeat false (number_of_gaussians sample_state)).
Proof.
  apply (color_reliability_first_ranked 5 sample_state sample_gaussian
           0 [1; 2]%nat).
  - reflexivity.
  - reflexivity.
  - vm_compute. reflexivity.
Defined.

Lemma accumulate_enough (w limit : Q) (n : nat) :
  forall (t : Q) (ran : bool),
    0 < w -> limit - t <= inject_Z (Z.of_nat n) * w ->
    exists r, accumulate (S n) w limit t ran = Some r.
Proof.
  induction n as [|n IH]; intros t ran Hw Hn; cbn [accumulate].
  - destruct (Qlt_bool t limit) eqn:E; [|eauto].
    apply Qlt_bool_iff in E. change (inject_Z (Z.of_nat 0)) with 0 in Hn.
    lra.
  - destruct (Qlt_bool t limit) eqn:E; [|eauto].
    apply IH; [exact Hw|].
    rewrite Nat2Z.inj_succ in Hn. unfold Z.succ in Hn.
    rewrite inject_Z_plus in Hn. change (inject_Z 1) with 1 in Hn. lra.
Qed.

(** X23: the [while threshold < reliability_threshold] loop of
    [pixel_mask] comes to an end exactly when it has nothing to do (the
    threshold is reached on entry) or the weight it keeps adding is
    positive; on a weight that is zero or negative it runs for ever. *)
Theorem pixel_mask_loop_ends (w limit t : Q) (ran : bool) :
  (exists fuel r, accumulate fuel w limit t ran = Some r) <->
  (limit <= t \/ 0 < w).
Proof.
  split.
  - intros (fuel & r & H). revert t ran H.
    induction fuel as [|fuel IH]; intros t ran H; [discriminate|].
    cbn [accumulate] in H. destruct (Qlt_bool t limit) eqn:E.
    + apply Qlt_bool_iff in E.
      destruct (IH _ _ H) as [L|L]; [right; lra | now right].
    + left. apply Qnot_lt_le. intros C. apply Qlt_bool_iff in C.
      congruence.
  - intros [L|Hw].
    + exists 1%nat. cbn [accumulate].
      destruct (Qlt_bool t limit) eqn:E; [|eauto].
      apply Qlt_bool_iff in E. lra.
    + destruct (Qarchimedean ((limit - t) / w)) as [p Hp].
      exists (S (Pos.to_nat p)).
      apply accumulate_enough; [exact Hw|].
      rewrite positive_nat_Z.
      assert (E : limit - t == (limit - t) / w * w)
        by (field; lra).
      rewrite E. apply Qlt_le_weak. apply Qmult_lt_compat_r; assumption.
Qed.

End RgbdModelFacts.

(* ================================================================== *)
(** * Facts about the mask Fast_RGBD_MoG returns *)

Module FastMaskFacts.
Import Numeric Image ImageFacts Colour Fast_RGBD_MoG.
Local Open Scope Q_scope.

Lemma firstn_in {A} (n : nat) (l : list A) (x : A) :
  In x (firstn n l) -> In x l.
Proof.
  revert l; induction n as [|n IH]; intros [|y l] H; simpl in *;
    try contradiction.
  destruct H as [->|H]; auto.
Qed.

Lemma skipn_in {A} (n : nat) (l : list A) (x : A) :
  In x (skipn n l) -> In x l.
Proof.
  revert l; induction n as [|n IH]; intros [|y l] H; simpl in *; auto.
Qed.

(** [rows_of] invents no entry. *)
Lemma rows_of_in {A} (h w : nat) (l : list A) (row : list A) (x : A) :
  In row (rows_of h w l) -> In x row -> In x l.
Proof.
  revert l; induction h as [|h IH]; intros l Hr Hx; simpl in Hr;
    [destruct Hr|].
  destruct Hr as [<-|Hr].
  - eapply firstn_in; eauto.
  - eapply skipn_in. eapply IH; eauto.
Qed.

(** A buffer of [h * w] entries is cut into [h] rows of [w] entries. *)
Lemma rows_of_shape {A} (h w : nat) (l : list A) :
  length l = (h * w)%nat -> has_shape h w (rows_of h w l).
Proof.
  revert l; induction h as [|h IH]; intros l Hl; simpl.
  - split; [reflexivity|constructor].
  - destruct (IH (skipn w l)) as [L F].
    { rewrite length_skipn. simpl in Hl. lia. }
    split; [simpl; now rewrite L|].
    constructor; [|exact F].
    rewrite length_firstn. simpl in Hl. lia.
Qed.

Lemma fast_set_mask_values (st : state) (mcs : list (list bool))
    (mask : image Q) :
  set_mask st mcs = Some mask ->
  has_shape (height st) (width st) mask /\
  all_entries MixtureFacts.zero_or_255 mask.
Proof.
  intros Em. unfold set_mask in Em.
  destruct (strike_loop _ _ _) as [tw ws].
  unfold reshape in Em.
  match type of Em with
  | context [rows_of ?h ?w ?l] =>
      destruct (Nat.eqb_spec (length l) (h * w)) as [Hl|Hl];
        [|discriminate];
      injection Em as <-;
      split; [exact (rows_of_shape h w l Hl)|];
      intros i j v Hg; unfold get_px in Hg;
      destruct (nth_error (rows_of h w l) i) as [row|] eqn:Er;
        [|discriminate];
      assert (Hin : In v l)
        by (eapply rows_of_in; eauto using nth_error_In)
  end.
  apply in_map_iff in Hin. destruct Hin as ([|] & <- & _);
    [now left | now right].
Qed.

(** X24: a call of Fast_RGBD_MoG's [get_mask] that returns was given a
    frame that fits the model, as many colour pixels and as many depth
    readings as the model has rows (with any other frame it raises), and
    the mask it returns keeps the convention of the Mixture-of-Gaussians
    detectors: it has [height] rows of [width] entries each, and every
    entry is 0 or 255. *)
Theorem fast_get_mask_values (st st' : state) (rgb_im : image (list Q))
    (depth_im : image Q) (m : image Q) :
  get_mask st rgb_im depth_im = Some (m, st') ->
  length (concat rgb_im) = length (mean st) /\
  length (concat depth_im) = length (mean st) /\
  has_shape (height st) (width st) m /\
  all_entries MixtureFacts.zero_or_255 m.
Proof.
  unfold get_mask.
  destruct (RGB_to_YUV rgb_im) as [yuv|] eqn:Ey; [|discriminate].
  destruct (fits st (concat yuv) (concat depth_im)
            && negb (number_of_gaussians st =? 0)%nat)%bool eqn:Ef;
    [|discriminate].
  apply andb_true_iff in Ef. destruct Ef as [Ef _].
  unfold fits in Ef. apply andb_true_iff in Ef. destruct Ef as [E1 E2].
  apply Nat.eqb_eq in E1. apply Nat.eqb_eq in E2.
  destruct (set_mask _ _) as [mask|] eqn:Em; [|discriminate].
  intros E; injection E as <- _.
  split; [|split; [exact E2|]].
  { rewrite <- E1. apply YuvFacts.RGB_to_YUV_lengths. exact Ey. }
  exact (fast_set_mask_values _ _ _ Em).
Qed.

Lemma fast_get_mask_values_witness :
  exists st m st',
    init first_rgb first_depth = Some st /\
    get_mask st second_rgb second_depth = Some (m, st') /\
    length (concat second_rgb) = length (mean st) /\
    length (concat second_depth) = length (mean st) /\
    has_shape (height st) (width st) m /\
    all_entries MixtureFacts.zero_or_255 m.
Proof.
  eexists. eexists. eexists.
  split; [vm_compute; reflexivity|].
  split; [vm_compute; reflexivity|].
  eapply fast_get_mask_values with (rgb_im := second_rgb)
    (depth_im := second_depth).
  vm_compute. reflexivity.
Defined.

End FastMaskFacts.

(* ================================================================== *)
(** * Facts about the candidate dictionary *)

Module DictionaryFacts.
Import Prediction PredictionFacts.
Local Open Scope float_scope.

(** X25: whenever [find_functions] returns, it returns at most fifteen
    candidates, and at most one fewer than there are observed points; for
    a series of one point or none it returns the empty dictionary without
    asking for a single fit. *)
Theorem find_functions_at_most
    (polyfit : list float -> list float -> nat
               -> option (list float * list (list float)))
    (sum_of_the_squares_of_the_residuals : list float -> list float -> float)
    (t points : list float) (threshold_accuracy : float) :
  ((length points <= 1)%nat ->
   find_functions polyfit sum_of_the_squares_of_the_residuals t points
     threshold_accuracy
   = Some ([], ["function wasn't found"%string])) /\
  (forall (found_functions : dict) (printed : list string),
     find_functions polyfit sum_of_the_squares_of_the_residuals t points
       threshold_accuracy
     = Some (found_functions, printed) ->
     (length found_functions <= 15 /\
      length found_functions <= length points - 1)%nat).
Proof.
  split.
  - intros Hn. unfold find_functions, degrees, max_poly.
    replace (Z.to_nat _) with 0%nat; [reflexivity|].
    destruct (Z.leb_spec (Z.of_nat (length points) - 1) 15); lia.
  - intros found printed Hf.
    apply find_functions_returns in Hf.
    apply find_functions_loop_length in Hf.
    unfold degrees, max_poly in Hf. rewrite length_seq in Hf. simpl in Hf.
    destruct (Z.leb_spec (Z.of_nat (length points) - 1) 15); lia.
Qed.

Lemma apply_deviation_other (deviation : string) (c : candidate) :
  String.eqb deviation "up" = false ->
  String.eqb deviation "down" = false ->
  apply_deviation deviation c = c.
Proof.
  unfold apply_deviation. now intros -> ->.
Qed.



End DictionaryFacts.

(* ================================================================== *)
(** * Facts about MovementFunctions *)

Module MovementFacts.
Import Prediction Colour Movement.
Local Open Scope float_scope.

(** A finite binary64 is a zero or a normal or subnormal number. *)
Lemma finite_cases (x : float) :
  is_finite x = true ->
  exists s, Prim2SF x = S754_zero s \/
            exists m e, Prim2SF x = S754_finite s m e.
Proof.
  unfold is_finite, is_nan, is_infinity.
  rewrite !FloatAxioms.eqb_spec, abs_spec.
  destruct (Prim2SF x) as [sg|sg| |sg m e] eqn:E; intros H.
  - exists sg. now left.
  - exfalso. destruct sg; vm_compute in H; discriminate.
  - exfalso. vm_compute in H. discriminate.
  - exists sg. right. eauto.
Qed.

(** One step of Horner's rule on a leading zero coefficient stays at
    [+0] for every finite abscissa (for an infinity it gives NaN). *)
Lemma horner_zero (x : float) : is_finite x = true -> 0 * x + 0 = 0.
Proof.
  intros Hf. apply Prim2SF_inj. rewrite add_spec, mul_spec.
  destruct (finite_cases x Hf) as (s & [E|(m & e & E)]); rewrite E;
    destruct s; reflexivity.
Qed.

Lemma horner_zeros (x : float) (n : nat) :
  is_finite x = true ->
  fold_left (fun y pv => y * x + pv) (zeros n) 0 = 0.
Proof.
  intros Hf. induction n as [|n IH]; [reflexivity|].
  cbn [zeros repeat fold_left]. rewrite (horner_zero x Hf). exact IH.
Qed.

Lemma polyval1_padded (x : float) (n : nat) (c : list float) :
  is_finite x = true -> polyval1 (zeros n ++ c) x = polyval1 c x.
Proof.
  intros Hf. unfold polyval1. rewrite fold_left_app.
  now rewrite (horner_zeros x n Hf).
Qed.

Lemma right_align_polyval (m : nat) (v row : list float) (x : float) :
  (length v <= m)%nat -> is_finite x = true ->
  right_align m v = Some row -> polyval1 row x = polyval1 v x.
Proof.
  unfold right_align. intros L Hf H.
  destruct (Nat.eqb_spec (length v) 0) as [E0|E0].
  - destruct (m =? 0)%nat; [|discriminate]. injection H as <-.
    destruct v; [reflexivity | discriminate].
  - apply Nat.leb_le in L. rewrite L in H. injection H as <-.
    now apply polyval1_padded.
Qed.

Lemma all_some_map {A B} (f : A -> option B) (l : list A) (r : list B) :
  all_some (map f l) = Some r -> Forall2 (fun x y => f x = Some y) l r.
Proof.
  revert r; induction l as [|x l IH]; intros r H; simpl in H.
  - injection H as <-. constructor.
  - destruct (f x) as [y|] eqn:Ex; [|discriminate].
    destruct (all_some (map f l)) as [r'|]; [|discriminate].
    injection H as <-. constructor; auto.
Qed.

(** X27: the means that a [MovementFunctions] object gives for a finite
    moment are the values [get_future_points] predicts for that moment:
    padding every candidate's coefficients with leading zeros up to
    [max_number_of_params] does not change the polynomial, as long as no
    candidate has more coefficients than that. *)
Theorem movement_means_agree (functions : dict)
    (max_number_of_params : nat) (mf : MovementFunctions)
    (moment : float) :
  extract_parameters functions max_number_of_params = Some mf ->
  Forall (fun e =>
            (length (function_params (snd e)) <= max_number_of_params)%nat
            /\ function (snd e) = generate_poly_trajectory) functions ->
  is_finite moment = true ->
  map (fun m => [m])
    (fst (fst (get_gaussians_parameters_at_time mf moment))) =
  fst (get_future_points functions [moment] "").
Proof.
  intros He Hall Hf. unfold extract_parameters in He.
  destruct (all_some (map _ functions)) as [coefficients|] eqn:Ec;
    [|discriminate].
  destruct (all_some (map (fun '(_, c) => corner _ _) functions))
    as [covs|]; [|discriminate].
  injection He as <-.
  unfold get_gaussians_parameters_at_time, get_solution,
    get_future_points; cbn [fst functions_coefficients].
  apply all_some_map in Ec. rewrite !map_map.
  clear covs. induction Ec as [|[func c] row l r Hrow Ec IH];
    [reflexivity|].
  inversion Hall as [|? ? [Hlen Hfun] Hall']; subst. cbn [snd] in *.
  cbn [map]. f_equal; [|now apply IH].
  cbn. rewrite Hfun.
  rewrite (right_align_polyval _ _ _ _ Hlen Hf Hrow).
  destruct (contains _ func); reflexivity.
Qed.

Lemma movement_means_agree_witness :
  exists mf,
    extract_parameters parabola_functions 2 = Some mf /\
    map (fun m => [m]) (fst (fst (get_gaussians_parameters_at_time mf 2))) =
    fst (get_future_points parabola_functions [2] "").
Proof.
  eexists. split; [vm_compute; reflexivity|].
  apply (movement_means_agree parabola_functions 2 _ 2).
  - vm_compute. reflexivity.
  - repeat constructor.
  - reflexivity.
Defined.

End MovementFacts.

(* ================================================================== *)
(** * Facts about RGB_MoG when nothing matches *)

Module RgbMogResetFacts.
Import Image Colour RGB_MoG RgbMogFacts.
Local Open Scope float_scope.



End RgbMogResetFacts.

(* ================================================================== *)
(** * RGBD_MoG's set_mask returns *)

Module RgbdTotalFacts.
Import Numeric Image ImageFacts Colour NumericFacts RGBD_MoG.
Import RgbdModelFacts YuvFacts.
Import Lqa.
Local Open Scope Q_scope.

(** ** [argsort] returns a rearrangement of the positions *)

Lemma insert_by_in (key : nat -> Q) (i : nat) (l : list nat) (x : nat) :
  In x (insert_by key i l) <-> x = i \/ In x l.
Proof.
  induction l as [|j l IH]; simpl; [intuition congruence|].
  destruct (Qlt_bool (key i) (key j)); simpl; [intuition congruence|].
  rewrite IH. intuition congruence.
Qed.

Lemma insert_by_length (key : nat -> Q) (i : nat) (l : list nat) :
  length (insert_by key i l) = S (length l).
Proof.
  induction l as [|j l IH]; simpl; [reflexivity|].
  destruct (Qlt_bool (key i) (key j)); simpl; congruence.
Qed.

Lemma insert_loop (key : nat -> Q) (ks : list nat) :
  forall acc,
    length (fold_left (fun acc i => insert_by key i acc) ks acc)
    = (length ks + length acc)%nat /\
    forall x, In x (fold_left (fun acc i => insert_by key i acc) ks acc) ->
              In x ks \/ In x acc.
Proof.
  induction ks as [|i ks IH]; intros acc; simpl; [auto|].
  destruct (IH (insert_by key i acc)) as [L I].
  rewrite insert_by_length in L. split; [lia|].
  intros x Hx. destruct (I x Hx) as [H|H]; [auto|].
  apply insert_by_in in H. intuition.
Qed.

Lemma argsort_length (keys : list Q) :
  length (argsort keys) = length keys.
Proof.
  unfold argsort.
  destruct (insert_loop (fun k => nth k keys 0) (seq 0 (length keys)) [])
    as [L _].
  rewrite L, length_seq. simpl. lia.
Qed.

Lemma argsort_in (keys : list Q) (x : nat) :
  In x (argsort keys) -> (x < length keys)%nat.
Proof.
  unfold argsort. intros H.
  destruct (insert_loop (fun k => nth k keys 0) (seq 0 (length keys)) [])
    as [_ I].
  destruct (I x H) as [Hs|[]]. apply in_seq in Hs. lia.
Qed.

(** ** Shapes *)

Lemma length_map2 {A B C} (f : A -> B -> C) (a : list A) (b : list B)
    (n : nat) :
  length a = n -> length b = n -> length (map2 f a b) = n.
Proof.
  revert b n; induction a as [|x a IH]; intros [|y b] n La Lb; simpl in *;
    try congruence.
  destruct n; [discriminate|]. f_equal. apply IH; congruence.
Qed.

Lemma length_map3 {A B C D} (f : A -> B -> C -> D) (a : list A)
    (b : list B) (c : list C) (n : nat) :
  length a = n -> length b = n -> length c = n ->
  length (map3 f a b c) = n.
Proof.
  revert b c n; induction a as [|x a IH]; intros [|y b] [|z c] n La Lb Lc;
    simpl in *; try congruence.
  destruct n; [discriminate|]. f_equal. apply IH; congruence.
Qed.

Lemma sized_ranked (n : nat) (g : Gaussian) :
  sized n g -> sized n (set_ranking g) /\
  length (ranking (set_ranking g)) = n /\
  forall i, In i (ranking (set_ranking g)) -> (i < n)%nat.
Proof.
  intros S. pose proof S as (L1 & L2 & L3 & L4 & L5 & L6 & L7 & L8).
  assert (Lk : length (map2 (fun w v => - w / v) (weight g)
                         (luminance_variance g)) = n)
    by (apply length_map2; assumption).
  split; [exact S|]. cbn [set_ranking ranking]. split.
  - now rewrite argsort_length.
  - intros i Hi. apply argsort_in in Hi. congruence.
Qed.

Lemma matching_returns (st : state) (g : Gaussian) (n : nat)
    (y : Q) (uv : list Q) (d : Q) :
  get_px (current_yuv st) (fst (index g)) (snd (index g)) = Some (y :: uv) ->
  get_px (current_depth st) (fst (index g)) (snd (index g)) = Some d ->
  sized n g ->
  exists mc, matching st g = Some mc /\ length mc = n.
Proof.
  intros Hy Hd (L1 & L2 & L3 & L4 & L5 & L6 & L7 & L8).
  unfold matching. rewrite Hy, Hd. eexists. split; [reflexivity|].
  apply length_map2.
  - apply length_map3; assumption.
  - apply length_map3.
    + now rewrite length_map.
    + apply length_map2; assumption.
    + apply length_map2; assumption.
Qed.

Lemma update_matched_sized (alfa : Q) (g : Gaussian) (mc : list bool)
    (y : Q) (uv : list Q) (d : Q) (o : Z) (n : nat) :
  length mc = n -> sized n g ->
  sized n (update_matched alfa g mc y uv d o).
Proof.
  intros Lm (L1 & L2 & L3 & L4 & L5 & L6 & L7 & L8).
  unfold sized, update_matched; cbn.
  repeat split;
    first [apply length_map2; assumption | apply length_map3; assumption].
Qed.

Lemma update_replaced_sized (alfa : Q) (g g' : Gaussian)
    (y : Q) (uv : list Q) (d : Q) (o : Z) (n : nat) :
  sized n g -> update_replaced alfa g y uv d o = Some g' -> sized n g'.
Proof.
  intros (L1 & L2 & L3 & L4 & L5 & L6 & L7 & L8). unfold update_replaced.
  destruct (rev (ranking g)) as [|i r]; [discriminate|].
  intros E; injection E as <-. unfold sized; cbn.
  rewrite !set_nth_length. repeat split; assumption.
Qed.

Lemma in_set_nth {A} (k : nat) (v x : A) (l : list A) :
  In x (set_nth k v l) -> x = v \/ In x l.
Proof.
  revert k; induction l as [|h t IH]; intros [|k] H; simpl in *; auto.
  - destruct H as [<-|H]; auto.
  - destruct H as [<-|H]; auto. destruct (IH _ H); auto.
Qed.

Lemma set_px_returns {A} (m : image A) (i j : nat) (v0 v : A) :
  get_px m i j = Some v0 -> exists m', set_px m i j v = Some m'.
Proof.
  unfold get_px, set_px. intros H.
  destruct (nth_error m i) as [row|]; [|discriminate].
  assert (L : (j < length row)%nat) by (apply nth_error_Some; congruence).
  apply Nat.ltb_lt in L. rewrite L. eauto.
Qed.

Lemma inject_nat_nonneg (n : nat) : 0 <= inject_Z (Z.of_nat n).
Proof.
  unfold Qle; simpl. lia.
Qed.

(** ** The [while] loop has budget enough *)

Section Budget.

Variables wmin limit : Q.
Variable fuel : nat.
Hypothesis wmin_positive : 0 < wmin.
Hypothesis enough : limit <= inject_Z (Z.of_nat fuel) * wmin.

Lemma accumulate_returns (w t : Q) (ran : bool) :
  wmin <= w -> 0 <= t ->
  exists t' ran',
    accumulate (S fuel) w limit t ran = Some (t', ran') /\ 0 <= t'.
Proof using wmin_positive enough.
  intros Hw Ht.
  destruct (accumulate_enough w limit fuel t ran) as [[t' ran'] E].
  - lra.
  - pose proof (inject_nat_nonneg fuel) as Hf.
    assert (inject_Z (Z.of_nat fuel) * wmin
            <= inject_Z (Z.of_nat fuel) * w).
    { rewrite (Qmult_comm _ wmin), (Qmult_comm _ w).
      apply Qmult_le_compat_r; assumption. }
    lra.
  - exists t', ran'. split; [exact E|].
    destruct (accumulate_result _ _ _ _ _ _ _ E) as (A & _ & C).
    destruct (Qlt_le_dec t limit) as [L|L]; [lra|].
    destruct (C L) as [-> _]. exact Ht.
Qed.

Lemma color_reliability_loop (w : list Q) (ks : list nat) :
  (forall i, In i ks -> wmin <= nth i w 0) ->
  forall (t : Q) (rel : list bool), 0 <= t ->
    exists r,
      foldM
        (fun '(threshold, rel) i =>
           match accumulate (S fuel) (nth i w 0) limit threshold false with
           | None => None
           | Some (threshold', ran) =>
               Some (threshold', if ran then set_nth i true rel else rel)
           end) ks (t, rel) = Some r.
Proof using wmin_positive enough.
  induction ks as [|k ks IH]; intros Hk t rel Ht; cbn [foldM]; [eauto|].
  destruct (accumulate_returns (nth k w 0) t false) as (t' & ran' & E & Ht');
    [apply Hk; now left | exact Ht |].
  rewrite E. apply IH; [|exact Ht'].
  intros i Hi. apply Hk. now right.
Qed.

End Budget.

(** ** One pixel, then all of them *)

Section Pass.

Variable n : nat.
Variables wmin alfa limit : Q.
Variable fuel : nat.
Variable yuv : image (list Q).
Variable depth : image Q.
Hypothesis n_positive : (1 <= n)%nat.
Hypothesis alfa_range : 0 < alfa < 1.
Hypothesis wmin_range : 0 < wmin <= alfa.
Hypothesis enough : limit <= inject_Z (Z.of_nat fuel) * wmin.

(** The frame and the mask have an entry for the pixel of [g]. *)
Definition located (m : image Q) (g : Gaussian) : Prop :=
  (exists y uv,
     get_px yuv (fst (index g)) (snd (index g)) = Some (y :: uv)) /\
  (exists d, get_px depth (fst (index g)) (snd (index g)) = Some d) /\
  (exists v, get_px m (fst (index g)) (snd (index g)) = Some v).

(** What a pass over the pixels relies on, and keeps. *)
Definition ready (st : state) : Prop :=
  learning_rate_alfa st = alfa /\ reliability_threshold st = limit /\
  current_yuv st = yuv /\ current_depth st = depth /\
  Forall (healthy wmin) (gaussians st) /\
  Forall (sized n) (gaussians st) /\
  Forall (located (mask st)) (gaussians st).

Lemma update_returns (st : state) (g : Gaussian) (mc : list bool) (o : Z)
    (y : Q) (uv : list Q) (d : Q) :
  learning_rate_alfa st = alfa ->
  get_px (current_yuv st) (fst (index g)) (snd (index g)) = Some (y :: uv) ->
  get_px (current_depth st) (fst (index g)) (snd (index g)) = Some d ->
  length mc = n -> length (ranking g) = n ->
  healthy wmin g -> sized n g ->
  exists g',
    update st g mc o = Some g' /\ index g' = index g /\
    ranking g' = ranking g /\ healthy wmin g' /\ sized n g'.
Proof using n_positive alfa_range wmin_range.
  intros Ea Hy Hd Lm Lr Hh Hs. unfold update. rewrite Hy, Hd, Ea.
  destruct (any mc).
  - eexists. split; [reflexivity|]. split; [reflexivity|].
    split; [reflexivity|].
    split; [now apply update_matched_healthy
           | now apply update_matched_sized].
  - destruct (update_replaced alfa g y uv d o) as [g'|] eqn:Eu.
    + exists g'. split; [reflexivity|].
      pose proof (update_replaced_healthy _ _ _ _ _ _ _ _ alfa_range
                    (proj2 wmin_range) Hh Eu) as Hh'.
      pose proof (update_replaced_sized _ _ _ _ _ _ _ _ Hs Eu) as Hs'.
      unfold update_replaced in Eu.
      destruct (rev (ranking g)); [discriminate|].
      injection Eu as <-. auto.
    + exfalso. unfold update_replaced in Eu.
      destruct (rev (ranking g)) as [|i r] eqn:Er; [|discriminate].
      apply (f_equal (@length nat)) in Er. rewrite length_rev in Er.
      simpl in Er. lia.
Qed.

Lemma pixel_value_returns (st : state) (g : Gaussian) (mc : list bool) :
  reliability_threshold st = limit ->
  current_yuv st = yuv -> current_depth st = depth ->
  located (mask st) g ->
  healthy wmin g -> sized n g ->
  (forall i, In i (ranking g) -> (i < n)%nat) ->
  exists v, pixel_value (S fuel) st g mc = Some v.
Proof using wmin_range enough.
  intros El Ey Ed ((y & uv & Hy) & (d & Hd) & _) Hh Hs Hr.
  unfold pixel_value, color_reliability. rewrite El, Ey, Ed, Hy, Hd.
  destruct (color_reliability_loop wmin limit fuel (proj1 wmin_range)
              enough (weight g) (ranking g)) with (t := 0)
    (rel := repeat false (number_of_gaussians st)) as [[t rel] E].
  - intros i Hi. destruct Hh as (_ & _ & _ & Hw).
    destruct Hs as (_ & _ & _ & _ & _ & _ & Lw & _).
    rewrite Forall_forall in Hw. apply (Hw (nth i (weight g) 0)).
    apply nth_In. rewrite Lw. now apply Hr.
  - apply Qle_refl.
  - rewrite E. eauto.
Qed.

Lemma classify_returns (o : Z) (st : state) (k : nat) :
  ready st -> (k < length (gaussians st))%nat ->
  exists st',
    classify (S fuel) o st k = Some st' /\ ready st' /\
    length (gaussians st') = length (gaussians st).
Proof using n_positive alfa_range wmin_range enough.
  intros (Ea & El & Ey & Ed & Hh & Hs & Hl) Lk. unfold classify.
  destruct (nth_error (gaussians st) k) as [g0|] eqn:E0.
  2:{ apply nth_error_None in E0. lia. }
  assert (In0 : In g0 (gaussians st)) by (eapply nth_error_In; eauto).
  rewrite Forall_forall in Hh, Hs, Hl.
  pose proof (Hh g0 In0) as Hh0. pose proof (Hs g0 In0) as Hs0.
  pose proof (Hl g0 In0) as Hl0.
  destruct (sized_ranked n g0 Hs0) as (Hs1 & Lr & Hr).
  destruct Hl0 as ((y & uv & Hy) & (d & Hd) & (v0 & Hv)).
  assert (Hy1 : get_px (current_yuv st) (fst (index (set_ranking g0)))
                  (snd (index (set_ranking g0))) = Some (y :: uv))
    by (rewrite Ey; exact Hy).
  assert (Hd1 : get_px (current_depth st) (fst (index (set_ranking g0)))
                  (snd (index (set_ranking g0))) = Some d)
    by (rewrite Ed; exact Hd).
  destruct (matching_returns st (set_ranking g0) n y uv d Hy1 Hd1 Hs1)
    as (mc & Em & Lm).
  rewrite Em.
  destruct (update_returns st (set_ranking g0) mc o y uv d Ea Hy1 Hd1 Lm Lr
              Hh0 Hs1) as (g2 & Eu & Ei & Er & Hh2 & Hs2).
  rewrite Eu.
  assert (Hl2 : located (mask st) g2).
  { unfold located. rewrite Ei. cbn [set_ranking index]. eauto 8. }
  destruct (pixel_value_returns st g2 mc El Ey Ed Hl2 Hh2 Hs2) as [v Ev].
  { intros i Hi. rewrite Er in Hi. now apply Hr. }
  rewrite Ev.
  assert (Hv2 : get_px (mask st) (fst (index g2)) (snd (index g2)) = Some v0)
    by (rewrite Ei; exact Hv).
  destruct (set_px_returns (mask st) _ _ v0 v Hv2) as [m Es].
  rewrite Es. eexists. split; [reflexivity|].
  split; [|cbn; now rewrite set_nth_length].
  unfold ready; cbn. repeat split; auto.
  - apply Forall_set_nth; [exact Hh2 | now apply Forall_forall].
  - apply Forall_set_nth; [exact Hs2 | now apply Forall_forall].
  - apply Forall_forall. intros g Hg.
    assert (Hg' : located (mask st) g).
    { apply in_set_nth in Hg. destruct Hg as [->|Hg]; auto. }
    destruct Hg' as (A & B & (v1 & C)). split; [exact A|].
    split; [exact B|].
    rewrite (get_set_px _ _ _ _ _ _ _ Es).
    destruct (_ && _)%bool; eauto.
Qed.

Lemma classify_loop_returns (o : Z) (ks : list nat) :
  forall st,
    ready st -> (forall k, In k ks -> (k < length (gaussians st))%nat) ->
    exists st', foldM (classify (S fuel) o) ks st = Some st'.
Proof using n_positive alfa_range wmin_range enough.
  induction ks as [|k ks IH]; intros st Hr Hk; cbn [foldM]; [eauto|].
  destruct (classify_returns o st k Hr) as (st1 & E & Hr1 & L1);
    [apply Hk; now left|].
  rewrite E. apply IH; [exact Hr1|].
  intros j Hj. rewrite L1. apply Hk. now right.
Qed.

End Pass.

(** X29: RGBD_MoG's [set_mask] returns: it raises nothing and its
    [while] loop ends at every pixel.  This holds for a learning rate
    strictly between 0 and 1, frames with three colour channels that
    have, like the mask, an entry at the pixel of every mixture, and
    mixtures of [number_of_gaussians] components (at least one) with
    positive variances and weights between a positive [wmin], at most
    the learning rate, and 1; a budget of [reliability_threshold / wmin]
    passes, and one more, is enough for the loop. *)
Theorem rgbd_set_mask_returns (fuel : nat) (wmin : Q) (st : state)
    (rgb_im : image (list Q)) (depth_im : image Q) :
  0 < learning_rate_alfa st < 1 ->
  0 < wmin <= learning_rate_alfa st ->
  reliability_threshold st <= inject_Z (Z.of_nat fuel) * wmin ->
  (1 <= number_of_gaussians st)%nat ->
  gaussians st <> [] ->
  Forall (healthy wmin) (gaussians st) ->
  Forall (sized (number_of_gaussians st)) (gaussians st) ->
  (forall i j p, get_px rgb_im i j = Some p -> length p = 3%nat) ->
  covers st rgb_im depth_im ->
  exists st', set_mask (S fuel) st rgb_im depth_im = Some st'.
Proof.
  intros Ha Hw Hf Hn Hne Hh Hs Hrgb Hc. unfold set_mask.
  destruct (RGB_to_YUV rgb_im) as [yuv|] eqn:Ey.
  2:{ exfalso. apply yuv_none_iff in Ey.
      destruct Ey as (i & j & p & Hp & Hl). apply Hl. eapply Hrgb; eauto. }
  cbn [with_frame gaussians].
  destruct (gaussians st) as [|g gs] eqn:Eg; [congruence|].
  assert (Hs0 : sized (number_of_gaussians st) g)
    by (inversion Hs; assumption).
  destruct (depth_observations g) as [|o os] eqn:Eo.
  { exfalso. destruct Hs0 as (_ & _ & _ & _ & _ & _ & _ & L).
    rewrite Eo in L. simpl in L. lia. }
  rewrite <- Eg.
  apply (classify_loop_returns (number_of_gaussians st) wmin
           (learning_rate_alfa st) (reliability_threshold st) fuel yuv
           depth_im Hn Ha Hw Hf).
  - unfold ready; cbn. rewrite Eg. repeat split; auto.
    apply Forall_forall. intros g' Hg'.
    destruct (Hc g') as ((p & Hp) & Hd & Hm); [now rewrite Eg|].
    split; [|split; assumption].
    pose proof (yuv_pixelwise _ _ (fst (index g')) (snd (index g')) Ey) as E.
    rewrite Hp in E.
    destruct p as [|r [|gr [|b [|x p]]]];
      try (specialize (Hrgb _ _ _ Hp); discriminate).
    cbn in E. eauto.
  - cbn. intros k Hk. apply in_seq in Hk. lia.
Qed.

Lemma rgbd_set_mask_returns_witness :
  exists st',
    set_mask 17 sample_state Fast_RGBD_MoG.second_rgb
      Fast_RGBD_MoG.second_depth = Some st'.
Proof.
  apply (rgbd_set_mask_returns 16 (25 # 1000) sample_state).
  - split; reflexivity.
  - split; [reflexivity | apply Qle_refl].
  - vm_compute. discriminate.
  - cbn. lia.
  - discriminate.
  - repeat constructor; try reflexivity; discriminate.
  - repeat constructor.
  - intros [|i] [|j] p H; cbn in H; try discriminate;
      try (destruct i; discriminate); try (destruct j; discriminate).
    injection H as <-. reflexivity.
  - intros g [<-|[]]. repeat split; eexists; reflexivity.
Defined.

End RgbdTotalFacts.

(* ================================================================== *)
(** * Facts about the arrays probability_of_being_in_point returns *)

Module ProbabilityFacts.
Import Prediction.
Local Open Scope float_scope.

Lemma length_map2_eq {A B C} (f : A -> B -> C) (a : list A) (b : list B) :
  length a = length b -> length (map2 f a b) = length a.
Proof.
  revert b; induction a as [|x a IH]; intros [|y b] L; simpl in *;
    try discriminate; auto.
Qed.

Lemma length_removelast {A} (l : list A) :
  length (removelast l) = pred (length l).
Proof.
  rewrite removelast_firstn_len, length_firstn. lia.
Qed.

Section Grid.

Variable py_round : float -> option float.
Variable np_arange : float -> float -> float -> option (list float).
Variable norm_cdf : float -> float -> float -> float.

(** Adding the weighted CDF of each candidate keeps one entry per grid
    point. *)
Lemma all_c_length (points : list float)
    (zs : list (list float * list float * float)) :
  forall all_c, length all_c = length points ->
    length
      (fold_left
         (fun all_c '(m, s, w) =>
            map2 PrimFloat.add all_c
              (map (fun x => norm_cdf (hd 0 m) (hd 0 s) x * w) points))
         zs all_c) = length points.
Proof using.
  induction zs as [|[[m s] w] zs IH]; intros all_c L; simpl; [exact L|].
  apply IH. rewrite length_map2_eq; [exact L|].
  now rewrite length_map.
Qed.

Lemma probability_from_gaussians_lengths
    (mean sd : list (list float)) (weights : list float) (step : float)
    (align_to_maximum : bool) (probabilities points_between : list float) :
  probability_from_gaussians py_round np_arange norm_cdf mean sd weights
    step align_to_maximum = Some (probabilities, points_between) ->
  length probabilities = length points_between /\
  (2 <= length points_between)%nat.
Proof using.
  unfold probability_from_gaussians.
  destruct (np_min (concat mean)) as [p_min|]; [|discriminate].
  destruct (np_max (concat mean)) as [p_max|]; [|discriminate].
  destruct (np_max (concat sd)) as [sd_max|]; [|discriminate].
  destruct (py_round _) as [r|]; [|discriminate].
  match goal with
  | |- match ?g with _ => _ end = _ -> _ =>
      destruct g as [[points step']|]; [|discriminate]
  end.
  set (grid := if (length points <? 3)%nat then _ else points).
  assert (Lg : (3 <= length grid)%nat).
  { unfold grid. destruct (Nat.ltb_spec (length points) 3); simpl; lia. }
  match goal with
  | |- context [fold_left ?f ?zs ?acc] =>
      pose proof (all_c_length grid zs acc) as La;
      set (all_c := fold_left f zs acc) in *
  end.
  rewrite repeat_length in La. specialize (La eq_refl).
  assert (Lp : length (map2 PrimFloat.sub (tl all_c) (removelast all_c))
               = pred (length grid)).
  { rewrite length_map2_eq; rewrite ?length_tl, ?length_removelast; lia. }
  destruct align_to_maximum.
  - destruct (np_max _) as [m|]; [|discriminate].
    intros E; injection E as <- <-.
    rewrite !length_map, Lp, length_tl. lia.
  - intros E; injection E as <- <-.
    rewrite length_map, Lp, length_tl. lia.
Qed.

End Grid.

(** X30: [probability_of_being_in_point] can return only for a
    dictionary that holds a candidate (for the empty dictionary
    [np.min] raises), and the two arrays it returns are aligned: as many
    probabilities as points, and two of each at the least. *)
Theorem probability_arrays_aligned
    (py_round : float -> option float)
    (np_arange : float -> float -> float -> option (list float))
    (norm_cdf : float -> float -> float -> float)
    (found_functions : dict) (t step : float) (align_to_maximum : bool)
    (probabilities points_between : list float) :
  fst (probability_of_being_in_point py_round np_arange norm_cdf
         found_functions t step align_to_maximum)
  = Some (probabilities, points_between) ->
  found_functions <> [] /\
  length probabilities = length points_between /\
  (2 <= length points_between)%nat.
Proof.
  intros H. split.
  - intros ->. vm_compute in H. discriminate.
  - unfold probability_of_being_in_point in H.
    destruct (get_gaussian_params found_functions t step)
      as [[[mean sd] weights] ff'].
    cbn [fst] in H.
    eapply probability_from_gaussians_lengths; eauto.
Qed.

Lemma probability_arrays_aligned_witness :
  exists probabilities points_between,
    fst (probability_of_being_in_point sample_round sample_arange
           sample_cdf exact_functions 0 0.1 false)
    = Some (probabilities, points_between) /\
    exact_functions <> [] /\
    length probabilities = length points_between /\
    (2 <= length points_between)%nat.
Proof.
  eexists. eexists. split; [vm_compute; reflexivity|].
  eapply probability_arrays_aligned with (py_round := sample_round)
    (np_arange := sample_arange) (norm_cdf := sample_cdf)
    (found_functions := exact_functions) (t := 0) (step := 0.1)
    (align_to_maximum := false).
  vm_compute. reflexivity.
Defined.

End ProbabilityFacts.
